(** * dulwich/walk.py: the commit walker, embedded and verified

    A shallow embedding of [dulwich.walk]: [WalkEntry], [_CommitTimeQueue],
    [Walker] and [_topo_reorder].

    Conventions of the embedding.
    - Python objects that the walker mutates ([Walker], [_CommitTimeQueue])
      are records threaded through the functions; [excluded] is one field
      of the walker state, read and written by the queue as well, since the
      queue holds a reference to the very same set.
    - Python sets are [gset]s; a [for] loop over a set visits [elements].
    - Exceptions are the [Raise] results of an error monad.  A [while]
      loop is a fixpoint on a fuel computed from the state; the fuel running
      out is the separate result [OutOfFuel], shown unreachable below.
    - Commit ids and paths are byte strings, the one domain that the
      specification prescribes for the path filter.  A path of a tree entry
      may be [None] (the missing side of an add or delete), so a path is
      an [option string].  On this domain [decode('utf-8')] is the
      identity, a subscript gives a byte, and [b'/'[0]] is the byte '/'.
    - The heap of the queue is kept as a list sorted by the order in which
      [heapq] pops. *)

From Stdlib Require Import ZArith String Ascii List Lia.
From stdpp Require Import base gmap strings list.

Open Scope string_scope.
Open Scope list_scope.
Open Scope Z_scope.

(** ** Errors and the error monad *)

Definition CommitId := string.
Definition TreeId := string.
Definition Path := option string.

Inductive Error :=
| ValueError (msg : string)
| MissingCommitError (commit_id : CommitId)
| KeyError
| TypeError
| IndexError.

Inductive result (A : Type) :=
| Ok (a : A)
| Raise (e : Error)
| OutOfFuel.
Arguments Ok {A} a.
Arguments Raise {A} e.
Arguments OutOfFuel {A}.

Definition bind {A B} (m : result A) (k : A -> result B) : result B :=
  match m with
  | Ok a => k a
  | Raise e => Raise e
  | OutOfFuel => OutOfFuel
  end.

Notation "x <- m ;; k" := (bind m (fun x => k))
  (at level 100, m at next level, right associativity).

(** ** Data model *)

Record Commit := {
  id : CommitId;
  commit_time : Z;
  parents : list CommitId;
  tree : TreeId
}.

Inductive ChangeType :=
| CHANGE_ADD | CHANGE_MODIFY | CHANGE_DELETE
| CHANGE_RENAME | CHANGE_COPY | CHANGE_UNCHANGED.

Definition ChangeType_eqb (a b : ChangeType) : bool :=
  match a, b with
  | CHANGE_ADD, CHANGE_ADD | CHANGE_MODIFY, CHANGE_MODIFY
  | CHANGE_DELETE, CHANGE_DELETE | CHANGE_RENAME, CHANGE_RENAME
  | CHANGE_COPY, CHANGE_COPY | CHANGE_UNCHANGED, CHANGE_UNCHANGED => true
  | _, _ => false
  end.

(** Modelled from the spec: [RENAME_CHANGE_TYPES] is imported from
    [dulwich.diff_tree]; the spec gives it as {RENAME, COPY}. *)
Definition RENAME_CHANGE_TYPES : list ChangeType := [CHANGE_RENAME; CHANGE_COPY].

Record TreeEntry := {
  path : Path;
  mode : option Z;
  sha : option string
}.

Record TreeChange := {
  type : ChangeType;
  old : TreeEntry;
  new : TreeEntry
}.

(** [store[id]] for commits; a missing key is Python's [KeyError]. *)
Definition ObjectStore := gmap CommitId Commit.

Inductive RenameDetector :=
| RenameDetector_new (store : gmap CommitId Commit)
| RenameDetector_given (tag : nat).

Record WalkEntry := { commit : Commit }.

(** What [WalkEntry.changes] returns: a flat list for at most one parent,
    a list of lists (one inner list per conflicted path, one element per
    parent, possibly [None]) for a merge. *)
Inductive Changes :=
| FlatChanges (l : list TreeChange)
| MergeChanges (l : list (list (option TreeChange))).

Definition ORDER_DATE := "date".
Definition ORDER_TOPO := "topo".
Definition ALL_ORDERS := [ORDER_DATE; ORDER_TOPO].
Definition _MAX_EXTRA_COMMITS : Z := 5.

Record Queue := {
  _pq : list (Z * Commit);
  _pq_set : gset CommitId;
  _seen : gset CommitId;
  _done : gset CommitId;
  _min_time : option Z;
  _last : option Commit;
  _extra_commits_left : Z;
  _is_finished : bool
}.

Record Walker := {
  store : gmap CommitId Commit;
  include : list CommitId;
  excluded : gset CommitId;
  order : string;
  reverse : bool;
  max_entries : option Z;
  paths : option (gset Path);
  rename_detector : option RenameDetector;
  get_parents : Commit -> list CommitId;
  follow : bool;
  since : option Z;
  until : option Z;
  _num_entries : Z;
  _queue : Queue;
  _out_queue : list WalkEntry
}.

Definition set_paths (w : Walker) (p : option (gset Path)) : Walker :=
  {| store := store w; include := include w; excluded := excluded w;
     order := order w; reverse := reverse w; max_entries := max_entries w;
     paths := p; rename_detector := rename_detector w;
     get_parents := get_parents w; follow := follow w; since := since w;
     until := until w; _num_entries := _num_entries w; _queue := _queue w;
     _out_queue := _out_queue w |}.

(** ** PathFilter: [_path_matches], [_change_matches] *)

(** The body of [for followed_path in self.paths] for a changed path that
    is not [None].  A followed path [None] makes [startswith] raise
    [TypeError]; the subscript raises [IndexError] out of range. *)
Fixpoint path_matches_loop (changed_path : string) (followed : list Path)
  : result bool :=
  match followed with
  | [] => Ok false
  | None :: _ => Raise TypeError
  | Some followed_path :: rest =>
      if String.eqb changed_path followed_path then Ok true
      else if String.prefix followed_path changed_path then
        match String.get (String.length followed_path) changed_path with
        | None => Raise IndexError
        | Some c =>
            if Ascii.eqb c "/"%char then Ok true
            else path_matches_loop changed_path rest
        end
      else path_matches_loop changed_path rest
  end.

Definition _path_matches (w : Walker) (changed_path : Path) : result bool :=
  match changed_path with
  | None => Ok false
  | Some p =>
      match paths w with
      | None => Raise TypeError
      | Some ps => path_matches_loop p (elements ps)
      end
  end.

Definition is_rename (t : ChangeType) : bool :=
  existsb (ChangeType_eqb t) RENAME_CHANGE_TYPES.

(** [self.paths.add(old_path); self.paths.remove(new_path)]: [remove]
    raises [KeyError] when the element is absent. *)
Definition follow_rename (w : Walker) (old_path new_path : Path)
  : result Walker :=
  match paths w with
  | None => Raise TypeError
  | Some ps =>
      let ps1 := {[old_path]} ∪ ps in
      if bool_decide (new_path ∈ ps1)
      then Ok (set_paths w (Some (ps1 ∖ {[new_path]})))
      else Raise KeyError
  end.

Definition _change_matches (w : Walker) (change : option TreeChange)
  : result (bool * Walker) :=
  match change with
  | None => Ok (false, w)
  | Some change =>
      let old_path := path (old change) in
      let new_path := path (new change) in
      m <- _path_matches w new_path ;;
      if m then
        if follow w && is_rename (type change) then
          w' <- follow_rename w old_path new_path ;;
          Ok (true, w')
        else Ok (true, w)
      else
        m' <- _path_matches w old_path ;;
        Ok (m', w)
  end.

(** ** WalkEntry.changes and Walker._should_return *)

Section Walk.

(** The tree-diff functions of [dulwich.diff_tree], consumed as pure
    functions of the store, the parent tree(s), the commit's tree and the
    rename detector. *)
Variable tree_changes :
  gmap CommitId Commit -> option TreeId -> TreeId -> option RenameDetector ->
  list TreeChange.
Variable tree_changes_for_merge :
  gmap CommitId Commit -> list TreeId -> TreeId -> option RenameDetector ->
  list (list (option TreeChange)).

(** [[self._store[p].tree for p in parents]] *)
Fixpoint parent_trees (st : gmap CommitId Commit) (ps : list CommitId)
  : result (list TreeId) :=
  match ps with
  | [] => Ok []
  | p :: ps' =>
      match st !! p with
      | None => Raise KeyError
      | Some c => ts <- parent_trees st ps' ;; Ok (tree c :: ts)
      end
  end.

Definition changes (w : Walker) (entry : WalkEntry) : result Changes :=
  let c := commit entry in
  match get_parents w c with
  | [] =>
      Ok (FlatChanges (tree_changes (store w) None (tree c) (rename_detector w)))
  | [p] =>
      match store w !! p with
      | None => Raise KeyError
      | Some pc =>
          Ok (FlatChanges (tree_changes (store w) (Some (tree pc)) (tree c)
                             (rename_detector w)))
      end
  | ps =>
      ts <- parent_trees (store w) ps ;;
      Ok (MergeChanges (tree_changes_for_merge (store w) ts (tree c)
                          (rename_detector w)))
  end.

(** [for change in l: if self._change_matches(change): return True] *)
Fixpoint any_change_matches (w : Walker) (l : list (option TreeChange))
  : result (bool * Walker) :=
  match l with
  | [] => Ok (false, w)
  | change :: l' =>
      r <- _change_matches w change ;;
      if fst r then Ok (true, snd r) else any_change_matches (snd r) l'
  end.

(** [for path_changes in ll: for change in path_changes: ...] *)
Fixpoint any_merge_change_matches (w : Walker)
    (ll : list (list (option TreeChange))) : result (bool * Walker) :=
  match ll with
  | [] => Ok (false, w)
  | path_changes :: ll' =>
      r <- any_change_matches w path_changes ;;
      if fst r then Ok (true, snd r) else any_merge_change_matches (snd r) ll'
  end.

Definition before (t : Z) (bound : option Z) : bool :=
  match bound with
  | Some b => t <? b
  | None => false
  end.

Definition after (t : Z) (bound : option Z) : bool :=
  match bound with
  | Some b => b <? t
  | None => false
  end.

(** [_should_return]; the final [return None] is falsy and is [false]
    here.  A flat list iterated as a merge (or the converse) cannot occur,
    [changes] deciding on the same [get_parents]; it is a [TypeError]. *)
Definition _should_return (w : Walker) (entry : WalkEntry)
  : result (bool * Walker) :=
  let c := commit entry in
  if before (commit_time c) (since w) then Ok (false, w)
  else if after (commit_time c) (until w) then Ok (false, w)
  else if bool_decide (id c ∈ excluded w) then Ok (false, w)
  else
    match paths w with
    | None => Ok (true, w)
    | Some _ =>
        if (1 <? length (get_parents w c))%nat then
          ch <- changes w entry ;;
          match ch with
          | MergeChanges ll => any_merge_change_matches w ll
          | FlatChanges _ => Raise TypeError
          end
        else
          ch <- changes w entry ;;
          match ch with
          | FlatChanges l => any_change_matches w (map Some l)
          | MergeChanges _ => Raise TypeError
          end
    end.

(** ** _CommitTimeQueue *)

(** The heap [_pq] holds pairs [(-commit_time, commit)].  [heapq] always
    pops the least pair, so the heap is kept as a list sorted by that
    order: [heappush] inserts in place, [heappop] takes the head and
    [_pq[0]] is the head.

    Modelled from the spec: the comparison of two commits, used when the
    times tie, is defined in [dulwich.objects]; the spec asks for a
    deterministic tie-break such as the id bytes. *)
Definition heap_lt (a b : Z * Commit) : bool :=
  (fst a <? fst b) || ((fst a =? fst b) && String.ltb (id (snd a)) (id (snd b))).

Fixpoint heappush (pq : list (Z * Commit)) (x : Z * Commit)
  : list (Z * Commit) :=
  match pq with
  | [] => [x]
  | y :: pq' => if heap_lt x y then x :: pq else y :: heappush pq' x
  end.

Definition set_pq (q : Queue) (pq : list (Z * Commit)) (pq_set : gset CommitId)
  : Queue :=
  {| _pq := pq; _pq_set := pq_set; _seen := _seen q; _done := _done q;
     _min_time := _min_time q; _last := _last q;
     _extra_commits_left := _extra_commits_left q;
     _is_finished := _is_finished q |}.

Definition set_seen (q : Queue) (s : gset CommitId) : Queue :=
  {| _pq := _pq q; _pq_set := _pq_set q; _seen := s; _done := _done q;
     _min_time := _min_time q; _last := _last q;
     _extra_commits_left := _extra_commits_left q;
     _is_finished := _is_finished q |}.

Definition set_done (q : Queue) (d : gset CommitId) : Queue :=
  {| _pq := _pq q; _pq_set := _pq_set q; _seen := _seen q; _done := d;
     _min_time := _min_time q; _last := _last q;
     _extra_commits_left := _extra_commits_left q;
     _is_finished := _is_finished q |}.

Definition set_last (q : Queue) (c : Commit) : Queue :=
  {| _pq := _pq q; _pq_set := _pq_set q; _seen := _seen q; _done := _done q;
     _min_time := _min_time q; _last := Some c;
     _extra_commits_left := _extra_commits_left q;
     _is_finished := _is_finished q |}.

Definition set_extra (q : Queue) (n : Z) : Queue :=
  {| _pq := _pq q; _pq_set := _pq_set q; _seen := _seen q; _done := _done q;
     _min_time := _min_time q; _last := _last q;
     _extra_commits_left := n;
     _is_finished := _is_finished q |}.

Definition set_finished (q : Queue) : Queue :=
  {| _pq := _pq q; _pq_set := _pq_set q; _seen := _seen q; _done := _done q;
     _min_time := _min_time q; _last := _last q;
     _extra_commits_left := _extra_commits_left q;
     _is_finished := true |}.

(** [_push]: the commit is fetched first, then the two sets are tested. *)
Definition _push (st : gmap CommitId Commit) (q : Queue) (commit_id : CommitId)
  : result Queue :=
  match st !! commit_id with
  | None => Raise (MissingCommitError commit_id)
  | Some commit =>
      if bool_decide (commit_id ∉ _pq_set q) && bool_decide (commit_id ∉ _done q)
      then
        Ok (set_seen
              (set_pq q (heappush (_pq q) (- commit_time commit, commit))
                 ({[commit_id]} ∪ _pq_set q))
              ({[commit_id]} ∪ _seen q))
      else Ok q
  end.

(** [for commit_id in ids: self._push(commit_id)] *)
Fixpoint push_all (st : gmap CommitId Commit) (q : Queue) (ids : list CommitId)
  : result Queue :=
  match ids with
  | [] => Ok q
  | commit_id :: ids' => q' <- _push st q commit_id ;; push_all st q' ids'
  end.

(** The [for parent in ...] loop of [_exclude_parents].  The stack [todo]
    has its top at the head of the list. *)
Fixpoint exclude_parents_of (st : gmap CommitId Commit) (seen : gset CommitId)
    (ps : list CommitId) (todo : list Commit) (excl : gset CommitId)
  : result (list Commit * gset CommitId) :=
  match ps with
  | [] => Ok (todo, excl)
  | parent :: ps' =>
      if bool_decide (parent ∉ excl) && bool_decide (parent ∈ seen) then
        match st !! parent with
        | None => Raise KeyError
        | Some c =>
            exclude_parents_of st seen ps' (c :: todo) ({[parent]} ∪ excl)
        end
      else exclude_parents_of st seen ps' todo ({[parent]} ∪ excl)
  end.

Fixpoint exclude_parents_loop (fuel : nat) (st : gmap CommitId Commit)
    (gp : Commit -> list CommitId) (seen : gset CommitId)
    (todo : list Commit) (excl : gset CommitId) : result (gset CommitId) :=
  match todo with
  | [] => Ok excl
  | c :: todo' =>
      match fuel with
      | O => OutOfFuel
      | S fuel' =>
          r <- exclude_parents_of st seen (gp c) todo' excl ;;
          exclude_parents_loop fuel' st gp seen (fst r) (snd r)
      end
  end.

Definition exclude_parents_fuel (seen excl : gset CommitId) (todo : list Commit)
  : nat :=
  (length todo + size (seen ∖ excl))%nat.

Definition _exclude_parents (st : gmap CommitId Commit)
    (gp : Commit -> list CommitId) (seen excl : gset CommitId) (c : Commit)
  : result (gset CommitId) :=
  exclude_parents_loop (exclude_parents_fuel seen excl [c]) st gp seen [c] excl.

(** The value of [reset_extra_commits] after the [if is_excluded] block. *)
Definition reset_after_exclusion (excl : gset CommitId) (q : Queue) : bool :=
  match _pq q with
  | [] => true
  | (_, n) :: _ =>
      if forallb (fun x => bool_decide (id (snd x) ∈ excl)) (_pq q) then
        match _last q with
        | Some l => commit_time l <=? commit_time n
        | None => false
        end
      else true
  end.

Fixpoint next_loop (fuel : nat) (st : gmap CommitId Commit)
    (gp : Commit -> list CommitId) (excl : gset CommitId) (q : Queue)
  : result (option WalkEntry * (gset CommitId * Queue)) :=
  match _pq q with
  | [] => Ok (None, (excl, set_finished q))
  | (_, c) :: pq' =>
      match fuel with
      | O => OutOfFuel
      | S fuel' =>
          let sha := id c in
          if bool_decide (sha ∈ _pq_set q) then
            let q1 := set_pq q pq' (_pq_set q ∖ {[sha]}) in
            if bool_decide (sha ∈ _done q1) then next_loop fuel' st gp excl q1
            else
              let q2 := set_done q1 ({[sha]} ∪ _done q1) in
              q3 <- push_all st q2 (gp c) ;;
              let is_excluded := bool_decide (sha ∈ excl) in
              r <- (if is_excluded then
                      excl' <- _exclude_parents st gp (_seen q3) excl c ;;
                      Ok (excl', reset_after_exclusion excl' q3)
                    else Ok (excl, true)) ;;
              let excl' := fst r in
              let reset_extra_commits :=
                snd r && negb (before (commit_time c) (_min_time q3)) in
              if reset_extra_commits then
                let q4 := set_extra q3 _MAX_EXTRA_COMMITS in
                if is_excluded then next_loop fuel' st gp excl' q4
                else Ok (Some {| commit := c |}, (excl', set_last q4 c))
              else
                let q4 := set_extra q3 (_extra_commits_left q3 - 1) in
                if _extra_commits_left q4 =? 0
                then Ok (None, (excl', set_finished q4))
                else if is_excluded then next_loop fuel' st gp excl' q4
                else Ok (Some {| commit := c |}, (excl', set_last q4 c))
          else Raise KeyError
      end
  end.

(** Every iteration of the loop of [next] pops one heap entry, and a
    commit id enters the heap only when it is in the store and in neither
    [_pq_set] nor [_done]. *)
Definition queue_measure (st : gmap CommitId Commit) (q : Queue) : nat :=
  (length (_pq q) + size (dom st ∖ (_pq_set q ∪ _done q)))%nat.

Definition set_queue (w : Walker) (excl : gset CommitId) (q : Queue) : Walker :=
  {| store := store w; include := include w; excluded := excl;
     order := order w; reverse := reverse w; max_entries := max_entries w;
     paths := paths w; rename_detector := rename_detector w;
     get_parents := get_parents w; follow := follow w; since := since w;
     until := until w; _num_entries := _num_entries w; _queue := q;
     _out_queue := _out_queue w |}.

(** [_CommitTimeQueue.next], on the walker state: the queue and the
    excluded set it shares with the walker. *)
Definition next (w : Walker) : result (option WalkEntry * Walker) :=
  if _is_finished (_queue w) then Ok (None, w)
  else
    r <- next_loop (queue_measure (store w) (_queue w)) (store w)
           (get_parents w) (excluded w) (_queue w) ;;
    Ok (fst r, set_queue w (fst (snd r)) (snd (snd r))).

Definition new_queue (min_time : option Z) : Queue :=
  {| _pq := []; _pq_set := ∅; _seen := ∅; _done := ∅;
     _min_time := min_time; _last := None;
     _extra_commits_left := _MAX_EXTRA_COMMITS; _is_finished := false |}.

(** [_CommitTimeQueue.__init__] *)
Definition _CommitTimeQueue_init (st : gmap CommitId Commit)
    (incl : list CommitId) (excl : gset CommitId) (min_time : option Z)
  : result Queue :=
  push_all st (new_queue min_time) (incl ++ elements excl).

(** ** Walker *)

(** [include] is a list of ids or a single id. *)
Inductive IncludeArg :=
| IncludeOne (commit_id : CommitId)
| IncludeList (l : list CommitId).

(** The arguments of [Walker.__init__]; [queue_cls] is the default
    [_CommitTimeQueue]. *)
Record WalkerArgs := {
  arg_store : gmap CommitId Commit;
  arg_include : IncludeArg;
  arg_exclude : option (list CommitId);
  arg_order : string;
  arg_reverse : bool;
  arg_max_entries : option Z;
  arg_paths : option (list Path);
  arg_rename_detector : option RenameDetector;
  arg_follow : bool;
  arg_since : option Z;
  arg_until : option Z;
  arg_get_parents : Commit -> list CommitId
}.

Definition Walker_init (a : WalkerArgs) : result Walker :=
  if negb (existsb (String.eqb (arg_order a)) ALL_ORDERS) then
    Raise (ValueError ("Unknown walk order " +:+ arg_order a))
  else
    let incl :=
      match arg_include a with
      | IncludeOne c => [c]
      | IncludeList l => l
      end in
    let excl : gset CommitId :=
      match arg_exclude a with
      | Some l => list_to_set l
      | None => ∅
      end in
    let ps : option (gset Path) :=
      match arg_paths a with
      | None | Some [] => None
      | Some l => Some (list_to_set l)
      end in
    let rd :=
      match arg_follow a, arg_rename_detector a with
      | true, None => Some (RenameDetector_new (arg_store a))
      | _, d => d
      end in
    q <- _CommitTimeQueue_init (arg_store a) incl excl (arg_since a) ;;
    Ok {| store := arg_store a; include := incl; excluded := excl;
          order := arg_order a; reverse := arg_reverse a;
          max_entries := arg_max_entries a; paths := ps;
          rename_detector := rd; get_parents := arg_get_parents a;
          follow := arg_follow a; since := arg_since a;
          until := arg_until a; _num_entries := 0; _queue := q;
          _out_queue := [] |}.

Definition set_out_queue (w : Walker) (oq : list WalkEntry) : Walker :=
  {| store := store w; include := include w; excluded := excluded w;
     order := order w; reverse := reverse w; max_entries := max_entries w;
     paths := paths w; rename_detector := rename_detector w;
     get_parents := get_parents w; follow := follow w; since := since w;
     until := until w; _num_entries := _num_entries w; _queue := _queue w;
     _out_queue := oq |}.

Definition set_num_entries (w : Walker) (n : Z) : Walker :=
  {| store := store w; include := include w; excluded := excluded w;
     order := order w; reverse := reverse w; max_entries := max_entries w;
     paths := paths w; rename_detector := rename_detector w;
     get_parents := get_parents w; follow := follow w; since := since w;
     until := until w; _num_entries := n; _queue := _queue w;
     _out_queue := _out_queue w |}.

Definition set_max_entries (w : Walker) (m : option Z) : Walker :=
  {| store := store w; include := include w; excluded := excluded w;
     order := order w; reverse := reverse w; max_entries := m;
     paths := paths w; rename_detector := rename_detector w;
     get_parents := get_parents w; follow := follow w; since := since w;
     until := until w; _num_entries := _num_entries w; _queue := _queue w;
     _out_queue := _out_queue w |}.

(** [max_entries is None or self._num_entries < max_entries] *)
Definition below_max (w : Walker) : bool :=
  match max_entries w with
  | None => true
  | Some m => _num_entries w <? m
  end.

(** [_out_queue] is a deque: [append] at the end, [popleft] at the head. *)
Fixpoint _next_loop (fuel : nat) (w : Walker)
  : result (option WalkEntry * Walker) :=
  if below_max w then
    match fuel with
    | O => OutOfFuel
    | S fuel' =>
        r <- next w ;;
        let entry := fst r in
        let w1 :=
          match entry with
          | Some e => set_out_queue (snd r) (_out_queue (snd r) ++ [e])
          | None => snd r
          end in
        if match entry with None => true | Some _ => false end
           || (_MAX_EXTRA_COMMITS <? Z.of_nat (length (_out_queue w1))) then
          match _out_queue w1 with
          | [] => Ok (None, w1)
          | e :: oq =>
              sr <- _should_return (set_out_queue w1 oq) e ;;
              if fst sr
              then Ok (Some e, set_num_entries (snd sr) (_num_entries (snd sr) + 1))
              else _next_loop fuel' (snd sr)
          end
        else _next_loop fuel' w1
    end
  else Ok (None, w).

Definition next_measure (w : Walker) : nat :=
  if _is_finished (_queue w) then O
  else S (queue_measure (store w) (_queue w)).

(** Every iteration of the loop of [_next] takes an entry from the queue
    or an entry from [_out_queue]. *)
Definition walker_measure (w : Walker) : nat :=
  (2 * next_measure w + length (_out_queue w))%nat.

Definition _next (w : Walker) : result (option WalkEntry * Walker) :=
  _next_loop (S (walker_measure w)) w.

(** An iterator run to its end: the entries it yields, then how it ends,
    [Ok w] for exhaustion (with the walker state then) or the exception
    raised after the last yield. *)
Definition Stream := (list WalkEntry * result Walker)%type.

(** [iter(self._next, None)] *)
Fixpoint iter_next (fuel : nat) (w : Walker) : Stream :=
  match fuel with
  | O => ([], OutOfFuel)
  | S fuel' =>
      match _next w with
      | Ok (None, w') => ([], Ok w')
      | Ok (Some e, w') =>
          let s := iter_next fuel' w' in (e :: fst s, snd s)
      | Raise err => ([], Raise err)
      | OutOfFuel => ([], OutOfFuel)
      end
  end.

Definition results (w : Walker) : Stream :=
  iter_next (S (walker_measure w)) w.

(** ** _topo_reorder *)

(** [num_children] is a [defaultdict(int)]. *)
Definition num_children_get (nc : gmap CommitId Z) (p : CommitId) : Z :=
  default 0 (nc !! p).

(** [for p in ps: num_children[p] += 1] *)
Fixpoint count_children (ps : list CommitId) (nc : gmap CommitId Z)
  : gmap CommitId Z :=
  match ps with
  | [] => nc
  | p :: ps' => count_children ps' (<[p := num_children_get nc p + 1]> nc)
  end.

Fixpoint topo_ingest (gp : Commit -> list CommitId) (entries : list WalkEntry)
    (nc : gmap CommitId Z) : gmap CommitId Z :=
  match entries with
  | [] => nc
  | e :: es => topo_ingest gp es (count_children (gp (commit e)) nc)
  end.

(** The [for parent_id in get_parents(commit)] loop of the second phase;
    [todo.appendleft] puts the parent at the head. *)
Fixpoint release_parents (ps : list CommitId) (todo : list WalkEntry)
    (pending : gmap CommitId WalkEntry) (nc : gmap CommitId Z)
  : list WalkEntry * gmap CommitId WalkEntry * gmap CommitId Z :=
  match ps with
  | [] => (todo, pending, nc)
  | parent_id :: ps' =>
      let n := num_children_get nc parent_id - 1 in
      let nc' := <[parent_id := n]> nc in
      if n =? 0 then
        match pending !! parent_id with
        | Some parent_entry =>
            release_parents ps' (parent_entry :: todo)
              (delete parent_id pending) nc'
        | None => release_parents ps' todo pending nc'
        end
      else release_parents ps' todo pending nc'
  end.

(** The [while todo] loop: the entries yielded, and whether the loop
    ended within the fuel. *)
Fixpoint topo_loop (fuel : nat) (gp : Commit -> list CommitId)
    (todo : list WalkEntry) (pending : gmap CommitId WalkEntry)
    (nc : gmap CommitId Z) : list WalkEntry * bool :=
  match todo with
  | [] => ([], true)
  | entry :: todo' =>
      match fuel with
      | O => ([], false)
      | S fuel' =>
          let c := commit entry in
          let commit_id := id c in
          if negb (num_children_get nc commit_id =? 0) then
            topo_loop fuel' gp todo' (<[commit_id := entry]> pending) nc
          else
            let '(todo2, pending2, nc2) :=
              release_parents (gp c) todo' pending nc in
            let r := topo_loop fuel' gp todo2 pending2 nc2 in
            (entry :: fst r, snd r)
      end
  end.

(** [_topo_reorder] on a list of entries: an entry leaves [todo] at most
    twice, once to [pending] and once to be yielded. *)
Definition topo_list (gp : Commit -> list CommitId) (entries : list WalkEntry)
  : list WalkEntry * bool :=
  topo_loop (3 * length entries) gp entries ∅ (topo_ingest gp entries ∅).

(** [_topo_reorder] drains its input before it yields: an exception of the
    input comes before any entry. *)
Definition _topo_reorder (entries : Stream) (gp : Commit -> list CommitId)
  : Stream :=
  match snd entries with
  | Ok w' =>
      let r := topo_list gp (fst entries) in
      (fst r, if snd r then Ok w' else OutOfFuel)
  | Raise err => ([], Raise err)
  | OutOfFuel => ([], OutOfFuel)
  end.

(** [reversed(list(results))] *)
Definition reversed_list (s : Stream) : Stream :=
  match snd s with
  | Ok w' => (rev (fst s), Ok w')
  | Raise err => ([], Raise err)
  | OutOfFuel => ([], OutOfFuel)
  end.

Definition _reorder (w : Walker) (s : Stream) : Stream :=
  let s1 :=
    if String.eqb (order w) ORDER_TOPO then _topo_reorder s (get_parents w)
    else s in
  if reverse w then reversed_list s1 else s1.

(** [Walker.__iter__], run to the end. *)
Definition Walker_iter (w : Walker) : Stream :=
  _reorder w (results w).

End Walk.

(** * Specification-side predicates and concrete data *)

(** [p] equals [s], or starts with [s] followed by the byte '/'. *)
Definition path_match (p s : string) : Prop :=
  p = s \/ exists rest, p = s +:+ String "/" rest.

Definition get_ok {A : Type} (d : A) (r : result A) : A :=
  match r with
  | Ok a => a
  | _ => d
  end.

Definition mk_commit (i : CommitId) (t : Z) (ps : list CommitId) : Commit :=
  {| id := i; commit_time := t; parents := ps; tree := "tree-" +:+ i |}.

Definition modify (p : string) : TreeChange :=
  {| type := CHANGE_MODIFY;
     old := {| path := Some p; mode := Some 33188; sha := Some "blob-old" |};
     new := {| path := Some p; mode := Some 33188; sha := Some "blob-new" |} |}.

Definition no_tree_changes (st : gmap CommitId Commit) (parent : option TreeId)
    (t : TreeId) (rd : option RenameDetector) : list TreeChange := [].

Definition no_merge_changes (st : gmap CommitId Commit) (ps : list TreeId)
    (t : TreeId) (rd : option RenameDetector)
  : list (list (option TreeChange)) := [].

(** The default arguments of [Walker.__init__]. *)
Definition default_args (st : gmap CommitId Commit) (incl : list CommitId)
  : WalkerArgs :=
  {| arg_store := st; arg_include := IncludeList incl; arg_exclude := None;
     arg_order := ORDER_DATE; arg_reverse := false; arg_max_entries := None;
     arg_paths := None; arg_rename_detector := None; arg_follow := false;
     arg_since := None; arg_until := None; arg_get_parents := parents |}.

Definition with_paths (a : WalkerArgs) (ps : list Path) : WalkerArgs :=
  {| arg_store := arg_store a; arg_include := arg_include a;
     arg_exclude := arg_exclude a; arg_order := arg_order a;
     arg_reverse := arg_reverse a; arg_max_entries := arg_max_entries a;
     arg_paths := Some ps; arg_rename_detector := arg_rename_detector a;
     arg_follow := arg_follow a; arg_since := arg_since a;
     arg_until := arg_until a; arg_get_parents := arg_get_parents a |}.

Definition blank_walker : Walker :=
  {| store := ∅; include := []; excluded := ∅; order := ORDER_DATE;
     reverse := false; max_entries := None; paths := None;
     rename_detector := None; get_parents := parents; follow := false;
     since := None; until := None; _num_entries := 0;
     _queue := new_queue None; _out_queue := [] |}.

(** *** A merge whose only matching change is relative to one parent *)

Definition merge_store : gmap CommitId Commit :=
  list_to_map [("M", mk_commit "M" 30 ["P1"; "P2"]);
               ("P1", mk_commit "P1" 20 []);
               ("P2", mk_commit "P2" 10 [])].

Definition merge_conflicts : list (list (option TreeChange)) :=
  [[Some (modify "foo/a.txt"); None]; [None; None]].

Definition merge_tree_changes (st : gmap CommitId Commit) (ps : list TreeId)
    (t : TreeId) (rd : option RenameDetector)
  : list (list (option TreeChange)) := merge_conflicts.

Definition merge_args : WalkerArgs :=
  with_paths (default_args merge_store ["M"]) [Some "foo"].

Definition merge_walker : Walker := get_ok blank_walker (Walker_init merge_args).

Definition merge_entry : WalkEntry := {| commit := mk_commit "M" 30 ["P1"; "P2"] |}.

(** A change matches the filter of [w]. *)
Definition matching (w : Walker) (c : option TreeChange) : Prop :=
  exists w', _change_matches w c = Ok (true, w').

(** "A matching change in the change list of every parent", the inner
    lists read as one list per parent. *)
Definition every_list_has_match (w : Walker)
    (ll : list (list (option TreeChange))) : Prop :=
  forall l, l ∈ ll -> exists c, c ∈ l /\ matching w c.

(** The same, the j-th element of each inner list read as the change
    relative to the j-th parent. *)
Definition every_parent_has_match (w : Walker) (n : nat)
    (ll : list (list (option TreeChange))) : Prop :=
  forall j, (j < n)%nat ->
    exists l c, l ∈ ll /\ l !! j = Some c /\ matching w c.

(** *** A linear history, and a walker run to exhaustion *)

Definition linear_store : gmap CommitId Commit :=
  list_to_map [("C3", mk_commit "C3" 30 ["C2"]);
               ("C2", mk_commit "C2" 20 ["C1"]);
               ("C1", mk_commit "C1" 10 [])].

Definition linear_walker : Walker :=
  get_ok blank_walker (Walker_init (default_args linear_store ["C3"])).

Definition drained_walker : Walker :=
  get_ok blank_walker
    (snd (results no_tree_changes no_merge_changes linear_walker)).

(** A queue that holds the id [X] while the store does not. *)
Definition queue_holding_X : Queue :=
  set_pq (new_queue None) [(-10, mk_commit "X" 10 [])] {["X"]}.

(** *** Constructions with a negative cap and every follow/rename pairing *)

(** The ids pushed by [_CommitTimeQueue.__init__]. *)
Definition seed_ids (a : WalkerArgs) : list CommitId :=
  match arg_include a with
  | IncludeOne c => [c]
  | IncludeList l => l
  end ++
  match arg_exclude a with
  | Some l => l
  | None => []
  end.

Definition with_options (a : WalkerArgs) (max_entries : option Z)
    (follow : bool) (rd : option RenameDetector) : WalkerArgs :=
  {| arg_store := arg_store a; arg_include := arg_include a;
     arg_exclude := arg_exclude a; arg_order := arg_order a;
     arg_reverse := arg_reverse a; arg_max_entries := max_entries;
     arg_paths := arg_paths a; arg_rename_detector := rd;
     arg_follow := follow; arg_since := arg_since a;
     arg_until := arg_until a; arg_get_parents := arg_get_parents a |}.

Definition with_order (a : WalkerArgs) (order : string) (reverse : bool)
  : WalkerArgs :=
  {| arg_store := arg_store a; arg_include := arg_include a;
     arg_exclude := arg_exclude a; arg_order := order;
     arg_reverse := reverse; arg_max_entries := arg_max_entries a;
     arg_paths := arg_paths a; arg_rename_detector := arg_rename_detector a;
     arg_follow := arg_follow a; arg_since := arg_since a;
     arg_until := arg_until a; arg_get_parents := arg_get_parents a |}.

Definition linear_args : WalkerArgs := default_args linear_store ["C3"].

Definition is_Ok {A : Type} (r : result A) : bool :=
  match r with
  | Ok _ => true
  | _ => false
  end.

Definition negative_cap_args : WalkerArgs :=
  with_options linear_args (Some (-1)) false None.

Definition negative_cap_walker : Walker :=
  get_ok blank_walker (Walker_init negative_cap_args).

(** *** Changing an option of a walker *)

Definition set_reverse (w : Walker) (b : bool) : Walker :=
  {| store := store w; include := include w; excluded := excluded w;
     order := order w; reverse := b; max_entries := max_entries w;
     paths := paths w; rename_detector := rename_detector w;
     get_parents := get_parents w; follow := follow w; since := since w;
     until := until w; _num_entries := _num_entries w; _queue := _queue w;
     _out_queue := _out_queue w |}.

Definition map_result {A B : Type} (g : A -> B) (r : result A) : result B :=
  match r with
  | Ok a => Ok (g a)
  | Raise e => Raise e
  | OutOfFuel => OutOfFuel
  end.

Definition on_walker {A : Type} (f : Walker -> Walker) (r : A * Walker)
  : A * Walker :=
  (fst r, f (snd r)).

(** [f] changes only fields that the queue and the filters do not read. *)
Record frame (f : Walker -> Walker) : Prop := {
  fr_store : forall w, store (f w) = store w;
  fr_excluded : forall w, excluded (f w) = excluded w;
  fr_paths : forall w, paths (f w) = paths w;
  fr_rename_detector : forall w, rename_detector (f w) = rename_detector w;
  fr_get_parents : forall w, get_parents (f w) = get_parents w;
  fr_follow : forall w, follow (f w) = follow w;
  fr_since : forall w, since (f w) = since w;
  fr_until : forall w, until (f w) = until w;
  fr_num_entries : forall w, _num_entries (f w) = _num_entries w;
  fr_queue : forall w, _queue (f w) = _queue w;
  fr_out_queue : forall w, _out_queue (f w) = _out_queue w;
  fr_set_paths : forall w p, f (set_paths w p) = set_paths (f w) p;
  fr_set_queue : forall w e q, f (set_queue w e q) = set_queue (f w) e q;
  fr_set_out_queue : forall w oq, f (set_out_queue w oq) = set_out_queue (f w) oq;
  fr_set_num_entries :
    forall w n, f (set_num_entries w n) = set_num_entries (f w) n
}.

(** *** A history cut short: the parent of [C1] is not in the store *)

Definition shallow_store : gmap CommitId Commit :=
  list_to_map [("C8", mk_commit "C8" 80 ["C7"]);
               ("C7", mk_commit "C7" 70 ["C6"]);
               ("C6", mk_commit "C6" 60 ["C5"]);
               ("C5", mk_commit "C5" 50 ["C4"]);
               ("C4", mk_commit "C4" 40 ["C3"]);
               ("C3", mk_commit "C3" 30 ["C2"]);
               ("C2", mk_commit "C2" 20 ["C1"]);
               ("C1", mk_commit "C1" 10 ["C0"])].

Definition shallow_args : WalkerArgs := default_args shallow_store ["C8"].

Definition shallow_walker : Walker :=
  get_ok blank_walker (Walker_init shallow_args).

Definition entry_ids (l : list WalkEntry) : list CommitId :=
  map (fun e => id (commit e)) l.

(** The walker [w] with the cap [max_entries = k]. *)
Definition cap_at (k : Z) (w : Walker) : Walker := set_max_entries w (Some k).
Arguments cap_at : simpl never.

(** *** Counting children, for [_topo_reorder] *)

(** How many times [p] occurs in a parent list. *)
Fixpoint occ (p : CommitId) (ps : list CommitId) : Z :=
  match ps with
  | [] => 0
  | x :: ps' => (if String.eqb x p then 1 else 0) + occ p ps'
  end.

(** How many times [p] is named as a parent by the entries of [l]. *)
Fixpoint parent_count (gp : Commit -> list CommitId) (p : CommitId)
    (l : list WalkEntry) : Z :=
  match l with
  | [] => 0
  | e :: l' => occ p (gp (commit e)) + parent_count gp p l'
  end.

Definition pending_entries (pending : gmap CommitId WalkEntry)
  : list WalkEntry :=
  map snd (map_to_list pending).

(** The counter of every commit covers the entries still held, in [todo]
    or in [pending], that name it as a parent, and the parents [ps] that
    the current entry has yet to release. *)
Definition topo_inv (gp : Commit -> list CommitId) (ps : list CommitId)
    (todo : list WalkEntry) (pending : gmap CommitId WalkEntry)
    (nc : gmap CommitId Z) : Prop :=
  forall p,
    occ p ps + parent_count gp p todo
      + parent_count gp p (pending_entries pending)
    <= num_children_get nc p.

(** No entry is followed, or accompanied, by one of its children. *)
Fixpoint child_first (gp : Commit -> list CommitId) (l : list WalkEntry)
  : Prop :=
  match l with
  | [] => True
  | x :: rest =>
      (forall y, y ∈ x :: rest -> id (commit x) ∉ gp (commit y)) /\
      child_first gp rest
  end.

(** *** Topological order: two histories with skewed clocks *)

Definition with_since (a : WalkerArgs) (t : Z) : WalkerArgs :=
  {| arg_store := arg_store a; arg_include := arg_include a;
     arg_exclude := arg_exclude a; arg_order := arg_order a;
     arg_reverse := arg_reverse a; arg_max_entries := arg_max_entries a;
     arg_paths := arg_paths a; arg_rename_detector := arg_rename_detector a;
     arg_follow := arg_follow a; arg_since := Some t;
     arg_until := arg_until a; arg_get_parents := arg_get_parents a |}.

(** [d] has [a] among its ancestors in the store. *)
Inductive ancestor_of (st : gmap CommitId Commit)
    (gp : Commit -> list CommitId) : Commit -> Commit -> Prop :=
| ancestor_parent (d a : Commit) :
    id a ∈ gp d -> st !! id a = Some a -> ancestor_of st gp d a
| ancestor_step (d m a : Commit) :
    id m ∈ gp d -> st !! id m = Some m -> ancestor_of st gp m a ->
    ancestor_of st gp d a.

Definition commit_P : Commit := mk_commit "P" 100 ["Q"].
Definition commit_Q : Commit := mk_commit "Q" 200 [].

Definition clock_skew_store : gmap CommitId Commit :=
  list_to_map [("P", commit_P); ("Q", commit_Q)].

Definition topo_reversed_args : WalkerArgs :=
  with_order (default_args clock_skew_store ["P"]) ORDER_TOPO true.

Definition topo_reversed_walker : Walker :=
  get_ok blank_walker (Walker_init topo_reversed_args).

Definition commit_G : Commit := mk_commit "G" 200 ["B"].
Definition commit_B : Commit := mk_commit "B" 120 ["A"].
Definition commit_A : Commit := mk_commit "A" 300 [].

Definition pruned_store : gmap CommitId Commit :=
  list_to_map [("G", commit_G); ("B", commit_B); ("A", commit_A)].

Definition pruned_args : WalkerArgs :=
  with_since (with_order (default_args pruned_store ["G"; "A"]) ORDER_TOPO false)
    150.

Definition pruned_walker : Walker :=
  get_ok blank_walker (Walker_init pruned_args).

Definition linear_topo_walker : Walker :=
  get_ok blank_walker (Walker_init (with_order linear_args ORDER_TOPO false)).

(** The measure of the [while todo] loop: an entry is worth 3 while it
    still has a child to wait for, 2 once parked in [pending], and 1 when
    it is in [todo] with no child left. *)
Definition entry_weight (nc : gmap CommitId Z) (e : WalkEntry) : nat :=
  if num_children_get nc (id (commit e)) =? 0 then 1%nat else 3%nat.

Fixpoint todo_weight (nc : gmap CommitId Z) (todo : list WalkEntry) : nat :=
  match todo with
  | [] => O
  | e :: l => (entry_weight nc e + todo_weight nc l)%nat
  end.

Definition topo_measure (todo : list WalkEntry)
    (pending : gmap CommitId WalkEntry) (nc : gmap CommitId Z) : nat :=
  (todo_weight nc todo + 2 * size pending)%nat.

(** [pending] files every entry under the id of its commit. *)
Definition pending_keys_ok (pending : gmap CommitId WalkEntry) : Prop :=
  forall i e, pending !! i = Some e -> id (commit e) = i.

(** * Further predicates and concrete data *)

From Stdlib Require Import Sorted.

Definition rename (o n : string) : TreeChange :=
  {| type := CHANGE_RENAME;
     old := {| path := Some o; mode := Some 33188; sha := Some "blob" |};
     new := {| path := Some n; mode := Some 33188; sha := Some "blob" |} |}.

(** A walker that follows renames under the path set {foo}. *)
Definition follow_walker : Walker :=
  get_ok blank_walker
    (Walker_init
       (with_options (with_paths linear_args [Some "foo"]) None true None)).

(** *** One pass of the loop of [_CommitTimeQueue.next] *)

(** How a pass of the [while self._pq] loop ends: it goes round again
    ([continue], or the end of the body for an excluded commit), or
    [next] returns (an entry, or [None] after [break] or on an empty
    heap). *)
Inductive pass_outcome :=
| PassAgain (excl : gset CommitId) (q : Queue)
| PassReturn (r : option WalkEntry) (excl : gset CommitId) (q : Queue).

(** The body of the loop of [next_loop], cut out of it: [next_loop_pass]
    below shows that [next_loop] is this pass, repeated. *)
Definition next_pass (st : gmap CommitId Commit) (gp : Commit -> list CommitId)
    (excl : gset CommitId) (q : Queue) : result pass_outcome :=
  match _pq q with
  | [] => Ok (PassReturn None excl (set_finished q))
  | (_, c) :: pq' =>
      let sha := id c in
      if bool_decide (sha ∈ _pq_set q) then
        let q1 := set_pq q pq' (_pq_set q ∖ {[sha]}) in
        if bool_decide (sha ∈ _done q1) then Ok (PassAgain excl q1)
        else
          let q2 := set_done q1 ({[sha]} ∪ _done q1) in
          q3 <- push_all st q2 (gp c) ;;
          let is_excluded := bool_decide (sha ∈ excl) in
          r <- (if is_excluded then
                  excl' <- _exclude_parents st gp (_seen q3) excl c ;;
                  Ok (excl', reset_after_exclusion excl' q3)
                else Ok (excl, true)) ;;
          let excl' := fst r in
          let reset_extra_commits :=
            snd r && negb (before (commit_time c) (_min_time q3)) in
          if reset_extra_commits then
            let q4 := set_extra q3 _MAX_EXTRA_COMMITS in
            if is_excluded then Ok (PassAgain excl' q4)
            else Ok (PassReturn (Some {| commit := c |}) excl' (set_last q4 c))
          else
            let q4 := set_extra q3 (_extra_commits_left q3 - 1) in
            if _extra_commits_left q4 =? 0
            then Ok (PassReturn None excl' (set_finished q4))
            else if is_excluded then Ok (PassAgain excl' q4)
            else Ok (PassReturn (Some {| commit := c |}) excl' (set_last q4 c))
      else Raise KeyError
  end.

(** The queue keeps its books: every id in the heap set has been seen,
    every id seen is in the store, no id is both in the heap set and done,
    the heap and the heap set have the same size, and the slack counter
    stays between 0 and 5, above 0 until the queue is finished. *)
Definition queue_inv (st : gmap CommitId Commit) (q : Queue) : Prop :=
  _pq_set q ⊆ _seen q /\
  _seen q ⊆ dom st /\
  _pq_set q ## _done q /\
  length (_pq q) = size (_pq_set q) /\
  0 <= _extra_commits_left q <= _MAX_EXTRA_COMMITS /\
  (_is_finished q = false -> 1 <= _extra_commits_left q).

(** Every id excluded since [excl0] that had been seen has its commit
    waiting in [todo], or all the parents of its commit excluded. *)
Definition exclusion_closed (st : gmap CommitId Commit)
    (gp : Commit -> list CommitId) (seen excl0 : gset CommitId)
    (todo : list Commit) (excl : gset CommitId) : Prop :=
  forall p pc, p ∈ excl -> p ∉ excl0 -> p ∈ seen -> st !! p = Some pc ->
    pc ∈ todo \/ forall pp, pp ∈ gp pc -> pp ∈ excl.

(** *** A fork with an excluded branch *)

Definition fork_store : gmap CommitId Commit :=
  list_to_map [("C5", mk_commit "C5" 50 ["C3"]);
               ("C4", mk_commit "C4" 40 ["C3"]);
               ("C3", mk_commit "C3" 30 ["C2"]);
               ("C2", mk_commit "C2" 20 ["C1"]);
               ("C1", mk_commit "C1" 10 [])].

Definition with_exclude (a : WalkerArgs) (l : list CommitId) : WalkerArgs :=
  {| arg_store := arg_store a; arg_include := arg_include a;
     arg_exclude := Some l; arg_order := arg_order a;
     arg_reverse := arg_reverse a; arg_max_entries := arg_max_entries a;
     arg_paths := arg_paths a; arg_rename_detector := arg_rename_detector a;
     arg_follow := arg_follow a; arg_since := arg_since a;
     arg_until := arg_until a; arg_get_parents := arg_get_parents a |}.

Definition fork_args : WalkerArgs :=
  with_exclude (default_args fork_store ["C5"]) ["C4"].

Definition fork_walker : Walker := get_ok blank_walker (Walker_init fork_args).

(** The state of a walker after one call of [next], and the entry. *)
Definition after_next (w : Walker) : option WalkEntry * Walker :=
  get_ok (None, w) (next w).

(** *** One pass of the loop of [Walker._next] *)

Inductive next_outcome :=
| NextAgain (w : Walker)
| NextReturn (r : option WalkEntry) (w : Walker).

(** The body of the loop of [_next_loop], cut out of it: [_next_loop_pass]
    below shows that [_next_loop] is this pass, repeated. *)
Definition _next_pass
    (tc : gmap CommitId Commit -> option TreeId -> TreeId ->
          option RenameDetector -> list TreeChange)
    (tcm : gmap CommitId Commit -> list TreeId -> TreeId ->
           option RenameDetector -> list (list (option TreeChange)))
    (w : Walker) : result next_outcome :=
  if below_max w then
    r <- next w ;;
    let entry := fst r in
    let w1 :=
      match entry with
      | Some e => set_out_queue (snd r) (_out_queue (snd r) ++ [e])
      | None => snd r
      end in
    if match entry with None => true | Some _ => false end
       || (_MAX_EXTRA_COMMITS <? Z.of_nat (length (_out_queue w1))) then
      match _out_queue w1 with
      | [] => Ok (NextReturn None w1)
      | e :: oq =>
          sr <- _should_return tc tcm (set_out_queue w1 oq) e ;;
          if fst sr
          then Ok (NextReturn (Some e)
                     (set_num_entries (snd sr) (_num_entries (snd sr) + 1)))
          else Ok (NextAgain (snd sr))
      end
    else Ok (NextAgain w1)
  else Ok (NextReturn None w).

(** The entries waiting in [_out_queue] are of different commits, all
    done. *)
Definition buffer_inv (w : Walker) : Prop :=
  NoDup (entry_ids (_out_queue w)) /\
  forall e, e ∈ _out_queue w -> id (commit e) ∈ _done (_queue w).

(** The entry [e] is within the time bounds of [w] and not excluded. *)
Definition admissible (w : Walker) (e : WalkEntry) : Prop :=
  before (commit_time (commit e)) (since w) = false /\
  after (commit_time (commit e)) (until w) = false /\
  id (commit e) ∉ excluded w.

(** The options of [w'] are those of [w]. *)
Definition same_options (w w' : Walker) : Prop :=
  store w' = store w /\ get_parents w' = get_parents w /\
  since w' = since w /\ until w' = until w /\ follow w' = follow w /\
  max_entries w' = max_entries w /\ order w' = order w /\
  reverse w' = reverse w /\ rename_detector w' = rename_detector w.

Definition outcome_walker (o : next_outcome) : Walker :=
  match o with
  | NextAgain w => w
  | NextReturn _ w => w
  end.

Definition outcome_entry (o : next_outcome) : option WalkEntry :=
  match o with
  | NextAgain _ => None
  | NextReturn r _ => r
  end.

(** The result of one call of [_next] without tree changes. *)
Definition after_walk_next (w : Walker) : option WalkEntry * Walker :=
  get_ok (None, w) (_next no_tree_changes no_merge_changes w).

(** A construction from an id that the store does not hold. *)
Definition missing_seed_args : WalkerArgs := default_args shallow_store ["C0"].

(** *** The plain walk *)

(** The ids reachable from [incl] along [gp] through the commits of the
    store. *)
Inductive reachable (st : gmap CommitId Commit) (gp : Commit -> list CommitId)
    (incl : list CommitId) : CommitId -> Prop :=
| reach_include k : k ∈ incl -> reachable st gp incl k
| reach_parent k c p :
    reachable st gp incl k -> st !! k = Some c -> p ∈ gp c ->
    reachable st gp incl p.

(** The store gives, for an id, a commit of that id. *)
Definition wf_store (st : gmap CommitId Commit) : Prop :=
  map_Forall (fun k c => id c = k) st.

(** The store holds every parent of every commit it holds. *)
Definition parents_closed (st : gmap CommitId Commit)
    (gp : Commit -> list CommitId) : Prop :=
  map_Forall (fun _ c => Forall (fun p => is_Some (st !! p)) (gp c)) st.

Definition include_ids (a : WalkerArgs) : list CommitId :=
  match arg_include a with
  | IncludeOne c => [c]
  | IncludeList l => l
  end.

Definition heap_ids (pq : list (Z * Commit)) : list CommitId :=
  map (fun x => id (snd x)) pq.

(** The queue of a walk without bounds: the heap holds commits of the
    store, once each, under the ids of the heap set, and only reachable
    ids have entered the heap set and the done set. *)
Definition plain_queue (st : gmap CommitId Commit)
    (gp : Commit -> list CommitId) (incl : list CommitId) (q : Queue) : Prop :=
  _min_time q = None /\
  NoDup (heap_ids (_pq q)) /\
  (forall t c, (t, c) ∈ _pq q -> st !! id c = Some c) /\
  (forall k, k ∈ _pq_set q <-> k ∈ heap_ids (_pq q)) /\
  _pq_set q ## _done q /\
  (forall k, k ∈ _pq_set q \/ k ∈ _done q -> reachable st gp incl k).

(** The parents of every done commit are in the heap set or done. *)
Definition closed_done (st : gmap CommitId Commit)
    (gp : Commit -> list CommitId) (q : Queue) : Prop :=
  forall k c p, k ∈ _done q -> st !! k = Some c -> p ∈ gp c ->
    p ∈ _pq_set q \/ p ∈ _done q.

(** A walker without exclusions, time bounds, paths and cap, on its way
    over the store [st] with the parents function [gp]. *)
Definition plain_walker (st : gmap CommitId Commit)
    (gp : Commit -> list CommitId) (incl : list CommitId) (w : Walker) : Prop :=
  store w = st /\ get_parents w = gp /\
  excluded w = ∅ /\ since w = None /\ until w = None /\ paths w = None /\
  max_entries w = None /\
  plain_queue st gp incl (_queue w) /\
  closed_done st gp (_queue w) /\
  (forall k, k ∈ incl -> k ∈ _pq_set (_queue w) \/ k ∈ _done (_queue w)) /\
  (_is_finished (_queue w) = true -> _pq (_queue w) = []) /\
  (forall e, e ∈ _out_queue w -> st !! id (commit e) = Some (commit e)).

Definition opt_ids (r : option WalkEntry) : gset CommitId :=
  match r with
  | Some e => {[id (commit e)]}
  | None => ∅
  end.

(** The done commits are those yielded so far ([Y]) and those waiting in
    [_out_queue]. *)
Definition yielded_inv (w : Walker) (Y : gset CommitId) : Prop :=
  _done (_queue w) = Y ∪ list_to_set (entry_ids (_out_queue w)).

(** Two branches walked together. *)
Definition two_heads_args : WalkerArgs := default_args fork_store ["C5"; "C4"].

(** The empty queue after [_push] of the head of the linear history. *)
Definition pushed_queue : Queue :=
  get_ok (new_queue None) (_push linear_store (new_queue None) "C3").

(** *** Date order *)

(** No commit of the store is older than a parent of its that the store
    holds. *)
Definition parents_older (st : gmap CommitId Commit)
    (gp : Commit -> list CommitId) : Prop :=
  map_Forall
    (fun _ c =>
       forallb (fun p => match st !! p with
                         | Some pc => commit_time pc <=? commit_time c
                         | None => true
                         end) (gp c) = true) st.

Definition newer_first (e1 e2 : WalkEntry) : Prop :=
  commit_time (commit e2) <= commit_time (commit e1).

Definition heap_key_le (a b : Z * Commit) : Prop := fst a <= fst b.

(** The heap is in the order of its keys, and every entry is a commit of
    the store under the key [-commit_time]. *)
Definition date_heap (st : gmap CommitId Commit) (pq : list (Z * Commit))
  : Prop :=
  StronglySorted heap_key_le pq /\
  forall t c, (t, c) ∈ pq -> t = - commit_time c /\ exists k, st !! k = Some c.

Definition heap_below (B : Z) (pq : list (Z * Commit)) : Prop :=
  forall t c, (t, c) ∈ pq -> commit_time c <= B.

Definition all_below (B : Z) (w : Walker) : Prop :=
  (forall e, e ∈ _out_queue w -> commit_time (commit e) <= B) /\
  heap_below B (_pq (_queue w)).

(** The buffer holds entries newest first, none older than a commit in
    the heap. *)
Definition date_walker (st : gmap CommitId Commit)
    (gp : Commit -> list CommitId) (w : Walker) : Prop :=
  store w = st /\ get_parents w = gp /\
  date_heap st (_pq (_queue w)) /\
  StronglySorted newer_first (_out_queue w) /\
  forall e, e ∈ _out_queue w ->
    heap_below (commit_time (commit e)) (_pq (_queue w)).

Definition pass_queue (o : pass_outcome) : Queue :=
  match o with
  | PassAgain _ q => q
  | PassReturn _ _ q => q
  end.

Definition pass_entry (o : pass_outcome) : option WalkEntry :=
  match o with
  | PassAgain _ _ => None
  | PassReturn r _ _ => r
  end.

Definition two_heads_walker : Walker :=
  get_ok blank_walker (Walker_init two_heads_args).

(** * Properties *)

(** ** Byte strings *)

Lemma prefix_cons (a b : ascii) (s p : string) :
  String.prefix (String a s) (String b p) =
  if ascii_dec a b then String.prefix s p else false.
Proof. reflexivity. Qed.

Lemma app_cons (a : ascii) (s t : string) :
  String a s +:+ t = String a (s +:+ t).
Proof. reflexivity. Qed.

Lemma prefix_app (s p : string) :
  String.prefix s p = true <-> exists rest, p = s +:+ rest.
Proof.
  revert p. induction s as [|a s IH]; intros p.
  - split; [intros _; exists p; reflexivity | destruct p; reflexivity].
  - destruct p as [|b p].
    + split; [discriminate | intros [rest H]; discriminate].
    + rewrite prefix_cons. destruct (ascii_dec a b) as [->|Hne].
      * rewrite IH. split; intros [rest H]; exists rest.
        -- rewrite app_cons. congruence.
        -- rewrite app_cons in H. congruence.
      * split; [discriminate | intros [rest H]].
        rewrite app_cons in H. congruence.
Qed.

Lemma get_after_prefix (s rest : string) :
  String.get (String.length s) (s +:+ rest) = String.get 0 rest.
Proof. induction s as [|a s IH]; [reflexivity | exact IH]. Qed.

Lemma app_empty_r (s : string) : s +:+ "" = s.
Proof.
  induction s as [|a s IH]; [reflexivity | rewrite app_cons; now rewrite IH].
Qed.

Lemma string_length_app (s t : string) :
  String.length (s +:+ t) = (String.length s + String.length t)%nat.
Proof.
  induction s as [|a s IH]; [reflexivity|].
  rewrite app_cons. simpl. now rewrite IH.
Qed.
(** A proper prefix is strictly shorter: the subscript of [_path_matches]
    is in range. *)
Lemma proper_prefix_shorter (s p : string) :
  String.prefix s p = true -> p <> s ->
  (String.length s < String.length p)%nat.
Proof.
  intros [rest ->]%prefix_app Hne. rewrite string_length_app.
  destruct rest as [|c rest]; simpl; [|lia].
  exfalso. apply Hne, app_empty_r.
Qed.

Lemma get_in_range (n : nat) (p : string) :
  (n < String.length p)%nat -> exists c, String.get n p = Some c.
Proof.
  revert n. induction p as [|a p IH]; intros n; simpl; [lia|].
  destruct n as [|n]; [eauto | intros H; apply IH; lia].
Qed.

Lemma slash_after_prefix (s p : string) :
  (String.prefix s p = true /\
   String.get (String.length s) p = Some "/"%char) <->
  exists rest, p = s +:+ String "/" rest.
Proof.
  split.
  - intros [[rest ->]%prefix_app Hget]. rewrite get_after_prefix in Hget.
    destruct rest as [|c rest]; simpl in Hget; [discriminate|].
    exists rest. congruence.
  - intros [rest ->]. split.
    + apply prefix_app. eauto.
    + now rewrite get_after_prefix.
Qed.

(** ** Deciding membership by evaluation *)

Lemma not_elem_of_by_eval `{Countable A} (x : A) (X : gset A) :
  bool_decide (x ∈ X) = false -> x ∉ X.
Proof. apply bool_decide_eq_false_1. Qed.

Lemma elem_of_by_eval `{Countable A} (x : A) (X : gset A) :
  bool_decide (x ∈ X) = true -> x ∈ X.
Proof. apply bool_decide_eq_true_1. Qed.

(** ** The error monad *)

Ltac case_match_hyp H :=
  match type of H with
  | context [match ?x with _ => _ end] => destruct x eqn:?
  | context [if ?x then _ else _] => destruct x eqn:?
  end.

Lemma bind_Ok {A B} (m : result A) (k : A -> result B) (b : B) :
  bind m k = Ok b -> exists a, m = Ok a /\ k a = Ok b.
Proof. destruct m; simpl; [eauto | discriminate | discriminate]. Qed.

(** ** PathFilter *)

Lemma path_matches_loop_no_IndexError (p : string) (l : list Path) :
  path_matches_loop p l <> Raise IndexError.
Proof.
  induction l as [|[s|] l IH]; simpl; try discriminate.
  destruct (String.eqb_spec p s) as [->|Hne]; [discriminate|].
  destruct (String.prefix s p) eqn:Hpre; [|exact IH].
  destruct (get_in_range (String.length s) p) as [c ->].
  { now apply proper_prefix_shorter. }
  destruct (Ascii.eqb c "/"); [discriminate | exact IH].
Qed.

Lemma path_matches_loop_spec (p : string) (l : list Path) :
  None ∉ l ->
  exists b, path_matches_loop p l = Ok b /\
    (b = true <-> exists s, Some s ∈ l /\ path_match p s).
Proof.
  induction l as [|[s|] l IH]; intros Hnone; simpl.
  - exists false. split; [reflexivity|].
    split; [discriminate | intros (s & Hs & _); inversion Hs].
  - assert (Hl : None ∉ l) by (intros H; apply Hnone; now right).
    destruct (IH Hl) as (b & Hb & Hiff).
    assert (Hrest : forall b', path_matches_loop p l = Ok b' ->
      ~ path_match p s ->
      b' = true <-> exists s0, Some s0 ∈ Some s :: l /\ path_match p s0).
    { intros b' Hb' Hno. rewrite Hb in Hb'. injection Hb' as <-.
      rewrite Hiff. split; intros (s0 & Hin & Hm).
      - exists s0. split; [now right | exact Hm].
      - apply elem_of_cons in Hin as [Heq|Hin]; [|eauto].
        injection Heq as ->. contradiction. }
    destruct (String.eqb_spec p s) as [->|Hne].
    { exists true. split; [reflexivity|]. split; [|reflexivity].
      intros _. exists s. split; [now left | now left]. }
    destruct (String.prefix s p) eqn:Hpre.
    + destruct (get_in_range (String.length s) p) as [c Hc].
      { now apply proper_prefix_shorter. }
      rewrite Hc. destruct (Ascii.eqb_spec c "/") as [->|Hc'].
      * exists true. split; [reflexivity|]. split; [|reflexivity].
        intros _. exists s. split; [now left|]. right.
        apply slash_after_prefix. eauto.
      * exists b. split; [exact Hb|]. apply Hrest; [exact Hb|].
        intros [?|[_ Hget]%slash_after_prefix]; congruence.
    + exists b. split; [exact Hb|]. apply Hrest; [exact Hb|].
      intros [?|[Hp _]%slash_after_prefix]; congruence.
  - exfalso. apply Hnone. now left.
Qed.


(** C9.  [_path_matches] never reads out of bounds: a changed path that
    starts with a followed path and differs from it is strictly longer, so
    the byte at position [len(followed_path)] exists, and no call raises
    [IndexError]. *)
Theorem path_matches_in_bounds :
  (forall (w : Walker) (changed_path : Path),
     _path_matches w changed_path <> Raise IndexError) /\
  (forall followed_path changed_path : string,
     String.prefix followed_path changed_path = true ->
     changed_path <> followed_path ->
     exists c,
       String.get (String.length followed_path) changed_path = Some c).
Proof.
  split.
  - intros w [p|]; simpl; [|discriminate].
    destruct (paths w); [apply path_matches_loop_no_IndexError | discriminate].
  - intros s p Hpre Hne. apply get_in_range. now apply proper_prefix_shorter.
Qed.

(** C10.  An absent change ([None]) does not match and leaves the walker,
    its path set included, as it was, whatever [follow] is. *)
Theorem change_matches_absent (w : Walker) :
  exists w', _change_matches w None = Ok (false, w') /\
    paths w' = paths w /\ w' = w.
Proof. exists w. repeat split. Qed.


Lemma path_matches_in_bounds_witness :
  exists c, String.get (String.length "foo") "foo/a.txt" = Some c.
Proof.
  apply (proj2 path_matches_in_bounds "foo" "foo/a.txt").
  - reflexivity.
  - discriminate.
Defined.

(** ** Entry match for merge commits *)

Lemma change_matches_false_same (w w' : Walker) (c : option TreeChange) :
  _change_matches w c = Ok (false, w') -> w' = w.
Proof.
  destruct c as [c|]; simpl; [|congruence].
  destruct (_path_matches w (path (new c))) as [[|]| |]; simpl;
    try discriminate.
  - destruct (follow w && is_rename (type c)); [|discriminate].
    destruct (follow_rename w _ _); discriminate.
  - destruct (_path_matches w (path (old c))); simpl; congruence.
Qed.

Lemma any_change_matches_app (w : Walker) (l1 l2 : list (option TreeChange)) :
  any_change_matches w (l1 ++ l2) =
  (r <- any_change_matches w l1 ;;
   if fst r then Ok (true, snd r) else any_change_matches (snd r) l2).
Proof.
  revert w. induction l1 as [|c l1 IH]; intros w; simpl; [reflexivity|].
  destruct (_change_matches w c) as [[[|] w1]| |]; simpl; try reflexivity.
  apply IH.
Qed.

Lemma any_merge_concat (w : Walker) (ll : list (list (option TreeChange))) :
  any_merge_change_matches w ll = any_change_matches w (concat ll).
Proof.
  revert w. induction ll as [|l ll IH]; intros w; simpl; [reflexivity|].
  rewrite any_change_matches_app.
  destruct (any_change_matches w l) as [[[|] w1]| |]; simpl; try reflexivity.
  apply IH.
Qed.

Lemma any_change_matches_true (w w' : Walker) (l : list (option TreeChange)) :
  any_change_matches w l = Ok (true, w') <->
  exists pre c post, l = pre ++ c :: post /\
    (forall x, x ∈ pre -> _change_matches w x = Ok (false, w)) /\
    _change_matches w c = Ok (true, w').
Proof.
  revert w. induction l as [|c l IH]; intros w; simpl.
  - split; [discriminate|]. intros (pre & c & post & H & _).
    destruct pre; discriminate.
  - split.
    + destruct (_change_matches w c) as [[[|] w1]| |] eqn:Hc; simpl;
        try discriminate.
      * intros [= <-]. exists [], c, l. repeat split; [|exact Hc].
        intros x Hx. inversion Hx.
      * pose proof (change_matches_false_same _ _ _ Hc) as ->.
        intros (pre & c' & post & -> & Hpre & Hc')%IH.
        exists (c :: pre), c', post. repeat split; [|exact Hc'].
        intros x [->|Hx]%elem_of_cons; [exact Hc | now apply Hpre].
    + intros (pre & c' & post & Heq & Hpre & Hc').
      destruct pre as [|x pre]; simpl in Heq; injection Heq as -> ->.
      * now rewrite Hc'.
      * rewrite (Hpre x) by now left. simpl. apply IH.
        exists pre, c', post. repeat split; [|exact Hc'].
        intros y Hy. apply Hpre. now right.
Qed.

Section EntryMatch.

Variable tree_changes :
  gmap CommitId Commit -> option TreeId -> TreeId -> option RenameDetector ->
  list TreeChange.
Variable tree_changes_for_merge :
  gmap CommitId Commit -> list TreeId -> TreeId -> option RenameDetector ->
  list (list (option TreeChange)).


End EntryMatch.



(** ** _CommitTimeQueue *)




Lemma next_loop_none (fuel : nat) st gp excl q excl' q' :
  next_loop fuel st gp excl q = Ok (None, (excl', q')) ->
  _is_finished q' = true.
Proof.
  revert excl q. induction fuel as [|fuel IH]; intros excl q H.
  - simpl in H. destruct (_pq q) as [|[t c] pq']; [|discriminate].
    now injection H as <- <-.
  - simpl in H. destruct (_pq q) as [|[t c] pq'].
    { now injection H as <- <-. }
    destruct (bool_decide (id c ∈ _pq_set q)); [|discriminate].
    cbn [_done set_pq] in H.
    destruct (bool_decide (id c ∈ _done q)); [now apply IH in H|].
    apply bind_Ok in H as (q3 & Hq3 & H).
    apply bind_Ok in H as ([ex r] & Hr & H). cbn [fst snd] in H.
    repeat (case_match_hyp H; try discriminate);
      try (now apply IH in H); now injection H as <- <-.
Qed.

Lemma next_none (w w' : Walker) :
  next w = Ok (None, w') -> _is_finished (_queue w') = true.
Proof.
  unfold next. destruct (_is_finished (_queue w)) eqn:Hfin.
  - now intros [= <-].
  - intros ([e [ex q']] & Hloop & [= -> <-])%bind_Ok. simpl.
    now apply next_loop_none in Hloop.
Qed.

Lemma next_finished (w : Walker) :
  _is_finished (_queue w) = true -> next w = Ok (None, w).
Proof. unfold next. now intros ->. Qed.

Section Exhaustion.

Variable tc :
  gmap CommitId Commit -> option TreeId -> TreeId -> option RenameDetector ->
  list TreeChange.
Variable tcm :
  gmap CommitId Commit -> list TreeId -> TreeId -> option RenameDetector ->
  list (list (option TreeChange)).


(** [_next] returns [None] either at the cap, or with the queue finished
    and the output buffer empty. *)
Lemma _next_loop_none (fuel : nat) (w w' : Walker) :
  _next_loop tc tcm fuel w = Ok (None, w') ->
  below_max w' = false \/
  (_is_finished (_queue w') = true /\ _out_queue w' = []).
Proof.
  revert w. induction fuel as [|fuel IH]; intros w H; simpl in H.
  - destruct (below_max w) eqn:Hb; [discriminate|].
    injection H as <-. now left.
  - destruct (below_max w) eqn:Hb; [|injection H as <-; now left].
    apply bind_Ok in H as ([entry w1] & Hnext & H). cbn [fst snd] in H.
    destruct entry as [e|]; cbn [orb] in H.
    + destruct (_MAX_EXTRA_COMMITS <? _) eqn:Hlen; [|now apply IH in H].
      cbn [_out_queue set_out_queue] in H.
      destruct (_out_queue w1 ++ [e]) as [|e' oq] eqn:Hoq.
      { now destruct (_out_queue w1). }
      apply bind_Ok in H as ([b w2] & Hsr & H). cbn [fst snd] in H.
      destruct b; [discriminate | now apply IH in H].
    + destruct (_out_queue w1) as [|e' oq] eqn:Hoq.
      * injection H as <-. right. split; [|exact Hoq].
        now apply next_none in Hnext.
      * apply bind_Ok in H as ([b w2] & Hsr & H). cbn [fst snd] in H.
        destruct b; [discriminate | now apply IH in H].
Qed.

Lemma _next_none_again (w w' : Walker) :
  _next tc tcm w = Ok (None, w') -> _next tc tcm w' = Ok (None, w').
Proof.
  unfold _next at 1. intros H. apply _next_loop_none in H.
  unfold _next. simpl.
  destruct H as [->|[Hfin Hoq]]; [reflexivity|].
  destruct (below_max w'); [|reflexivity].
  rewrite (next_finished _ Hfin). simpl. now rewrite Hoq.
Qed.


End Exhaustion.


(** ** Walker.__init__ *)

Lemma push_all_Ok (st : gmap CommitId Commit) (ids : list CommitId) (q : Queue) :
  (forall c, c ∈ ids -> is_Some (st !! c)) ->
  exists q', push_all st q ids = Ok q'.
Proof.
  revert q. induction ids as [|c ids IH]; intros q Hin; simpl; [eauto|].
  destruct (Hin c) as [x Hx]; [now left|].
  unfold _push. rewrite Hx.
  destruct (_ && _); simpl; apply IH; intros c' Hc'; apply Hin; now right.
Qed.

Lemma existsb_eqb_elem_of (x : string) (l : list string) :
  existsb (String.eqb x) l = true <-> x ∈ l.
Proof.
  induction l as [|y l IH]; simpl.
  - split; [discriminate | intros H; inversion H].
  - rewrite orb_true_iff, IH, elem_of_cons.
    destruct (String.eqb_spec x y); intuition congruence.
Qed.

(** C3, as the code has it.  Construction raises eagerly for an unknown
    order token, and for nothing else among the options: with a known
    order and every include and exclude id in the store it succeeds,
    whatever [max_entries] (negative included), [follow] and
    [rename_detector] are; the cap is stored as given, and [follow]
    without a detector gets a default one. *)
Theorem walker_init_errors (a : WalkerArgs) :
  (arg_order a ∉ ALL_ORDERS ->
   Walker_init a = Raise (ValueError ("Unknown walk order " +:+ arg_order a))) /\
  (arg_order a ∈ ALL_ORDERS ->
   (forall c, c ∈ seed_ids a -> is_Some (arg_store a !! c)) ->
   exists w, Walker_init a = Ok w /\
     max_entries w = arg_max_entries a /\
     follow w = arg_follow a /\
     rename_detector w =
       match arg_follow a, arg_rename_detector a with
       | true, None => Some (RenameDetector_new (arg_store a))
       | _, d => d
       end).
Proof.
  unfold Walker_init. split.
  - intros Hno. destruct (existsb _ _) eqn:He; [|reflexivity].
    now apply existsb_eqb_elem_of in He.
  - intros Hin Hseeds. apply existsb_eqb_elem_of in Hin. rewrite Hin. simpl.
    unfold _CommitTimeQueue_init.
    destruct (push_all_Ok (arg_store a)
      (match arg_include a with IncludeOne c => [c] | IncludeList l => l end ++
       elements (match arg_exclude a with
                 | Some l => list_to_set l | None => ∅ end : gset CommitId))
      (new_queue (arg_since a))) as [q' Hq'].
    { intros c Hc. apply Hseeds. unfold seed_ids.
      apply elem_of_app in Hc as [Hc|Hc]; apply elem_of_app; [now left|right].
      apply elem_of_elements in Hc. destruct (arg_exclude a).
      - now apply elem_of_list_to_set in Hc.
      - now apply elem_of_empty in Hc. }
    rewrite Hq'. simpl. eauto.
Qed.

Lemma walker_init_errors_witness :
  (arg_order (with_order linear_args "bogus" false) ∉ ALL_ORDERS) /\
  Walker_init (with_order linear_args "bogus" false)
    = Raise (ValueError "Unknown walk order bogus") /\
  exists w, Walker_init (with_options linear_args (Some (-1)) true None) = Ok w /\
    max_entries w = Some (-1) /\ follow w = true /\
    rename_detector w = Some (RenameDetector_new linear_store).
Proof.
  assert (Hbogus : "bogus" ∉ ALL_ORDERS).
  { intros H. apply existsb_eqb_elem_of in H. discriminate. }
  split; [exact Hbogus|]. split.
  - apply (proj1 (walker_init_errors (with_order linear_args "bogus" false))).
    exact Hbogus.
  - apply (proj2 (walker_init_errors
                    (with_options linear_args (Some (-1)) true None))).
    + apply existsb_eqb_elem_of. reflexivity.
    + intros c Hc. apply elem_of_cons in Hc as [->|Hc]; [|inversion Hc].
      vm_compute. eauto.
Defined.

(** C3, as stated, fails: a negative [max_entries] and every pairing of
    [follow] with a rename detector construct a walker without error (and
    the walk under the negative cap then ends at once, again without
    error). *)
Lemma walker_init_counterexample :
  arg_max_entries negative_cap_args = Some (-1) /\
  Walker_init negative_cap_args = Ok negative_cap_walker /\
  Walker_iter no_tree_changes no_merge_changes negative_cap_walker
    = ([], Ok negative_cap_walker) /\
  is_Ok (Walker_init (with_options linear_args None true None)) = true /\
  is_Ok (Walker_init (with_options linear_args None true
                        (Some (RenameDetector_given 0)))) = true /\
  is_Ok (Walker_init (with_options linear_args None false
                        (Some (RenameDetector_given 0)))) = true.
Proof. repeat split; vm_compute; reflexivity. Qed.

(** ** Options that the traversal does not read *)

Lemma frame_set_reverse (b : bool) : frame (fun w => set_reverse w b).
Proof. split; reflexivity. Qed.

Lemma frame_set_max_entries (m : option Z) :
  frame (fun w => set_max_entries w m).
Proof. split; reflexivity. Qed.

Section Frame.

Variable tc :
  gmap CommitId Commit -> option TreeId -> TreeId -> option RenameDetector ->
  list TreeChange.
Variable tcm :
  gmap CommitId Commit -> list TreeId -> TreeId -> option RenameDetector ->
  list (list (option TreeChange)).
Variable f : Walker -> Walker.
Hypothesis Hf : frame f.

Lemma frame_path_matches (w : Walker) (p : Path) :
  _path_matches (f w) p = _path_matches w p.
Proof. unfold _path_matches. now rewrite (fr_paths f Hf). Qed.

Lemma frame_follow_rename (w : Walker) (o n : Path) :
  follow_rename (f w) o n = map_result f (follow_rename w o n).
Proof.
  unfold follow_rename. rewrite (fr_paths f Hf).
  destruct (paths w); [|reflexivity].
  destruct (bool_decide _); [|reflexivity].
  simpl. now rewrite (fr_set_paths f Hf).
Qed.

Lemma frame_change_matches (w : Walker) (c : option TreeChange) :
  _change_matches (f w) c = map_result (on_walker f) (_change_matches w c).
Proof.
  destruct c as [c|]; [|reflexivity]. unfold _change_matches.
  rewrite !frame_path_matches, (fr_follow f Hf), frame_follow_rename.
  destruct (_path_matches w (path (new c))) as [[|]| |]; simpl;
    try reflexivity.
  - destruct (follow w && is_rename (type c)); [|reflexivity].
    now destruct (follow_rename w _ _).
  - now destruct (_path_matches w (path (old c))).
Qed.

Lemma frame_any_change_matches (w : Walker) (l : list (option TreeChange)) :
  any_change_matches (f w) l = map_result (on_walker f) (any_change_matches w l).
Proof.
  revert w. induction l as [|c l IH]; intros w; simpl; [reflexivity|].
  rewrite frame_change_matches.
  destruct (_change_matches w c) as [[[|] w1]| |]; simpl; try reflexivity.
  apply IH.
Qed.

Lemma frame_any_merge_change_matches (w : Walker)
    (ll : list (list (option TreeChange))) :
  any_merge_change_matches (f w) ll =
  map_result (on_walker f) (any_merge_change_matches w ll).
Proof.
  revert w. induction ll as [|l ll IH]; intros w; simpl; [reflexivity|].
  rewrite frame_any_change_matches.
  destruct (any_change_matches w l) as [[[|] w1]| |]; simpl; try reflexivity.
  apply IH.
Qed.

Lemma frame_changes (w : Walker) (e : WalkEntry) :
  changes tc tcm (f w) e = changes tc tcm w e.
Proof.
  unfold changes.
  now rewrite (fr_get_parents f Hf), (fr_store f Hf), (fr_rename_detector f Hf).
Qed.

Lemma frame_should_return (w : Walker) (e : WalkEntry) :
  _should_return tc tcm (f w) e =
  map_result (on_walker f) (_should_return tc tcm w e).
Proof.
  unfold _should_return.
  rewrite (fr_since f Hf), (fr_until f Hf), (fr_excluded f Hf),
    (fr_paths f Hf), (fr_get_parents f Hf), frame_changes.
  destruct (before _ _); [reflexivity|].
  destruct (after _ _); [reflexivity|].
  destruct (bool_decide _); [reflexivity|].
  destruct (paths w); [|reflexivity].
  destruct (1 <? _)%nat; destruct (changes tc tcm w e) as [[l|ll]| |];
    simpl; try reflexivity.
  - apply frame_any_merge_change_matches.
  - apply frame_any_change_matches.
Qed.

Lemma frame_next (w : Walker) :
  next (f w) = map_result (on_walker f) (next w).
Proof.
  unfold next.
  rewrite (fr_queue f Hf), (fr_store f Hf), (fr_get_parents f Hf),
    (fr_excluded f Hf).
  destruct (_is_finished (_queue w)); [reflexivity|].
  destruct (next_loop _ _ _ _ _) as [[e [ex q]]| |]; simpl; try reflexivity.
  unfold on_walker. simpl. now rewrite (fr_set_queue f Hf).
Qed.

Lemma frame_walker_measure (w : Walker) :
  walker_measure (f w) = walker_measure w.
Proof.
  unfold walker_measure, next_measure.
  now rewrite (fr_queue f Hf), (fr_store f Hf), (fr_out_queue f Hf).
Qed.

(** One pass of the body of the loop of [_next], after the loop test. *)
Lemma frame_next_loop (fuel : nat) (w : Walker) :
  (forall w, max_entries (f w) = max_entries w) ->
  _next_loop tc tcm fuel (f w) =
  map_result (on_walker f) (_next_loop tc tcm fuel w).
Proof.
  intros Hmax. revert w. induction fuel as [|fuel IH]; intros w; simpl;
    unfold below_max; rewrite Hmax, (fr_num_entries f Hf);
    fold (below_max w); destruct (below_max w); try reflexivity.
  rewrite frame_next. destruct (next w) as [[entry w1]| |]; simpl;
    try reflexivity.
  destruct entry as [e|]; simpl.
  - rewrite !(fr_out_queue f Hf), <- !(fr_set_out_queue f Hf).
    destruct (_MAX_EXTRA_COMMITS <? _); [|apply IH].
    destruct (_out_queue w1 ++ [e]) as [|e' oq]; [reflexivity|].
    rewrite <- ?(fr_set_out_queue f Hf), frame_should_return.
    destruct (_should_return tc tcm _ e') as [[[|] w2]| |]; simpl;
      try reflexivity; [|apply IH].
    unfold on_walker. simpl.
    now rewrite (fr_num_entries f Hf), (fr_set_num_entries f Hf).
  - rewrite !(fr_out_queue f Hf).
    destruct (_out_queue w1) as [|e' oq]; [reflexivity|].
    rewrite <- !(fr_set_out_queue f Hf), frame_should_return.
    destruct (_should_return tc tcm _ e') as [[[|] w2]| |]; simpl;
      try reflexivity; [|apply IH].
    unfold on_walker. simpl.
    now rewrite (fr_num_entries f Hf), (fr_set_num_entries f Hf).
Qed.

Lemma frame_iter_next (fuel : nat) (w : Walker) :
  (forall w, max_entries (f w) = max_entries w) ->
  iter_next tc tcm fuel (f w) =
  (fst (iter_next tc tcm fuel w), map_result f (snd (iter_next tc tcm fuel w))).
Proof.
  intros Hmax. revert w. induction fuel as [|fuel IH]; intros w; simpl;
    [reflexivity|].
  unfold _next. rewrite frame_walker_measure, frame_next_loop by exact Hmax.
  destruct (_next_loop tc tcm _ w) as [[[e|] w1]| |]; simpl; try reflexivity.
  now rewrite IH.
Qed.

Lemma frame_results (w : Walker) :
  (forall w, max_entries (f w) = max_entries w) ->
  results tc tcm (f w) =
  (fst (results tc tcm w), map_result f (snd (results tc tcm w))).
Proof.
  intros Hmax. unfold results. rewrite frame_walker_measure.
  now apply frame_iter_next.
Qed.

End Frame.

(** ** Walker._reorder: reversal *)

Section Reverse.

Variable tc :
  gmap CommitId Commit -> option TreeId -> TreeId -> option RenameDetector ->
  list TreeChange.
Variable tcm :
  gmap CommitId Commit -> list TreeId -> TreeId -> option RenameDetector ->
  list (list (option TreeChange)).

Lemma results_set_reverse (w : Walker) (b : bool) :
  results tc tcm (set_reverse w b) =
  (fst (results tc tcm w),
   map_result (fun w => set_reverse w b) (snd (results tc tcm w))).
Proof.
  apply (frame_results tc tcm _ (frame_set_reverse b)). reflexivity.
Qed.

(** C6, as the code has it.  When the walk with [reverse = false] runs to
    exhaustion, the walk with [reverse = true] and all other options
    identical yields the same entries in the opposite order.  When it
    raises instead, the reversed walk raises the same error and has
    yielded nothing: reversal collects the whole stream first. *)
Theorem reverse_reverses (w : Walker) (l : list WalkEntry) :
  (forall wf,
     Walker_iter tc tcm (set_reverse w false) = (l, Ok wf) ->
     Walker_iter tc tcm (set_reverse w true) = (rev l, Ok (set_reverse wf true))) /\
  (forall err,
     Walker_iter tc tcm (set_reverse w false) = (l, Raise err) ->
     Walker_iter tc tcm (set_reverse w true) = ([], Raise err)).
Proof.
  unfold Walker_iter, _reorder. rewrite !results_set_reverse. simpl.
  destruct (results tc tcm w) as [l0 [w'| err'|]]; simpl;
    destruct (String.eqb (order w) ORDER_TOPO); unfold _topo_reorder; simpl;
    try destruct (topo_list (get_parents w) l0) as [l1 [|]]; simpl;
    split; intros x [= <- <-]; reflexivity || discriminate.
Qed.

End Reverse.

Lemma reverse_reverses_witness :
  Walker_iter no_tree_changes no_merge_changes (set_reverse linear_walker true)
  = (rev (fst (Walker_iter no_tree_changes no_merge_changes
                 (set_reverse linear_walker false))),
     Ok (set_reverse drained_walker true)).
Proof.
  apply (proj1 (reverse_reverses no_tree_changes no_merge_changes
                  linear_walker _) drained_walker).
  vm_compute. reflexivity.
Defined.

(** C6, as stated, fails on a store that lacks the parent of [C1]: the
    forward walk yields [C8] and [C7] before missing-commit is raised, the
    reversed walk raises it before yielding anything. *)
Lemma reverse_counterexample :
  Walker_init shallow_args = Ok (set_reverse shallow_walker false) /\
  Walker_init (with_order shallow_args ORDER_DATE true)
    = Ok (set_reverse shallow_walker true) /\
  (let forward := Walker_iter no_tree_changes no_merge_changes
                    (set_reverse shallow_walker false) in
   let backward := Walker_iter no_tree_changes no_merge_changes
                     (set_reverse shallow_walker true) in
   entry_ids (fst forward) = ["C8"; "C7"] /\
   snd forward = Raise (MissingCommitError "C0") /\
   fst backward = [] /\
   snd backward = Raise (MissingCommitError "C0") /\
   fst backward <> rev (fst forward)).
Proof.
  split; [vm_compute; reflexivity|].
  split; [vm_compute; reflexivity|].
  assert (H : fst (Walker_iter no_tree_changes no_merge_changes
                     (set_reverse shallow_walker false)) <> []).
  { vm_compute. discriminate. }
  cbv zeta. repeat split; try (vm_compute; reflexivity).
  intros Heq. apply H. apply (f_equal (@rev WalkEntry)) in Heq.
  rewrite rev_involutive in Heq. rewrite <- Heq. vm_compute. reflexivity.
Qed.

(** ** What each operation changes in the walker *)

Lemma set_queue_same (w : Walker) : set_queue w (excluded w) (_queue w) = w.
Proof. now destruct w. Qed.

Lemma set_paths_same (w : Walker) : set_paths w (paths w) = w.
Proof. now destruct w. Qed.

(** [next] changes the queue and the excluded set only. *)
Lemma next_shape (w w1 : Walker) (e : option WalkEntry) :
  next w = Ok (e, w1) -> exists ex q, w1 = set_queue w ex q.
Proof.
  unfold next. destruct (_is_finished (_queue w)).
  - intros [= <- <-]. exists (excluded w), (_queue w).
    symmetry. apply set_queue_same.
  - intros ([e' [ex q]] & _ & [= <- <-])%bind_Ok. simpl. eauto.
Qed.

(** The path filter changes the path set only. *)
Lemma change_matches_shape (w w' : Walker) (c : option TreeChange) (b : bool) :
  _change_matches w c = Ok (b, w') -> exists p, w' = set_paths w p.
Proof.
  assert (Hw : exists p, w = set_paths w p).
  { exists (paths w). symmetry. apply set_paths_same. }
  destruct c as [c|]; simpl; [|now intros [= <- <-]].
  intros (m & Hm & H)%bind_Ok. destruct m.
  - destruct (follow w && is_rename (type c)); [|now injection H as <- <-].
    apply bind_Ok in H as (w2 & Hw2 & [= <- <-]).
    unfold follow_rename in Hw2. destruct (paths w); [|discriminate].
    destruct (bool_decide _); [|discriminate]. injection Hw2 as <-. eauto.
  - now apply bind_Ok in H as (m' & _ & [= <- <-]).
Qed.

Lemma any_change_matches_shape (w w' : Walker) (l : list (option TreeChange))
    (b : bool) :
  any_change_matches w l = Ok (b, w') -> exists p, w' = set_paths w p.
Proof.
  revert w. induction l as [|c l IH]; intros w; simpl.
  - intros [= <- <-]. exists (paths w). symmetry. apply set_paths_same.
  - intros ([b1 w1] & Hc & H)%bind_Ok. simpl in H.
    apply change_matches_shape in Hc as [p ->].
    destruct b1; [injection H as <- <-; eauto|].
    apply IH in H as [p' ->]. now exists p'.
Qed.

Lemma any_merge_change_matches_shape (w w' : Walker)
    (ll : list (list (option TreeChange))) (b : bool) :
  any_merge_change_matches w ll = Ok (b, w') -> exists p, w' = set_paths w p.
Proof.
  rewrite any_merge_concat. apply any_change_matches_shape.
Qed.

Section Shape.

Variable tc :
  gmap CommitId Commit -> option TreeId -> TreeId -> option RenameDetector ->
  list TreeChange.
Variable tcm :
  gmap CommitId Commit -> list TreeId -> TreeId -> option RenameDetector ->
  list (list (option TreeChange)).

Lemma should_return_shape (w w' : Walker) (e : WalkEntry) (b : bool) :
  _should_return tc tcm w e = Ok (b, w') -> exists p, w' = set_paths w p.
Proof.
  assert (Hw : exists p, w = set_paths w p).
  { exists (paths w). symmetry. apply set_paths_same. }
  unfold _should_return.
  destruct (before _ _); [now intros [= <- <-]|].
  destruct (after _ _); [now intros [= <- <-]|].
  destruct (bool_decide _); [now intros [= <- <-]|].
  destruct (paths w); [|now intros [= <- <-]].
  destruct (1 <? _)%nat; intros ([l|ll] & _ & H)%bind_Ok; try discriminate.
  - now apply any_merge_change_matches_shape in H.
  - now apply any_change_matches_shape in H.
Qed.

(** [_next] leaves the cap alone and counts the entry it returns. *)
Lemma _next_loop_counts (fuel : nat) (w w' : Walker) (r : option WalkEntry) :
  _next_loop tc tcm fuel w = Ok (r, w') ->
  max_entries w' = max_entries w /\
  _num_entries w' =
    match r with
    | Some _ => _num_entries w + 1
    | None => _num_entries w
    end.
Proof.
  revert w. induction fuel as [|fuel IH]; intros w H; simpl in H.
  - destruct (below_max w); [discriminate|]. now injection H as <- <-.
  - destruct (below_max w); [|now injection H as <- <-].
    apply bind_Ok in H as ([entry w1] & Hnext & H). cbn [fst snd] in H.
    apply next_shape in Hnext as (ex & q & ->).
    assert (Hpop : forall wa e' oq,
      max_entries wa = max_entries w -> _num_entries wa = _num_entries w ->
      (sr <- _should_return tc tcm (set_out_queue wa oq) e' ;;
       if fst sr
       then Ok (Some e', set_num_entries (snd sr) (_num_entries (snd sr) + 1))
       else _next_loop tc tcm fuel (snd sr)) = Ok (r, w') ->
      max_entries w' = max_entries w /\
      _num_entries w' =
        match r with Some _ => _num_entries w + 1 | None => _num_entries w end).
    { intros wa e' oq Hm Hn ([b w2] & Hsr & H')%bind_Ok. cbn [fst snd] in H'.
      apply should_return_shape in Hsr as [p ->]. destruct b.
      - injection H' as <- <-. simpl. now rewrite Hm, Hn.
      - apply IH in H'. simpl in H'. now rewrite <- Hm, <- Hn. }
    destruct entry as [e|]; cbn [orb] in H.
    + destruct (_MAX_EXTRA_COMMITS <? _).
      * destruct (_out_queue _) as [|e' oq] in H.
        { now injection H as <- <-. }
        now apply Hpop in H.
      * now apply IH in H.
    + destruct (_out_queue _) as [|e' oq] in H.
      { now injection H as <- <-. }
      now apply Hpop in H.
Qed.

End Shape.

(** ** Walker._next: the cap on the number of entries *)

Lemma frame_cap_at (k : Z) : frame (cap_at k).
Proof. split; reflexivity. Qed.

Section Cap.

Variable tc :
  gmap CommitId Commit -> option TreeId -> TreeId -> option RenameDetector ->
  list TreeChange.
Variable tcm :
  gmap CommitId Commit -> list TreeId -> TreeId -> option RenameDetector ->
  list (list (option TreeChange)).
Variable k : Z.

Lemma below_max_cap (w : Walker) :
  below_max (cap_at k w) = (_num_entries w <? k).
Proof. reflexivity. Qed.

(** Below the cap, [_next] does what it does without a cap. *)
Lemma cap_next_loop (fuel : nat) (w : Walker) :
  max_entries w = None -> _num_entries w < k ->
  _next_loop tc tcm fuel (cap_at k w) =
  map_result (on_walker (cap_at k)) (_next_loop tc tcm fuel w).
Proof.
  pose proof (frame_cap_at k) as Hf.
  revert w. induction fuel as [|fuel IH]; intros w Hmax Hnum; simpl;
    rewrite below_max_cap; unfold below_max; rewrite Hmax;
    apply Z.ltb_lt in Hnum as Hlt; rewrite Hlt; [reflexivity|].
  rewrite (frame_next _ Hf).
  destruct (next w) as [[entry w1]| |] eqn:Hnext; simpl; try reflexivity.
  apply next_shape in Hnext as (ex & q & ->).
  assert (Hpop : forall wa e' oq,
    max_entries wa = None -> _num_entries wa = _num_entries w ->
    (sr <- _should_return tc tcm (cap_at k (set_out_queue wa oq)) e' ;;
     if fst sr
     then Ok (Some e', set_num_entries (snd sr) (_num_entries (snd sr) + 1))
     else _next_loop tc tcm fuel (snd sr)) =
    map_result (on_walker (cap_at k))
      (sr <- _should_return tc tcm (set_out_queue wa oq) e' ;;
       if fst sr
       then Ok (Some e', set_num_entries (snd sr) (_num_entries (snd sr) + 1))
       else _next_loop tc tcm fuel (snd sr))).
  { intros wa e' oq Hm Hn. rewrite (frame_should_return _ _ _ Hf).
    destruct (_should_return tc tcm _ e') as [[b w2]| |] eqn:Hsr; simpl;
      try reflexivity.
    apply should_return_shape in Hsr as [p ->]. destruct b; [reflexivity|].
    apply IH; simpl; [exact Hm | now rewrite Hn]. }
  destruct entry as [e|]; simpl.
  - rewrite ?(fr_out_queue _ Hf), <- ?(fr_set_out_queue _ Hf).
    destruct (_MAX_EXTRA_COMMITS <? _); [|now apply IH].
    destruct (_out_queue w ++ [e]) as [|e' oq]; [reflexivity|].
    rewrite <- ?(fr_set_out_queue _ Hf). now apply Hpop.
  - rewrite ?(fr_out_queue _ Hf).
    destruct (_out_queue w) as [|e' oq]; [reflexivity|].
    rewrite <- ?(fr_set_out_queue _ Hf). now apply Hpop.
Qed.

Lemma cap_iter_next (fuel : nat) (w : Walker) :
  max_entries w = None -> _num_entries w <= k ->
  fst (iter_next tc tcm fuel (cap_at k w)) =
  firstn (Z.to_nat (k - _num_entries w)) (fst (iter_next tc tcm fuel w)).
Proof.
  revert w. induction fuel as [|fuel IH]; intros w Hmax Hnum; simpl.
  { now rewrite firstn_nil. }
  unfold _next. rewrite (frame_walker_measure _ (frame_cap_at k)).
  destruct (Z.eq_dec (_num_entries w) k) as [Heq|Hne].
  - rewrite Heq, Z.sub_diag. simpl. rewrite below_max_cap, Heq, Z.ltb_irrefl.
    reflexivity.
  - rewrite cap_next_loop by (trivial; lia).
    destruct (_next_loop tc tcm _ w) as [[[e|] w1]| |] eqn:Hn; simpl;
      try now rewrite firstn_nil.
    apply _next_loop_counts in Hn as [Hm1 Hn1].
    rewrite IH by (rewrite ?Hm1, ?Hn1; trivial; lia).
    rewrite Hn1.
    replace (Z.to_nat (k - _num_entries w))
      with (S (Z.to_nat (k - (_num_entries w + 1)))) by lia.
    reflexivity.
Qed.

(** Short of the cap, the capped iteration ends as the uncapped one. *)
Lemma cap_iter_next_end (fuel : nat) (w : Walker) :
  max_entries w = None -> _num_entries w <= k ->
  Z.of_nat (length (fst (iter_next tc tcm fuel w))) < k - _num_entries w ->
  snd (iter_next tc tcm fuel (cap_at k w)) =
  map_result (cap_at k) (snd (iter_next tc tcm fuel w)).
Proof.
  revert w. induction fuel as [|fuel IH]; intros w Hmax Hnum; simpl;
    [reflexivity|].
  unfold _next. rewrite (frame_walker_measure _ (frame_cap_at k)).
  destruct (Z.eq_dec (_num_entries w) k) as [Heq|Hne]; [lia|].
  rewrite cap_next_loop by (trivial; lia).
  destruct (_next_loop tc tcm _ w) as [[[e|] w1]| |] eqn:Hn; simpl;
    try reflexivity.
  apply _next_loop_counts in Hn as [Hm1 Hn1]. intros Hlen.
  apply IH; rewrite ?Hm1, ?Hn1; trivial; lia.
Qed.

End Cap.


(** ** _topo_reorder *)

Lemma occ_nonneg (p : CommitId) (ps : list CommitId) : 0 <= occ p ps.
Proof.
  induction ps as [|x ps IH]; simpl; [lia|].
  destruct (String.eqb x p); lia.
Qed.

Lemma occ_zero (p : CommitId) (ps : list CommitId) : occ p ps = 0 <-> p ∉ ps.
Proof.
  induction ps as [|x ps IH]; simpl.
  - split; [intros _ H; inversion H | reflexivity].
  - pose proof (occ_nonneg p ps). rewrite not_elem_of_cons, <- IH.
    destruct (String.eqb_spec x p) as [->|Hne].
    + split; [lia | intros [Hc _]; congruence].
    + split; [intros H0; split; [congruence | lia] | intros [_ H0]; lia].
Qed.

Lemma parent_count_nonneg gp (p : CommitId) (l : list WalkEntry) :
  0 <= parent_count gp p l.
Proof.
  induction l as [|e l IH]; simpl; [lia|].
  pose proof (occ_nonneg p (gp (commit e))). lia.
Qed.

Lemma parent_count_perm gp (p : CommitId) (l1 l2 : list WalkEntry) :
  l1 ≡ₚ l2 -> parent_count gp p l1 = parent_count gp p l2.
Proof. induction 1; simpl; lia. Qed.

Lemma pending_entries_empty : pending_entries ∅ = [].
Proof. unfold pending_entries. now rewrite map_to_list_empty. Qed.

Lemma pending_entries_delete (pending : gmap CommitId WalkEntry)
    (i : CommitId) (e : WalkEntry) :
  pending !! i = Some e ->
  pending_entries pending ≡ₚ e :: pending_entries (delete i pending).
Proof.
  intros H. unfold pending_entries.
  rewrite <- (map_to_list_delete pending i e H). reflexivity.
Qed.

Lemma pending_entries_insert_fresh (pending : gmap CommitId WalkEntry)
    (i : CommitId) (e : WalkEntry) :
  pending !! i = None ->
  pending_entries (<[i:=e]> pending) ≡ₚ e :: pending_entries pending.
Proof.
  intros H. unfold pending_entries.
  rewrite (map_to_list_insert pending i e H). reflexivity.
Qed.

(** Parking an entry, over an older one or not, holds no more entries. *)
Lemma parent_count_park gp (p i : CommitId) (e : WalkEntry)
    (pending : gmap CommitId WalkEntry) :
  parent_count gp p (pending_entries (<[i:=e]> pending))
  <= occ p (gp (commit e)) + parent_count gp p (pending_entries pending).
Proof.
  destruct (pending !! i) as [old|] eqn:Hi.
  - rewrite <- (insert_delete_eq pending i e).
    rewrite (parent_count_perm gp p _ _
               (pending_entries_insert_fresh _ i e (lookup_delete_eq _ i))).
    rewrite (parent_count_perm gp p _ _ (pending_entries_delete _ i old Hi)).
    simpl. pose proof (occ_nonneg p (gp (commit old))). lia.
  - rewrite (parent_count_perm gp p _ _
               (pending_entries_insert_fresh _ i e Hi)).
    simpl. lia.
Qed.

Lemma num_children_get_insert (nc : gmap CommitId Z) (p q : CommitId) (n : Z) :
  num_children_get (<[p:=n]> nc) q =
  if String.eqb p q then n else num_children_get nc q.
Proof.
  unfold num_children_get. destruct (String.eqb_spec p q) as [->|Hne].
  - now rewrite lookup_insert_eq.
  - now rewrite lookup_insert_ne.
Qed.

Lemma count_children_get (ps : list CommitId) (nc : gmap CommitId Z)
    (p : CommitId) :
  num_children_get (count_children ps nc) p = num_children_get nc p + occ p ps.
Proof.
  revert nc. induction ps as [|x ps IH]; intros nc; simpl; [lia|].
  rewrite IH, num_children_get_insert.
  destruct (String.eqb_spec x p) as [->|Hne]; lia.
Qed.

Lemma topo_ingest_get gp (es : list WalkEntry) (nc : gmap CommitId Z)
    (p : CommitId) :
  num_children_get (topo_ingest gp es nc) p =
  num_children_get nc p + parent_count gp p es.
Proof.
  revert nc. induction es as [|e es IH]; intros nc; simpl; [lia|].
  rewrite IH, count_children_get. lia.
Qed.

Lemma topo_inv_init gp (entries : list WalkEntry) :
  topo_inv gp [] entries ∅ (topo_ingest gp entries ∅).
Proof.
  intros p. rewrite topo_ingest_get, pending_entries_empty. simpl.
  unfold num_children_get. rewrite lookup_empty. simpl. lia.
Qed.

Lemma topo_inv_park gp (e : WalkEntry) (todo : list WalkEntry)
    (pending : gmap CommitId WalkEntry) (nc : gmap CommitId Z) (i : CommitId) :
  topo_inv gp [] (e :: todo) pending nc ->
  topo_inv gp [] todo (<[i:=e]> pending) nc.
Proof.
  intros H p. specialize (H p). simpl in *.
  pose proof (parent_count_park gp p i e pending). lia.
Qed.

(** The release of the parents keeps the invariant, and changes the
    counters of these parents only. *)
Lemma release_parents_inv gp (ps : list CommitId) (todo : list WalkEntry)
    (pending : gmap CommitId WalkEntry) (nc : gmap CommitId Z)
    todo' pending' nc' :
  topo_inv gp ps todo pending nc ->
  release_parents ps todo pending nc = (todo', pending', nc') ->
  topo_inv gp [] todo' pending' nc' /\
  (forall p, p ∉ ps -> num_children_get nc' p = num_children_get nc p).
Proof.
  revert todo pending nc. induction ps as [|x ps IH];
    intros todo pending nc Hinv; simpl.
  - intros [= <- <- <-]. split; [exact Hinv | reflexivity].
  - assert (Hnc : forall td pd,
      (forall p, parent_count gp p td + parent_count gp p (pending_entries pd)
                 = parent_count gp p todo
                   + parent_count gp p (pending_entries pending)) ->
      topo_inv gp ps td pd (<[x:=num_children_get nc x - 1]> nc)).
    { intros td pd Heq p. specialize (Hinv p). specialize (Heq p).
      simpl in Hinv. rewrite num_children_get_insert.
      destruct (String.eqb_spec x p) as [->|Hne]; lia. }
    assert (Hother : forall nc' : gmap CommitId Z,
      (forall p, p ∉ ps -> num_children_get nc' p
         = num_children_get (<[x:=num_children_get nc x - 1]> nc) p) ->
      forall p, p ∉ x :: ps -> num_children_get nc' p = num_children_get nc p).
    { intros nc2 H2 p [Hpx Hp]%not_elem_of_cons. rewrite (H2 p Hp).
      rewrite num_children_get_insert.
      destruct (String.eqb_spec x p); congruence. }
    destruct (num_children_get nc x - 1 =? 0).
    + destruct (pending !! x) as [pe|] eqn:Hpe; intros Hrel;
        apply IH in Hrel as [H1 H2]; try (split; [exact H1 | now apply Hother]).
      * apply Hnc. intros p.
        rewrite (parent_count_perm gp p _ _
                   (pending_entries_delete pending x pe Hpe)).
        simpl. lia.
      * now apply Hnc.
    + intros Hrel. apply IH in Hrel as [H1 H2];
        [split; [exact H1 | now apply Hother] | now apply Hnc].
Qed.

(** A commit whose counter is zero is named as a parent by no entry
    yielded from then on. *)
Lemma topo_loop_no_child gp (fuel : nat) (todo : list WalkEntry)
    (pending : gmap CommitId WalkEntry) (nc : gmap CommitId Z) (p : CommitId) :
  topo_inv gp [] todo pending nc ->
  num_children_get nc p = 0 ->
  forall y, y ∈ fst (topo_loop fuel gp todo pending nc) -> p ∉ gp (commit y).
Proof.
  revert todo pending nc.
  induction fuel as [|fuel IH]; intros todo pending nc Hinv Hp y;
    destruct todo as [|e todo]; simpl; try (intros H; now inversion H).
  destruct (num_children_get nc (id (commit e)) =? 0) eqn:He; simpl.
  - destruct (release_parents _ _ _ _) as [[todo2 pending2] nc2] eqn:Hrel.
    simpl. intros Hy.
    assert (Hpe : p ∉ gp (commit e)).
    { apply occ_zero. specialize (Hinv p). simpl in Hinv.
      pose proof (occ_nonneg p (gp (commit e))).
      pose proof (parent_count_nonneg gp p todo).
      pose proof (parent_count_nonneg gp p (pending_entries pending)). lia. }
    apply elem_of_cons in Hy as [->|Hy]; [exact Hpe|].
    apply (release_parents_inv gp) in Hrel as [H1 H2].
    + apply (IH todo2 pending2 nc2 H1); [|exact Hy]. now rewrite H2.
    + intros q. specialize (Hinv q). simpl in Hinv. lia.
  - apply IH; [|exact Hp]. now apply topo_inv_park.
Qed.

Lemma topo_loop_child_first gp (fuel : nat) (todo : list WalkEntry)
    (pending : gmap CommitId WalkEntry) (nc : gmap CommitId Z) :
  topo_inv gp [] todo pending nc ->
  child_first gp (fst (topo_loop fuel gp todo pending nc)).
Proof.
  revert todo pending nc.
  induction fuel as [|fuel IH]; intros todo pending nc Hinv;
    destruct todo as [|e todo]; simpl; trivial.
  pose proof (topo_loop_no_child gp (S fuel) (e :: todo) pending nc
                (id (commit e)) Hinv) as Hno.
  simpl in Hno.
  destruct (num_children_get nc (id (commit e)) =? 0) eqn:He; simpl in *.
  - destruct (release_parents _ _ _ _) as [[todo2 pending2] nc2] eqn:Hrel.
    simpl in *. split.
    + apply Hno. now apply Z.eqb_eq.
    + apply (release_parents_inv gp) in Hrel as [H1 _]; [now apply IH|].
      intros q. specialize (Hinv q). simpl in Hinv. lia.
  - apply IH. now apply topo_inv_park.
Qed.

Lemma child_first_lookup gp (l : list WalkEntry) (i j : nat)
    (c p : WalkEntry) :
  child_first gp l ->
  l !! i = Some c -> l !! j = Some p ->
  id (commit p) ∈ gp (commit c) -> (i < j)%nat.
Proof.
  revert i j. induction l as [|x l IH]; intros i j Hcf Hi Hj Hin;
    [discriminate|].
  destruct Hcf as [Hx Hcf]. destruct j as [|j].
  - exfalso. injection Hj as ->. apply (Hx c); [|exact Hin].
    now apply list_elem_of_lookup_2 in Hi.
  - destruct i as [|i]; [lia|]. simpl in Hi, Hj.
    specialize (IH i j Hcf Hi Hj Hin). lia.
Qed.

Lemma topo_list_child_first gp (entries : list WalkEntry) :
  child_first gp (fst (topo_list gp entries)).
Proof. apply topo_loop_child_first, topo_inv_init. Qed.

Section TopoOrder.

Variable tc :
  gmap CommitId Commit -> option TreeId -> TreeId -> option RenameDetector ->
  list TreeChange.
Variable tcm :
  gmap CommitId Commit -> list TreeId -> TreeId -> option RenameDetector ->
  list (list (option TreeChange)).

(** C5, as the code has it.  In a walk with [order = TOPO] and
    [reverse = false], an entry whose commit is a parent of the commit of
    another entry of the output comes after that entry: every parent entry
    appears after all of its children that appear in the output. *)
Theorem topo_children_first (w : Walker) (i j : nat) (c p : WalkEntry) :
  order w = ORDER_TOPO -> reverse w = false ->
  fst (Walker_iter tc tcm w) !! i = Some c ->
  fst (Walker_iter tc tcm w) !! j = Some p ->
  id (commit p) ∈ get_parents w (commit c) ->
  (i < j)%nat.
Proof.
  intros Ho Hr. unfold Walker_iter, _reorder. rewrite Ho, Hr. simpl.
  unfold _topo_reorder.
  destruct (snd (results tc tcm w)); simpl; try discriminate.
  apply child_first_lookup, topo_list_child_first.
Qed.

End TopoOrder.

Lemma topo_children_first_witness :
  fst (Walker_iter no_tree_changes no_merge_changes linear_topo_walker)
    = [ {| commit := mk_commit "C3" 30 ["C2"] |};
        {| commit := mk_commit "C2" 20 ["C1"] |};
        {| commit := mk_commit "C1" 10 [] |} ] /\
  (0 < 1)%nat.
Proof.
  split; [vm_compute; reflexivity|].
  apply (topo_children_first no_tree_changes no_merge_changes
           linear_topo_walker 0 1
           {| commit := mk_commit "C3" 30 ["C2"] |}
           {| commit := mk_commit "C2" 20 ["C1"] |}).
  - vm_compute. reflexivity.
  - vm_compute. reflexivity.
  - vm_compute. reflexivity.
  - vm_compute. reflexivity.
  - vm_compute. constructor.
Defined.

(** C5, as stated, fails twice.  With [reverse = true] the topological
    walk from [P] yields the parent [Q] before its child [P].  With
    [reverse = false], [since = 150] prunes [B] from the walk from [G] and
    [A], and [A] is yielded before [G], its descendant through [B]. *)
Lemma topo_counterexample :
  (Walker_init topo_reversed_args = Ok topo_reversed_walker /\
   order topo_reversed_walker = ORDER_TOPO /\
   fst (Walker_iter no_tree_changes no_merge_changes topo_reversed_walker)
     = [ {| commit := commit_Q |}; {| commit := commit_P |} ] /\
   id commit_Q ∈ get_parents topo_reversed_walker commit_P) /\
  (Walker_init pruned_args = Ok pruned_walker /\
   order pruned_walker = ORDER_TOPO /\ reverse pruned_walker = false /\
   fst (Walker_iter no_tree_changes no_merge_changes pruned_walker)
     = [ {| commit := commit_A |}; {| commit := commit_G |} ] /\
   ancestor_of pruned_store (get_parents pruned_walker) commit_G commit_A).
Proof.
  split.
  - repeat split; try (vm_compute; reflexivity). vm_compute. constructor.
  - repeat split; try (vm_compute; reflexivity).
    apply (ancestor_step _ _ commit_G commit_B commit_A).
    + vm_compute. constructor.
    + vm_compute. reflexivity.
    + apply ancestor_parent.
      * vm_compute. constructor.
      * vm_compute. reflexivity.
Qed.

(** ** Termination: the fuel never runs out *)

Lemma size_remove_elem (A : gset CommitId) (x : CommitId) :
  x ∈ A -> size A = S (size (A ∖ {[x]})).
Proof.
  intros Hx. rewrite (union_difference_singleton_L x A Hx) at 1.
  rewrite size_union by set_solver. now rewrite size_singleton.
Qed.

Lemma heappush_length (pq : list (Z * Commit)) (x : Z * Commit) :
  length (heappush pq x) = S (length pq).
Proof.
  induction pq as [|y pq IH]; simpl; [reflexivity|].
  destruct (heap_lt x y); simpl; [reflexivity | now rewrite IH].
Qed.

Lemma exclude_parents_of_measure (st : gmap CommitId Commit)
    (seen : gset CommitId) (ps : list CommitId) (todo : list Commit)
    (excl : gset CommitId) :
  match exclude_parents_of st seen ps todo excl with
  | Ok r =>
      (length (fst r) + size (seen ∖ snd r) <= length todo + size (seen ∖ excl))%nat
  | Raise _ => True
  | OutOfFuel => False
  end.
Proof.
  revert todo excl. induction ps as [|p ps IH]; intros todo excl; simpl;
    [lia|].
  destruct (bool_decide (p ∉ excl)) eqn:Hex;
    destruct (bool_decide (p ∈ seen)) eqn:Hseen; simpl.
  - destruct (st !! p) as [c|]; [|exact I].
    specialize (IH (c :: todo) ({[p]} ∪ excl)).
    destruct (exclude_parents_of _ _ _ _ _) as [r| |]; trivial.
    apply bool_decide_eq_true_1 in Hex, Hseen.
    assert (Hin : p ∈ seen ∖ excl) by set_solver.
    rewrite (size_remove_elem _ p Hin).
    replace (seen ∖ excl ∖ {[p]}) with (seen ∖ ({[p]} ∪ excl)) by set_solver.
    simpl in IH. lia.
  - specialize (IH todo ({[p]} ∪ excl)).
    destruct (exclude_parents_of _ _ _ _ _) as [r| |]; trivial.
    assert (size (seen ∖ ({[p]} ∪ excl)) <= size (seen ∖ excl))%nat
      by (apply subseteq_size; set_solver).
    lia.
  - specialize (IH todo ({[p]} ∪ excl)).
    destruct (exclude_parents_of _ _ _ _ _) as [r| |]; trivial.
    assert (size (seen ∖ ({[p]} ∪ excl)) <= size (seen ∖ excl))%nat
      by (apply subseteq_size; set_solver).
    lia.
  - specialize (IH todo ({[p]} ∪ excl)).
    destruct (exclude_parents_of _ _ _ _ _) as [r| |]; trivial.
    assert (size (seen ∖ ({[p]} ∪ excl)) <= size (seen ∖ excl))%nat
      by (apply subseteq_size; set_solver).
    lia.
Qed.

Lemma exclude_parents_loop_total (fuel : nat) st gp (seen : gset CommitId)
    (todo : list Commit) (excl : gset CommitId) :
  (exclude_parents_fuel seen excl todo <= fuel)%nat ->
  exclude_parents_loop fuel st gp seen todo excl <> OutOfFuel.
Proof.
  unfold exclude_parents_fuel. revert todo excl.
  induction fuel as [|fuel IH]; intros todo excl Hfuel;
    destruct todo as [|c todo]; simpl in *; try discriminate; [lia|].
  pose proof (exclude_parents_of_measure st seen (gp c) todo excl) as Hm.
  destruct (exclude_parents_of _ _ _ _ _) as [[todo2 excl2]| |]; simpl in *;
    [|discriminate|contradiction].
  apply IH. lia.
Qed.

Lemma _exclude_parents_total st gp (seen excl : gset CommitId) (c : Commit) :
  _exclude_parents st gp seen excl c <> OutOfFuel.
Proof. apply exclude_parents_loop_total. lia. Qed.

Lemma push_measure (st : gmap CommitId Commit) (q : Queue) (c : CommitId) :
  match _push st q c with
  | Ok q' => queue_measure st q' = queue_measure st q
  | Raise _ => True
  | OutOfFuel => False
  end.
Proof.
  unfold _push. destruct (st !! c) as [x|] eqn:Hc; [|exact I].
  destruct (bool_decide (c ∉ _pq_set q)) eqn:H1;
    destruct (bool_decide (c ∉ _done q)) eqn:H2; simpl; trivial.
  apply bool_decide_eq_true_1 in H1, H2.
  unfold queue_measure. simpl. rewrite heappush_length.
  assert (Hin : c ∈ dom st ∖ (_pq_set q ∪ _done q)).
  { apply elem_of_difference. split; [apply elem_of_dom; eauto | set_solver]. }
  rewrite (size_remove_elem _ c Hin).
  replace (dom st ∖ ({[c]} ∪ _pq_set q ∪ _done q))
    with (dom st ∖ (_pq_set q ∪ _done q) ∖ {[c]}) by set_solver.
  lia.
Qed.

Lemma push_all_measure (st : gmap CommitId Commit) (ids : list CommitId)
    (q : Queue) :
  match push_all st q ids with
  | Ok q' => queue_measure st q' = queue_measure st q
  | Raise _ => True
  | OutOfFuel => False
  end.
Proof.
  revert q. induction ids as [|c ids IH]; intros q; simpl; [reflexivity|].
  pose proof (push_measure st q c) as Hp.
  destruct (_push st q c) as [q1| |]; simpl; trivial.
  specialize (IH q1). destruct (push_all st q1 ids); trivial. congruence.
Qed.

(** Popping [c] and recording it as done takes one off the measure. *)
Lemma pop_measure (st : gmap CommitId Commit) (q : Queue) (t : Z) (c : Commit)
    (pq' : list (Z * Commit)) :
  _pq q = (t, c) :: pq' -> id c ∈ _pq_set q ->
  let q1 := set_pq q pq' (_pq_set q ∖ {[id c]}) in
  (id c ∈ _done q -> S (queue_measure st q1) = queue_measure st q) /\
  S (queue_measure st (set_done q1 ({[id c]} ∪ _done q1))) = queue_measure st q.
Proof.
  intros Hpq Hin. unfold queue_measure. simpl. rewrite Hpq. simpl. split.
  - intros Hdone. do 3 f_equal. apply set_eq. intros x.
    destruct (decide (x = id c)) as [->|Hne]; set_solver.
  - do 3 f_equal. apply set_eq. intros x.
    destruct (decide (x = id c)) as [->|Hne]; set_solver.
Qed.

Lemma next_loop_total (fuel : nat) st gp (excl : gset CommitId) (q : Queue) :
  (queue_measure st q <= fuel)%nat ->
  match next_loop fuel st gp excl q with
  | Ok (Some _, (_, q')) => (queue_measure st q' < queue_measure st q)%nat
  | Ok (None, _) => True
  | Raise _ => True
  | OutOfFuel => False
  end.
Proof.
  revert excl q. induction fuel as [|fuel IH]; intros excl q Hfuel; simpl.
  { destruct (_pq q) as [|[t c] pq'] eqn:Hpq; [exact I|].
    unfold queue_measure in Hfuel. rewrite Hpq in Hfuel. simpl in Hfuel. lia. }
  destruct (_pq q) as [|[t c] pq'] eqn:Hpq; [exact I|].
  destruct (bool_decide (id c ∈ _pq_set q)) eqn:Hin; [|exact I].
  apply bool_decide_eq_true_1 in Hin.
  destruct (pop_measure st q t c pq' Hpq Hin) as [Hcont Hdone].
  cbn [_done set_pq].
  destruct (bool_decide (id c ∈ _done q)) eqn:Hd.
  { apply bool_decide_eq_true_1 in Hd. specialize (Hcont Hd).
    specialize (IH excl (set_pq q pq' (_pq_set q ∖ {[id c]}))).
    destruct (next_loop fuel st gp excl _) as [[[e|] [ex q']]| |];
      try (apply IH; lia); trivial.
    assert (queue_measure st q' <
            queue_measure st (set_pq q pq' (_pq_set q ∖ {[id c]})))%nat
      by (apply IH; lia).
    lia. }
  cbn [_done set_pq] in Hdone.
  pose proof (push_all_measure st (gp c)
    (set_done (set_pq q pq' (_pq_set q ∖ {[id c]})) ({[id c]} ∪ _done q)))
    as Hpush.
  destruct (push_all st _ (gp c)) as [q3| |]; simpl; trivial.
  assert (Hrec : forall ex n,
    match next_loop fuel st gp ex (set_extra q3 n) with
    | Ok (Some _, (_, q')) => (queue_measure st q' < queue_measure st q)%nat
    | Ok (None, _) => True
    | Raise _ => True
    | OutOfFuel => False
    end).
  { intros ex n. specialize (IH ex (set_extra q3 n)).
    assert (Hm : queue_measure st (set_extra q3 n) = queue_measure st q3)
      by reflexivity.
    destruct (next_loop fuel st gp ex _) as [[[e|] [ex' q']]| |];
      try (apply IH; lia); trivial.
    assert (queue_measure st q' < queue_measure st (set_extra q3 n))%nat
      by (apply IH; lia).
    lia. }
  assert (Hret : forall n,
    (queue_measure st (set_last (set_extra q3 n) c) < queue_measure st q)%nat).
  { intros n.
    change (queue_measure st (set_last (set_extra q3 n) c))
      with (queue_measure st q3). lia. }
  destruct (bool_decide (id c ∈ excl)); simpl.
  - pose proof (_exclude_parents_total st gp (_seen q3) excl c) as Hex.
    destruct (_exclude_parents st gp (_seen q3) excl c) as [excl'| |]; simpl;
      trivial; [|contradiction].
    destruct (reset_after_exclusion excl' q3 && _); [apply Hrec|].
    destruct (_ =? 0); [exact I | apply Hrec].
  - destruct (negb _); [apply Hret|].
    destruct (_ =? 0); [exact I | apply Hret].
Qed.

Lemma next_total (w : Walker) :
  match next w with
  | Ok (Some _, w') =>
      (next_measure w' < next_measure w)%nat /\ _out_queue w' = _out_queue w
  | Ok (None, w') => next_measure w' = O /\ _out_queue w' = _out_queue w
  | Raise _ => True
  | OutOfFuel => False
  end.
Proof.
  unfold next, next_measure. destruct (_is_finished (_queue w)) eqn:Hfin.
  { now rewrite Hfin. }
  pose proof (next_loop_total (queue_measure (store w) (_queue w)) (store w)
                (get_parents w) (excluded w) (_queue w) (le_n _)) as Ht.
  destruct (next_loop _ _ _ _ _) as [[[e|] [ex q']]| |] eqn:Hloop; simpl;
    trivial.
  - split; [|reflexivity]. destruct (_is_finished q'); lia.
  - apply next_loop_none in Hloop. now rewrite Hloop.
Qed.

Lemma bind_no_fuel {A B} (m : result A) (k : A -> result B) :
  m <> OutOfFuel -> (forall a, m = Ok a -> k a <> OutOfFuel) ->
  bind m k <> OutOfFuel.
Proof. destruct m; simpl; [eauto | discriminate | congruence]. Qed.

Lemma path_matches_loop_no_fuel (p : string) (l : list Path) :
  path_matches_loop p l <> OutOfFuel.
Proof.
  induction l as [|[s|] l IH]; simpl; try discriminate.
  repeat (match goal with
          | |- context [if ?b then _ else _] => destruct b
          | |- context [match ?x with _ => _ end] => destruct x
          end; try discriminate; try exact IH).
Qed.

Lemma path_matches_no_fuel (w : Walker) (p : Path) :
  _path_matches w p <> OutOfFuel.
Proof.
  destruct p as [p|]; simpl; [|discriminate].
  destruct (paths w); [apply path_matches_loop_no_fuel | discriminate].
Qed.

Lemma change_matches_no_fuel (w : Walker) (c : option TreeChange) :
  _change_matches w c <> OutOfFuel.
Proof.
  destruct c as [c|]; simpl; [|discriminate].
  apply bind_no_fuel; [apply path_matches_no_fuel|]. intros [|] _.
  - destruct (follow w && _); [|discriminate].
    unfold follow_rename. destruct (paths w); [|discriminate].
    destruct (bool_decide _); discriminate.
  - apply bind_no_fuel; [apply path_matches_no_fuel | discriminate].
Qed.

Lemma any_change_matches_no_fuel (w : Walker) (l : list (option TreeChange)) :
  any_change_matches w l <> OutOfFuel.
Proof.
  revert w. induction l as [|c l IH]; intros w; simpl; [discriminate|].
  apply bind_no_fuel; [apply change_matches_no_fuel|].
  intros [[|] w1] _; simpl; [discriminate | apply IH].
Qed.

Lemma parent_trees_no_fuel (st : gmap CommitId Commit) (ps : list CommitId) :
  parent_trees st ps <> OutOfFuel.
Proof.
  induction ps as [|p ps IH]; simpl; [discriminate|].
  destruct (st !! p); [|discriminate].
  apply bind_no_fuel; [exact IH | discriminate].
Qed.

Section Total.

Variable tc :
  gmap CommitId Commit -> option TreeId -> TreeId -> option RenameDetector ->
  list TreeChange.
Variable tcm :
  gmap CommitId Commit -> list TreeId -> TreeId -> option RenameDetector ->
  list (list (option TreeChange)).

Lemma changes_no_fuel (w : Walker) (e : WalkEntry) :
  changes tc tcm w e <> OutOfFuel.
Proof.
  unfold changes. destruct (get_parents w (commit e)) as [|p [|p' ps]];
    [discriminate | destruct (store w !! p); discriminate |].
  apply bind_no_fuel; [apply parent_trees_no_fuel | discriminate].
Qed.

Lemma should_return_no_fuel (w : Walker) (e : WalkEntry) :
  _should_return tc tcm w e <> OutOfFuel.
Proof.
  unfold _should_return.
  destruct (before _ _); [discriminate|].
  destruct (after _ _); [discriminate|].
  destruct (bool_decide _); [discriminate|].
  destruct (paths w); [|discriminate].
  destruct (1 <? _)%nat; (apply bind_no_fuel; [apply changes_no_fuel|]);
    intros [l|ll] _; try discriminate.
  - rewrite any_merge_concat. apply any_change_matches_no_fuel.
  - apply any_change_matches_no_fuel.
Qed.

Lemma next_measure_set_out_queue (w : Walker) (oq : list WalkEntry) :
  next_measure (set_out_queue w oq) = next_measure w.
Proof. reflexivity. Qed.

Lemma walker_measure_set_out_queue (w : Walker) (oq : list WalkEntry) :
  walker_measure (set_out_queue w oq) = (2 * next_measure w + length oq)%nat.
Proof. reflexivity. Qed.

(** [_next] ends within its fuel, and an entry returned takes the walker
    strictly down in measure. *)
Lemma _next_loop_total (fuel : nat) (w : Walker) :
  (walker_measure w < fuel)%nat ->
  match _next_loop tc tcm fuel w with
  | Ok (Some _, w') => (walker_measure w' < walker_measure w)%nat
  | Ok (None, _) => True
  | Raise _ => True
  | OutOfFuel => False
  end.
Proof.
  revert w. induction fuel as [|fuel IH]; intros w Hfuel; [lia|]. simpl.
  destruct (below_max w); [|exact I].
  pose proof (next_total w) as Hnext.
  destruct (next w) as [[entry w1]| |]; simpl; trivial.
  assert (Hloop : forall wa,
    (walker_measure wa < walker_measure w)%nat ->
    match _next_loop tc tcm fuel wa with
    | Ok (Some _, w') => (walker_measure w' < walker_measure w)%nat
    | Ok (None, _) => True
    | Raise _ => True
    | OutOfFuel => False
    end).
  { intros wa Hlt. specialize (IH wa).
    destruct (_next_loop tc tcm fuel wa) as [[[e|] w']| |];
      try (apply IH; lia); trivial.
    assert (walker_measure w' < walker_measure wa)%nat by (apply IH; lia).
    lia. }
  assert (Hpop : forall wa e' oq,
    (walker_measure (set_out_queue wa oq) < walker_measure w)%nat ->
    match
      (sr <- _should_return tc tcm (set_out_queue wa oq) e' ;;
       if fst sr
       then Ok (Some e', set_num_entries (snd sr) (_num_entries (snd sr) + 1))
       else _next_loop tc tcm fuel (snd sr))
    with
    | Ok (Some _, w') => (walker_measure w' < walker_measure w)%nat
    | Ok (None, _) => True
    | Raise _ => True
    | OutOfFuel => False
    end).
  { intros wa e' oq Hlt.
    pose proof (should_return_no_fuel (set_out_queue wa oq) e') as Hnf.
    destruct (_should_return tc tcm _ e') as [[b w2]| |] eqn:Hsr; simpl;
      trivial; [|contradiction].
    apply should_return_shape in Hsr as [p ->].
    destruct b; [exact Hlt | now apply Hloop]. }
  destruct entry as [e|]; simpl; destruct Hnext as [Hnm Hoq].
  - destruct (_MAX_EXTRA_COMMITS <? _).
    + destruct (_out_queue w1 ++ [e]) as [|e' oq] eqn:Happ; [exact I|].
      apply Hpop.
      rewrite walker_measure_set_out_queue, next_measure_set_out_queue.
      apply (f_equal (@length WalkEntry)) in Happ.
      rewrite length_app, Hoq in Happ. simpl in Happ.
      unfold walker_measure. lia.
    + apply Hloop. rewrite walker_measure_set_out_queue, length_app, Hoq.
      simpl. unfold walker_measure. lia.
  - destruct (_out_queue w1) as [|e' oq] eqn:Hw1; [exact I|].
    apply Hpop. rewrite walker_measure_set_out_queue.
    unfold walker_measure. rewrite <- Hoq. simpl. lia.
Qed.

Lemma _next_total (w : Walker) :
  match _next tc tcm w with
  | Ok (Some _, w') => (walker_measure w' < walker_measure w)%nat
  | Ok (None, _) => True
  | Raise _ => True
  | OutOfFuel => False
  end.
Proof. apply _next_loop_total. lia. Qed.

Lemma iter_next_total (fuel : nat) (w : Walker) :
  (walker_measure w < fuel)%nat ->
  snd (iter_next tc tcm fuel w) <> OutOfFuel.
Proof.
  revert w. induction fuel as [|fuel IH]; intros w Hfuel; [lia|]. simpl.
  pose proof (_next_total w) as Hn.
  destruct (_next tc tcm w) as [[[e|] w']| |]; simpl;
    try discriminate; [|contradiction].
  apply IH. lia.
Qed.

(** The iteration of [_next] always comes to an end, by exhaustion or by
    an exception. *)
Lemma results_total (w : Walker) : snd (results tc tcm w) <> OutOfFuel.
Proof. apply iter_next_total. lia. Qed.

End Total.

(** ** Termination of _topo_reorder *)

Lemma topo_inv_release_step gp (x : CommitId) (ps : list CommitId)
    (todo td : list WalkEntry) (pending pd : gmap CommitId WalkEntry)
    (nc : gmap CommitId Z) :
  topo_inv gp (x :: ps) todo pending nc ->
  (forall p, parent_count gp p td + parent_count gp p (pending_entries pd)
             = parent_count gp p todo
               + parent_count gp p (pending_entries pending)) ->
  topo_inv gp ps td pd (<[x:=num_children_get nc x - 1]> nc).
Proof.
  intros Hinv Heq p. specialize (Hinv p). specialize (Heq p).
  simpl in Hinv. rewrite num_children_get_insert.
  destruct (String.eqb_spec x p) as [->|Hne]; lia.
Qed.

Lemma topo_inv_counter_pos gp (x : CommitId) (ps : list CommitId)
    (todo : list WalkEntry) (pending : gmap CommitId WalkEntry)
    (nc : gmap CommitId Z) :
  topo_inv gp (x :: ps) todo pending nc -> 1 <= num_children_get nc x.
Proof.
  intros Hinv. specialize (Hinv x). simpl in Hinv.
  rewrite String.eqb_refl in Hinv.
  pose proof (occ_nonneg x ps). pose proof (parent_count_nonneg gp x todo).
  pose proof (parent_count_nonneg gp x (pending_entries pending)). lia.
Qed.

(** Taking one off a positive counter makes no entry heavier. *)
Lemma todo_weight_decrement (nc : gmap CommitId Z) (x : CommitId)
    (todo : list WalkEntry) :
  1 <= num_children_get nc x ->
  (todo_weight (<[x:=(num_children_get nc x - 1)%Z]> nc) todo
   <= todo_weight nc todo)%nat.
Proof.
  intros Hpos. induction todo as [|e todo IH]; simpl; [lia|].
  assert (entry_weight (<[x:=(num_children_get nc x - 1)%Z]> nc) e
          <= entry_weight nc e)%nat; [|lia].
  unfold entry_weight. rewrite num_children_get_insert.
  destruct (String.eqb_spec x (id (commit e))) as [<-|Hne]; [|apply le_n].
  destruct (Z.eqb_spec (num_children_get nc x) 0); [lia|].
  destruct (_ =? 0); lia.
Qed.

Lemma release_parents_measure gp (ps : list CommitId) (todo : list WalkEntry)
    (pending : gmap CommitId WalkEntry) (nc : gmap CommitId Z)
    todo' pending' nc' :
  topo_inv gp ps todo pending nc ->
  pending_keys_ok pending ->
  release_parents ps todo pending nc = (todo', pending', nc') ->
  (topo_measure todo' pending' nc' <= topo_measure todo pending nc)%nat /\
  pending_keys_ok pending'.
Proof.
  revert todo pending nc. induction ps as [|x ps IH];
    intros todo pending nc Hinv Hkeys; simpl.
  { intros [= <- <- <-]. split; [lia | exact Hkeys]. }
  pose proof (topo_inv_counter_pos gp x ps todo pending nc Hinv) as Hpos.
  pose proof (todo_weight_decrement nc x todo Hpos) as Hw.
  destruct (num_children_get nc x - 1 =? 0) eqn:Hz.
  - destruct (pending !! x) as [pe|] eqn:Hpe; intros Hrel.
    + apply IH in Hrel as [Hm Hk].
      * split; [|exact Hk]. etransitivity; [exact Hm|].
        unfold topo_measure. simpl.
        rewrite (map_size_delete_Some x pending) by eauto.
        assert (size pending <> 0)%nat
          by (apply map_size_ne_0_lookup_2 with x; eauto).
        assert (entry_weight (<[x:=(num_children_get nc x - 1)%Z]> nc) pe
                = 1%nat).
        { unfold entry_weight. rewrite (Hkeys x pe Hpe).
          rewrite num_children_get_insert, String.eqb_refl. now rewrite Hz. }
        lia.
      * apply (topo_inv_release_step gp x ps todo _ pending _ nc Hinv).
        intros p. rewrite (parent_count_perm gp p _ _
                             (pending_entries_delete pending x pe Hpe)).
        simpl. lia.
      * intros i e Hi. apply lookup_delete_Some in Hi as [_ Hi].
        now apply Hkeys.
    + apply IH in Hrel as [Hm Hk];
        [|now apply (topo_inv_release_step gp x ps todo _ pending _ nc Hinv)
         |exact Hkeys].
      split; [|exact Hk]. unfold topo_measure in *. lia.
  - intros Hrel.
    apply IH in Hrel as [Hm Hk];
      [|now apply (topo_inv_release_step gp x ps todo _ pending _ nc Hinv)
       |exact Hkeys].
    split; [|exact Hk]. unfold topo_measure in *. lia.
Qed.

Lemma topo_loop_total gp (fuel : nat) (todo : list WalkEntry)
    (pending : gmap CommitId WalkEntry) (nc : gmap CommitId Z) :
  topo_inv gp [] todo pending nc ->
  pending_keys_ok pending ->
  (topo_measure todo pending nc <= fuel)%nat ->
  snd (topo_loop fuel gp todo pending nc) = true.
Proof.
  revert todo pending nc.
  induction fuel as [|fuel IH]; intros todo pending nc Hinv Hkeys Hfuel;
    destruct todo as [|e todo]; simpl; trivial.
  { unfold topo_measure in Hfuel. simpl in Hfuel.
    unfold entry_weight in Hfuel.
    destruct (num_children_get nc (id (commit e)) =? 0); lia. }
  unfold topo_measure in Hfuel. simpl in Hfuel. unfold entry_weight in Hfuel.
  destruct (num_children_get nc (id (commit e)) =? 0) eqn:He; simpl.
  - destruct (release_parents _ _ _ _) as [[todo2 pending2] nc2] eqn:Hrel.
    simpl.
    assert (Hinv' : topo_inv gp (gp (commit e)) todo pending nc).
    { intros q. specialize (Hinv q). simpl in Hinv. lia. }
    destruct (release_parents_measure gp _ _ _ _ _ _ _ Hinv' Hkeys Hrel)
      as [Hm Hk].
    apply (release_parents_inv gp) in Hrel as [H1 _]; [|exact Hinv'].
    apply IH; trivial. unfold topo_measure in *. lia.
  - apply IH.
    + now apply topo_inv_park.
    + intros i x Hi. apply lookup_insert_Some in Hi as [[<- <-]|[_ Hi]];
        [reflexivity | now apply Hkeys].
    + unfold topo_measure.
      pose proof (map_size_insert (id (commit e)) e pending) as Hs.
      destruct (pending !! id (commit e)); simpl in Hs; lia.
Qed.

Lemma todo_weight_bound (nc : gmap CommitId Z) (todo : list WalkEntry) :
  (todo_weight nc todo <= 3 * length todo)%nat.
Proof.
  induction todo as [|e todo IH]; simpl; [lia|].
  unfold entry_weight. destruct (_ =? 0); lia.
Qed.

(** [_topo_reorder] always comes to an end. *)
Lemma topo_list_total gp (entries : list WalkEntry) :
  snd (topo_list gp entries) = true.
Proof.
  apply topo_loop_total.
  - apply topo_inv_init.
  - intros i e Hi. now rewrite lookup_empty in Hi.
  - unfold topo_measure. rewrite map_size_empty.
    pose proof (todo_weight_bound (topo_ingest gp entries ∅) entries). lia.
Qed.

Section WalkTotal.

Variable tc :
  gmap CommitId Commit -> option TreeId -> TreeId -> option RenameDetector ->
  list TreeChange.
Variable tcm :
  gmap CommitId Commit -> list TreeId -> TreeId -> option RenameDetector ->
  list (list (option TreeChange)).

(** Every walk comes to an end: the iteration of a walker is exhausted or
    raises, in every order and direction. *)
Lemma Walker_iter_total (w : Walker) : snd (Walker_iter tc tcm w) <> OutOfFuel.
Proof.
  unfold Walker_iter, _reorder. pose proof (results_total tc tcm w) as Hr.
  destruct (results tc tcm w) as [l [w'|err|]]; simpl in *; [| |contradiction];
    destruct (String.eqb (order w) ORDER_TOPO); unfold _topo_reorder; simpl;
    rewrite ?topo_list_total; destruct (reverse w); simpl; discriminate.
Qed.

End WalkTotal.

(** ** The cap, on the whole walk *)

Lemma release_parents_count (ps : list CommitId) (todo : list WalkEntry)
    (pending : gmap CommitId WalkEntry) (nc : gmap CommitId Z)
    todo' pending' nc' :
  release_parents ps todo pending nc = (todo', pending', nc') ->
  (length todo' + size pending' = length todo + size pending)%nat.
Proof.
  revert todo pending nc. induction ps as [|x ps IH];
    intros todo pending nc; simpl.
  { now intros [= <- <- <-]. }
  destruct (_ =? 0); [|apply IH].
  destruct (pending !! x) as [pe|] eqn:Hpe; [|apply IH].
  intros Hrel. apply IH in Hrel. rewrite Hrel. simpl.
  rewrite (map_size_delete_Some x pending) by eauto.
  assert (size pending <> 0)%nat
    by (apply map_size_ne_0_lookup_2 with x; eauto).
  lia.
Qed.

(** [_topo_reorder] yields no more entries than it was given. *)
Lemma topo_loop_length gp (fuel : nat) (todo : list WalkEntry)
    (pending : gmap CommitId WalkEntry) (nc : gmap CommitId Z) :
  (length (fst (topo_loop fuel gp todo pending nc))
   <= length todo + size pending)%nat.
Proof.
  revert todo pending nc. induction fuel as [|fuel IH];
    intros todo pending nc; destruct todo as [|e todo]; simpl; try lia.
  destruct (negb _).
  - specialize (IH todo (<[id (commit e):=e]> pending) nc).
    pose proof (map_size_insert (id (commit e)) e pending) as Hs.
    destruct (pending !! id (commit e)); simpl in Hs; lia.
  - destruct (release_parents _ _ _ _) as [[todo2 pending2] nc2] eqn:Hrel.
    simpl. apply release_parents_count in Hrel.
    specialize (IH todo2 pending2 nc2). lia.
Qed.

Lemma reorder_length (w : Walker) (s : Stream) :
  (length (fst (_reorder w s)) <= length (fst s))%nat.
Proof.
  assert (Htopo : (length (fst (_topo_reorder s (get_parents w)))
                   <= length (fst s))%nat).
  { unfold _topo_reorder. destruct (snd s); simpl; try lia.
    unfold topo_list.
    pose proof (topo_loop_length (get_parents w) (3 * length (fst s)) (fst s)
                  ∅ (topo_ingest (get_parents w) (fst s) ∅)) as Hl.
    rewrite map_size_empty in Hl. lia. }
  assert (Hrev : forall s1 : Stream,
    (length (fst (reversed_list s1)) <= length (fst s1))%nat).
  { intros s1. unfold reversed_list. destruct (snd s1); simpl; try lia.
    rewrite length_rev. lia. }
  unfold _reorder.
  destruct (String.eqb (order w) ORDER_TOPO); destruct (reverse w); trivial;
    try lia.
  etransitivity; [apply Hrev | exact Htopo].
Qed.

Section CapTheorem.

Variable tc :
  gmap CommitId Commit -> option TreeId -> TreeId -> option RenameDetector ->
  list TreeChange.
Variable tcm :
  gmap CommitId Commit -> list TreeId -> TreeId -> option RenameDetector ->
  list (list (option TreeChange)).
Variable k : Z.


End CapTheorem.


(** * Further properties *)

(** ** PathFilter: what a change does to the path set *)





Lemma change_matches_no_follow (w w' : Walker) (c : option TreeChange)
    (b : bool) :
  follow w = false -> _change_matches w c = Ok (b, w') -> w' = w.
Proof.
  intros Hf H. destruct c as [c|]; simpl in H; [|congruence].
  apply bind_Ok in H as (m & _ & H). rewrite Hf in H. simpl in H.
  destruct m; [congruence|].
  apply bind_Ok in H as (m' & _ & H). congruence.
Qed.

Lemma any_change_matches_no_follow (w w' : Walker)
    (l : list (option TreeChange)) (b : bool) :
  follow w = false -> any_change_matches w l = Ok (b, w') -> w' = w.
Proof.
  intros Hf. induction l as [|c l IH]; simpl; [congruence|].
  intros ([b1 w1] & Hc & H)%bind_Ok. simpl in H.
  apply change_matches_no_follow in Hc as ->; [|exact Hf].
  destruct b1; [congruence | now apply IH].
Qed.

Section NoFollow.

Variable tc :
  gmap CommitId Commit -> option TreeId -> TreeId -> option RenameDetector ->
  list TreeChange.
Variable tcm :
  gmap CommitId Commit -> list TreeId -> TreeId -> option RenameDetector ->
  list (list (option TreeChange)).

(** Without [follow], deciding whether to return an entry changes nothing
    in the walker. *)
Lemma should_return_no_follow (w w' : Walker) (e : WalkEntry) (b : bool) :
  follow w = false -> _should_return tc tcm w e = Ok (b, w') -> w' = w.
Proof.
  intros Hf. unfold _should_return.
  destruct (before _ _); [congruence|].
  destruct (after _ _); [congruence|].
  destruct (bool_decide _); [congruence|].
  destruct (paths w); [|congruence].
  destruct (1 <? _)%nat; intros ([l|ll] & _ & H)%bind_Ok; try discriminate.
  - rewrite any_merge_concat in H. now apply any_change_matches_no_follow in H.
  - now apply any_change_matches_no_follow in H.
Qed.

End NoFollow.


(** ** _CommitTimeQueue: the pass of the loop, and what it keeps *)

Lemma next_loop_pass (fuel : nat) st gp (excl : gset CommitId) (q : Queue) :
  next_loop (S fuel) st gp excl q =
  (o <- next_pass st gp excl q ;;
   match o with
   | PassAgain excl' q' => next_loop fuel st gp excl' q'
   | PassReturn r excl' q' => Ok (r, (excl', q'))
   end).
Proof.
  unfold next_pass. simpl. destruct (_pq q) as [|[t c] pq']; [reflexivity|].
  destruct (bool_decide (id c ∈ _pq_set q)); [|reflexivity].
  cbn [_done set_pq].
  destruct (bool_decide (id c ∈ _done q)); [reflexivity|].
  destruct (push_all st _ (gp c)) as [q3| |]; simpl; try reflexivity.
  destruct (bool_decide (id c ∈ excl)); simpl.
  - destruct (_exclude_parents st gp (_seen q3) excl c) as [excl'| |]; simpl;
      try reflexivity.
    destruct (reset_after_exclusion excl' q3 && _); [reflexivity|].
    destruct (_ =? 0); reflexivity.
  - destruct (negb _); [reflexivity|].
    destruct (_ =? 0); reflexivity.
Qed.

Lemma next_loop_zero st gp (excl : gset CommitId) (q : Queue) r :
  next_loop 0 st gp excl q = Ok r ->
  next_pass st gp excl q = Ok (PassReturn (fst r) (fst (snd r)) (snd (snd r))).
Proof.
  unfold next_pass. simpl. destruct (_pq q) as [|[t c] pq']; [|discriminate].
  now intros [= <-].
Qed.

(** What holds of the loop states and is kept by every pass holds of the
    state in which [next] returns. *)
Lemma next_loop_rule st gp (I : gset CommitId -> Queue -> Prop)
    (Q : option WalkEntry -> gset CommitId -> Queue -> Prop) :
  (forall excl q o, I excl q -> next_pass st gp excl q = Ok o ->
     match o with
     | PassAgain excl' q' => I excl' q'
     | PassReturn r excl' q' => Q r excl' q'
     end) ->
  forall fuel excl q r excl' q',
    I excl q -> next_loop fuel st gp excl q = Ok (r, (excl', q')) ->
    Q r excl' q'.
Proof.
  intros Hpass. induction fuel as [|fuel IH]; intros excl q r excl' q' HI H.
  - apply next_loop_zero in H. now apply (Hpass _ _ _ HI) in H.
  - rewrite next_loop_pass in H. apply bind_Ok in H as (o & Ho & H).
    pose proof (Hpass _ _ _ HI Ho) as Hq. destruct o as [e1 q1|r1 e1 q1].
    + now apply IH in H.
    + now injection H as <- <- <-.
Qed.

(** *** _push *)

Lemma push_cases (st : gmap CommitId Commit) (q q1 : Queue) (c : CommitId) :
  _push st q c = Ok q1 ->
  ((c ∈ _pq_set q \/ c ∈ _done q) /\ q1 = q) \/
  ((c ∉ _pq_set q) /\ (c ∉ _done q) /\
   exists x, st !! c = Some x /\
     q1 = set_seen
            (set_pq q (heappush (_pq q) (- commit_time x, x))
               ({[c]} ∪ _pq_set q))
            ({[c]} ∪ _seen q)).
Proof.
  unfold _push. destruct (st !! c) as [x|]; [|discriminate].
  destruct (bool_decide (c ∉ _pq_set q)) eqn:H1;
    destruct (bool_decide (c ∉ _done q)) eqn:H2; simpl; intros [= <-];
    try apply bool_decide_eq_true_1 in H1; try apply bool_decide_eq_true_1 in H2;
    try apply bool_decide_eq_false_1 in H1;
    try apply bool_decide_eq_false_1 in H2.
  - right. eauto.
  - left. split; [right|reflexivity]. now apply dec_stable.
  - left. split; [left|reflexivity]. now apply dec_stable.
  - left. split; [left|reflexivity]. now apply dec_stable.
Qed.

Lemma push_again (st : gmap CommitId Commit) (q : Queue) (c : CommitId) :
  is_Some (st !! c) -> c ∈ _pq_set q \/ c ∈ _done q -> _push st q c = Ok q.
Proof.
  intros [x Hx] Hin. unfold _push. rewrite Hx.
  destruct Hin as [Hin|Hin].
  - now rewrite (bool_decide_eq_false_2 (c ∉ _pq_set q) (fun H => H Hin)).
  - rewrite (bool_decide_eq_false_2 (c ∉ _done q) (fun H => H Hin)).
    now rewrite andb_false_r.
Qed.

Lemma push_holds (st : gmap CommitId Commit) (q q1 : Queue) (c : CommitId) :
  _push st q c = Ok q1 -> c ∈ _pq_set q1 \/ c ∈ _done q1.
Proof.
  intros [[Hin ->]|(_ & _ & x & _ & ->)]%push_cases; [exact Hin|].
  left. simpl. set_solver.
Qed.

(** X3.  Pushing an id leaves it in the heap set or done, and pushing it again
    changes nothing.  A fresh id enters the heap, the heap set and the set
    of seen ids; the done set is never touched. *)
Theorem push_idempotent (st : gmap CommitId Commit) (q q1 : Queue)
    (c : CommitId) :
  _push st q c = Ok q1 ->
  _push st q1 c = Ok q1 /\
  (c ∈ _pq_set q1 \/ c ∈ _done q1) /\
  _done q1 = _done q /\
  (c ∉ _pq_set q -> c ∉ _done q ->
   c ∈ _seen q1 /\ length (_pq q1) = S (length (_pq q))).
Proof.
  intros H. pose proof H as Hc. apply push_cases in Hc.
  assert (Hin : c ∈ _pq_set q1 \/ c ∈ _done q1).
  { destruct Hc as [[Hin ->]|(_ & _ & x & _ & ->)]; [exact Hin|].
    left. simpl. set_solver. }
  assert (Hst : is_Some (st !! c)).
  { unfold _push in H. destruct (st !! c); [eauto | discriminate]. }
  split; [|split; [exact Hin|split]].
  - now apply push_again.
  - destruct Hc as [[_ ->]|(_ & _ & x & _ & ->)]; reflexivity.
  - intros H1 H2. destruct Hc as [[[?|?] _]|(_ & _ & x & _ & ->)];
      try contradiction.
    simpl. rewrite heappush_length. split; [set_solver | reflexivity].
Qed.

Lemma push_keeps (st : gmap CommitId Commit) (q q1 : Queue) (c : CommitId) :
  _push st q c = Ok q1 ->
  _done q1 = _done q /\
  _extra_commits_left q1 = _extra_commits_left q /\
  _is_finished q1 = _is_finished q /\
  _last q1 = _last q /\ _min_time q1 = _min_time q /\
  _seen q ⊆ _seen q1 /\ _pq_set q ⊆ _pq_set q1 /\
  (c ∈ _pq_set q1 \/ c ∈ _done q1) /\
  (queue_inv st q -> queue_inv st q1).
Proof.
  intros H. pose proof (push_holds st q q1 c H) as Hin.
  apply push_cases in H.
  destruct H as [[_ ->]|(H1 & H2 & x & Hx & ->)]; simpl.
  { do 7 (split; [reflexivity|]). split; [exact Hin | trivial]. }
  do 5 (split; [reflexivity|]).
  split; [set_solver|]. split; [set_solver|]. split; [exact Hin|].
  intros (Ha & Hb & Hc & Hd & He & Hf). unfold queue_inv. simpl.
  split; [set_solver|]. split.
  { apply union_subseteq. split; [|exact Hb].
    apply singleton_subseteq_l, elem_of_dom. eauto. }
  split; [set_solver|]. split; [|split; [exact He | exact Hf]].
  rewrite heappush_length, size_union by set_solver.
  rewrite size_singleton. lia.
Qed.

Lemma push_all_keeps (st : gmap CommitId Commit) (ids : list CommitId)
    (q q1 : Queue) :
  push_all st q ids = Ok q1 ->
  _done q1 = _done q /\
  _extra_commits_left q1 = _extra_commits_left q /\
  _is_finished q1 = _is_finished q /\
  _last q1 = _last q /\ _min_time q1 = _min_time q /\
  _seen q ⊆ _seen q1 /\ _pq_set q ⊆ _pq_set q1 /\
  (forall c, c ∈ ids -> c ∈ _pq_set q1 \/ c ∈ _done q1) /\
  (queue_inv st q -> queue_inv st q1).
Proof.
  revert q. induction ids as [|c ids IH]; intros q; simpl.
  { intros [= <-]. do 7 (split; [reflexivity|]).
    split; [intros c Hc; inversion Hc | trivial]. }
  intros (q0 & Hp & H)%bind_Ok.
  apply push_keeps in Hp as (E1 & E2 & E3 & E4 & E5 & S1 & S2 & Hin & Hinv).
  apply IH in H as (F1 & F2 & F3 & F4 & F5 & T1 & T2 & Hall & Hinv').
  do 5 (split; [congruence|]).
  split; [etransitivity; eassumption|].
  split; [etransitivity; eassumption|]. split; [|auto].
  intros c' [->|Hc']%elem_of_cons; [|now apply Hall].
  destruct Hin as [Hin|Hin]; [left; now apply T2 | right; congruence].
Qed.

(** *** _exclude_parents *)

Lemma exclude_parents_of_spec st gp (seen excl0 : gset CommitId)
    (ps : list CommitId) (todo : list Commit) (excl : gset CommitId)
    todo' excl' :
  exclude_parents_of st seen ps todo excl = Ok (todo', excl') ->
  excl ⊆ excl' /\
  (forall p, p ∈ ps -> p ∈ excl') /\
  (forall c, c ∈ todo -> c ∈ todo') /\
  (forall held,
     exclusion_closed st gp seen excl0 (held ++ todo) excl ->
     exclusion_closed st gp seen excl0 (held ++ todo') excl').
Proof.
  revert todo excl. induction ps as [|p ps IH]; intros todo excl; simpl.
  { intros [= <- <-]. split; [reflexivity|].
    split; [intros p Hp; inversion Hp | split; trivial]. }
  destruct (bool_decide (p ∉ excl) && bool_decide (p ∈ seen)) eqn:Hb.
  - destruct (st !! p) as [c|] eqn:Hc; [|discriminate].
    intros (H1 & H2 & H3 & H4)%IH.
    split; [set_solver|]. split; [|split].
    + intros p' [->|Hp']%elem_of_cons; [set_solver | now apply H2].
    + intros c' Hc'. apply H3. now right.
    + intros held Hcl. apply H4. intros x xc Hx Hx0 Hxs Hxc.
      apply elem_of_union in Hx as [Hx|Hx].
      * apply elem_of_singleton in Hx as ->. left.
        rewrite Hc in Hxc. injection Hxc as <-.
        apply elem_of_app. right. now left.
      * destruct (Hcl x xc Hx Hx0 Hxs Hxc) as [Ht|Hpar];
          [left | right; set_solver].
        apply elem_of_app in Ht as [Ht|Ht]; apply elem_of_app;
          [now left | right; now right].
  - intros (H1 & H2 & H3 & H4)%IH.
    split; [set_solver|]. split; [|split; [exact H3|]].
    + intros p' [->|Hp']%elem_of_cons; [set_solver | now apply H2].
    + intros held Hcl. apply H4. intros x xc Hx Hx0 Hxs Hxc.
      apply elem_of_union in Hx as [Hx|Hx].
      * apply elem_of_singleton in Hx as ->.
        apply andb_false_iff in Hb as [Hb|Hb].
        -- apply bool_decide_eq_false_1 in Hb. apply dec_stable in Hb.
           destruct (Hcl p xc Hb Hx0 Hxs Hxc) as [Ht|Hpar];
             [now left | right; set_solver].
        -- apply bool_decide_eq_false_1 in Hb. contradiction.
      * destruct (Hcl x xc Hx Hx0 Hxs Hxc) as [Ht|Hpar];
          [now left | right; set_solver].
Qed.

Lemma exclude_parents_loop_spec (fuel : nat) st gp (seen excl0 : gset CommitId)
    (todo : list Commit) (excl excl' : gset CommitId) :
  exclude_parents_loop fuel st gp seen todo excl = Ok excl' ->
  excl ⊆ excl' /\
  (forall c p, c ∈ todo -> p ∈ gp c -> p ∈ excl') /\
  (exclusion_closed st gp seen excl0 todo excl ->
   exclusion_closed st gp seen excl0 [] excl').
Proof.
  revert todo excl. induction fuel as [|fuel IH]; intros todo excl;
    destruct todo as [|c todo]; simpl; try discriminate;
    try (intros [= <-]; split; [reflexivity|];
         split; [intros c p Hc; inversion Hc | trivial]).
  intros ([todo1 excl1] & Hof & H)%bind_Ok. simpl in H.
  apply (exclude_parents_of_spec st gp seen excl0) in Hof as (H1 & H2 & H3 & H4).
  apply IH in H as (G1 & G2 & G3).
  split; [set_solver|]. split.
  - intros c' p [->|Hc']%elem_of_cons Hp; [apply G1; now apply H2|].
    apply (G2 c' p); [now apply H3 | exact Hp].
  - intros Hcl. apply G3. specialize (H4 [c] Hcl).
    intros x xc Hx Hx0 Hxs Hxc.
    destruct (H4 x xc Hx Hx0 Hxs Hxc) as [Ht|Hpar]; [|now right].
    apply elem_of_cons in Ht as [->|Ht]; [right; exact H2 | now left].
Qed.

Lemma exclude_parents_closure st gp (seen excl excl' : gset CommitId)
    (c : Commit) :
  _exclude_parents st gp seen excl c = Ok excl' ->
  excl ⊆ excl' /\
  (forall p, p ∈ gp c -> p ∈ excl') /\
  (forall p pc, p ∈ excl' -> p ∉ excl -> p ∈ seen -> st !! p = Some pc ->
     forall pp, pp ∈ gp pc -> pp ∈ excl').
Proof.
  unfold _exclude_parents.
  intros (H1 & H2 & H3)%(exclude_parents_loop_spec _ st gp seen excl).
  split; [exact H1|]. split.
  - intros p Hp. apply (H2 c p); [now left | exact Hp].
  - intros p pc Hp Hp0 Hps Hpc.
    destruct (H3 (fun x xc Hx Hx0 => False_ind _ (Hx0 Hx)) p pc Hp Hp0 Hps Hpc)
      as [Ht|Hpar]; [inversion Ht | exact Hpar].
Qed.

Lemma exclude_parents_of_no_raise st (seen : gset CommitId)
    (ps : list CommitId) (todo : list Commit) (excl : gset CommitId) :
  seen ⊆ dom st ->
  exists r, exclude_parents_of st seen ps todo excl = Ok r.
Proof.
  intros Hseen. revert todo excl. induction ps as [|p ps IH];
    intros todo excl; simpl; [eauto|].
  destruct (bool_decide (p ∉ excl)); simpl; [|apply IH].
  destruct (bool_decide (p ∈ seen)) eqn:Hp; [|apply IH].
  apply bool_decide_eq_true_1 in Hp. apply Hseen, elem_of_dom in Hp as [c ->].
  apply IH.
Qed.

Lemma exclude_parents_no_raise st gp (seen excl : gset CommitId) (c : Commit) :
  seen ⊆ dom st -> exists excl', _exclude_parents st gp seen excl c = Ok excl'.
Proof.
  intros Hseen. unfold _exclude_parents.
  pose proof (exclude_parents_loop_total
                (exclude_parents_fuel seen excl [c]) st gp seen [c] excl
                (le_n _)) as Htot.
  revert Htot. generalize (exclude_parents_fuel seen excl [c]).
  generalize [c]. intros todo fuel. revert todo excl.
  induction fuel as [|fuel IH]; intros todo excl;
    destruct todo as [|c' todo]; simpl; eauto; [congruence|].
  destruct (exclude_parents_of_no_raise st seen (gp c') todo excl Hseen)
    as [[todo1 excl1] ->].
  simpl. apply IH.
Qed.

(** X4.  When an excluded commit is popped from a queue whose seen ids are all
    in the store, [_exclude_parents] does not fail, and it only adds to the
    excluded set: it adds every parent of the commit, and for every id it
    adds that had been seen, every parent of that commit in turn. *)
Theorem exclude_parents_spec st gp (seen excl : gset CommitId) (c : Commit) :
  seen ⊆ dom st ->
  exists excl', _exclude_parents st gp seen excl c = Ok excl' /\
    excl ⊆ excl' /\
    (forall p, p ∈ gp c -> p ∈ excl') /\
    (forall p pc, p ∈ excl' -> p ∉ excl -> p ∈ seen -> st !! p = Some pc ->
       forall pp, pp ∈ gp pc -> pp ∈ excl').
Proof.
  intros Hseen.
  destruct (exclude_parents_no_raise st gp seen excl c Hseen) as [excl' H].
  exists excl'. split; [exact H|]. now apply exclude_parents_closure in H.
Qed.

Lemma subseteq_by_eval (A B : gset CommitId) :
  bool_decide (A ⊆ B) = true -> A ⊆ B.
Proof. apply bool_decide_eq_true_1. Qed.

Lemma exclude_parents_spec_witness :
  exists excl',
    _exclude_parents fork_store parents {["C5"; "C4"; "C3"]} {["C4"]}
      (mk_commit "C4" 40 ["C3"]) = Ok excl' /\
    ({["C4"]} : gset CommitId) ⊆ excl' /\
    (forall p, p ∈ parents (mk_commit "C4" 40 ["C3"]) -> p ∈ excl') /\
    (forall p pc, p ∈ excl' -> p ∉ ({["C4"]} : gset CommitId) ->
       p ∈ ({["C5"; "C4"; "C3"]} : gset CommitId) ->
       fork_store !! p = Some pc ->
       forall pp, pp ∈ parents pc -> pp ∈ excl').
Proof.
  apply (exclude_parents_spec fork_store parents {["C5"; "C4"; "C3"]}
           {["C4"]} (mk_commit "C4" 40 ["C3"])).
  apply subseteq_by_eval. vm_compute. reflexivity.
Defined.

(** *** The pass keeps the books *)

Lemma queue_inv_pop st (q : Queue) (t : Z) (c : Commit)
    (pq' : list (Z * Commit)) :
  queue_inv st q -> _pq q = (t, c) :: pq' -> id c ∈ _pq_set q ->
  (id c ∉ _done q) /\
  queue_inv st (set_done (set_pq q pq' (_pq_set q ∖ {[id c]}))
                  ({[id c]} ∪ _done q)).
Proof.
  intros (Ha & Hb & Hc & Hd & He & Hf) Hpq Hin.
  split; [set_solver|]. unfold queue_inv. simpl.
  split; [set_solver|]. split; [exact Hb|]. split; [set_solver|].
  split; [|split; assumption].
  rewrite Hpq in Hd. simpl in Hd.
  rewrite (size_remove_elem _ _ Hin) in Hd. lia.
Qed.

Lemma queue_inv_set_extra st (q : Queue) (n : Z) :
  queue_inv st q -> 0 <= n <= _MAX_EXTRA_COMMITS ->
  (_is_finished q = false -> 1 <= n) ->
  queue_inv st (set_extra q n) /\ queue_inv st (set_finished (set_extra q n)) /\
  forall c, queue_inv st (set_last (set_extra q n) c).
Proof.
  intros (Ha & Hb & Hc & Hd & He & Hf) Hn Hn1.
  unfold queue_inv; simpl. repeat split; trivial; try lia; discriminate.
Qed.

Lemma next_pass_keeps st gp (excl : gset CommitId) (q : Queue)
    (o : pass_outcome) :
  queue_inv st q -> _is_finished q = false ->
  next_pass st gp excl q = Ok o ->
  match o with
  | PassAgain e q' => queue_inv st q' /\ _is_finished q' = false
  | PassReturn r e q' =>
      queue_inv st q' /\
      (r = None -> _is_finished q' = true)
  end.
Proof.
  intros Hinv Hfin. unfold next_pass.
  destruct (_pq q) as [|[t c] pq'] eqn:Hpq.
  { intros [= <-]. split; [|reflexivity].
    destruct Hinv as (Ha & Hb & Hc & Hd & He & Hf).
    unfold queue_inv; simpl. repeat split; trivial; try lia; discriminate. }
  destruct (bool_decide (id c ∈ _pq_set q)) eqn:Hin; [|discriminate].
  apply bool_decide_eq_true_1 in Hin.
  destruct (queue_inv_pop st q t c pq' Hinv Hpq Hin) as [Hnd Hinv2].
  cbn [_done set_pq]. rewrite (bool_decide_eq_false_2 _ Hnd).
  intros (q3 & Hq3 & H)%bind_Ok.
  apply push_all_keeps in Hq3 as (E1 & E2 & E3 & E4 & E5 & S1 & S2 & _ & Hi).
  specialize (Hi Hinv2). simpl in E3. rewrite Hfin in E3.
  assert (Hb5 : 0 <= _MAX_EXTRA_COMMITS <= _MAX_EXTRA_COMMITS)
    by (unfold _MAX_EXTRA_COMMITS; lia).
  destruct (queue_inv_set_extra st q3 _MAX_EXTRA_COMMITS Hi Hb5)
    as (R1 & _ & R3); [unfold _MAX_EXTRA_COMMITS; lia|].
  assert (Hdec : _extra_commits_left q3 - 1 <> 0 ->
    queue_inv st (set_extra q3 (_extra_commits_left q3 - 1)) /\
    forall c, queue_inv st (set_last (set_extra q3 (_extra_commits_left q3 - 1)) c)).
  { intros Hnz. pose proof Hi as (_ & _ & _ & _ & He & Hf). specialize (Hf E3).
    destruct (queue_inv_set_extra st q3 (_extra_commits_left q3 - 1) Hi)
      as (D1 & _ & D3); try lia; auto. }
  assert (Hbrk :
    queue_inv st (set_finished (set_extra q3 (_extra_commits_left q3 - 1)))).
  { destruct Hi as (Ha & Hb & Hc & Hd & He & Hf). specialize (Hf E3).
    unfold queue_inv; simpl. repeat split; trivial; try lia; discriminate. }
  apply bind_Ok in H as ([ex rs] & Hr & H). cbn [fst snd] in H.
  destruct (rs && negb _).
  - destruct (bool_decide (id c ∈ excl)); injection H as <-;
      (split; [auto|]); [exact E3 | discriminate].
  - cbn [_extra_commits_left set_extra] in H.
    destruct (Z.eqb_spec (_extra_commits_left q3 - 1) 0) as [Hz|Hnz].
    + injection H as <-. split; [exact Hbrk | reflexivity].
    + destruct (Hdec Hnz) as [D1 D3].
      destruct (bool_decide (id c ∈ excl)); injection H as <-;
        (split; [auto|]); [exact E3 | discriminate].
Qed.

Lemma next_pass_grows st gp (excl : gset CommitId) (q : Queue)
    (o : pass_outcome) :
  next_pass st gp excl q = Ok o ->
  match o with
  | PassAgain e q' =>
      excl ⊆ e /\ _done q ⊆ _done q' /\ _seen q ⊆ _seen q'
  | PassReturn r e q' =>
      excl ⊆ e /\ _done q ⊆ _done q' /\ _seen q ⊆ _seen q' /\
      forall en, r = Some en ->
        (id (commit en) ∉ _done q) /\ id (commit en) ∈ _done q' /\
        (id (commit en) ∉ e) /\ _last q' = Some (commit en)
  end.
Proof.
  unfold next_pass. destruct (_pq q) as [|[t c] pq'] eqn:Hpq.
  { intros [= <-]. simpl. repeat split; try reflexivity; discriminate. }
  destruct (bool_decide (id c ∈ _pq_set q)); [|discriminate].
  cbn [_done set_pq].
  destruct (bool_decide (id c ∈ _done q)) eqn:Hd.
  { intros [= <-]. simpl. repeat split; reflexivity. }
  apply bool_decide_eq_false_1 in Hd.
  intros (q3 & Hq3 & H)%bind_Ok.
  apply push_all_keeps in Hq3 as (E1 & _ & _ & _ & _ & S1 & _ & _ & _).
  simpl in E1, S1.
  assert (Hdone : _done q ⊆ _done q3) by (rewrite E1; set_solver).
  assert (Hmine : id c ∈ _done q3) by (rewrite E1; set_solver).
  apply bind_Ok in H as ([ex rs] & Hr & H). cbn [fst snd] in H.
  assert (Hex : excl ⊆ ex /\ (bool_decide (id c ∈ excl) = false -> ex = excl)).
  { destruct (bool_decide (id c ∈ excl)).
    - apply bind_Ok in Hr as (ex' & Hex' & [= <- _]).
      apply exclude_parents_closure in Hex' as [Hsub _]. split; [exact Hsub|].
      discriminate.
    - injection Hr as <- _. split; reflexivity. }
  destruct Hex as [Hsub Hsame].
  assert (Hret : forall q4,
    _done q4 = _done q3 -> _seen q4 = _seen q3 ->
    bool_decide (id c ∈ excl) = false ->
    excl ⊆ ex /\ _done q ⊆ _done (set_last q4 c) /\
    _seen q ⊆ _seen (set_last q4 c) /\
    forall en, Some {| commit := c |} = Some en ->
      (id (commit en) ∉ _done q) /\ id (commit en) ∈ _done (set_last q4 c) /\
      (id (commit en) ∉ ex) /\ _last (set_last q4 c) = Some (commit en)).
  { intros q4 H4d H4s Hne. simpl. rewrite H4d, H4s.
    split; [exact Hsub|]. split; [exact Hdone|]. split; [exact S1|].
    intros en [= <-]. simpl. repeat split; trivial.
    rewrite (Hsame Hne). now apply bool_decide_eq_false_1 in Hne. }
  destruct (rs && negb _).
  - destruct (bool_decide (id c ∈ excl)) eqn:Hie; injection H as <-.
    + simpl. repeat split; trivial.
    + now apply Hret.
  - cbn [_extra_commits_left set_extra] in H. destruct (_ =? 0).
    { injection H as <-. simpl. repeat split; trivial; discriminate. }
    destruct (bool_decide (id c ∈ excl)) eqn:Hie; injection H as <-.
    + simpl. repeat split; trivial.
    + now apply Hret.
Qed.

Lemma queue_inv_new st (min_time : option Z) : queue_inv st (new_queue min_time).
Proof.
  unfold queue_inv, new_queue, _MAX_EXTRA_COMMITS; simpl.
  repeat split; try set_solver; lia.
Qed.

(** X5.  The queue keeps its books from construction on: after
    [Walker.__init__], and after every call of [next], every id in the
    heap set has been seen, every id seen is in the store, nothing is both
    in the heap set and done (so no commit is popped twice), the heap and
    the heap set have the same size, and the slack counter lies between 0
    and 5. *)
Theorem queue_keeps_books :
  (forall a w, Walker_init a = Ok w -> queue_inv (store w) (_queue w)) /\
  (forall w w' r,
     queue_inv (store w) (_queue w) -> next w = Ok (r, w') ->
     queue_inv (store w') (_queue w')).
Proof.
  split.
  - intros a w. unfold Walker_init. destruct (negb _); [discriminate|].
    intros (q & Hq & [= <-])%bind_Ok. simpl.
    unfold _CommitTimeQueue_init in Hq.
    apply push_all_keeps in Hq as (_ & _ & _ & _ & _ & _ & _ & _ & Hinv).
    apply Hinv, queue_inv_new.
  - intros w w' r Hinv. unfold next.
    destruct (_is_finished (_queue w)) eqn:Hfin; [now intros [= _ <-]|].
    intros ([r' [ex q']] & Hloop & [= _ <-])%bind_Ok. simpl.
    apply (next_loop_rule (store w) (get_parents w)
             (fun _ q => queue_inv (store w) q /\ _is_finished q = false)
             (fun _ _ q => queue_inv (store w) q)) in Hloop; auto.
    intros excl q o [Hi Hf] Ho.
    apply (next_pass_keeps _ _ _ _ _ Hi Hf) in Ho.
    destruct o; tauto.
Qed.

Lemma queue_keeps_books_witness :
  queue_inv (store linear_walker) (_queue linear_walker) /\
  queue_inv (store (snd (after_next linear_walker)))
    (_queue (snd (after_next linear_walker))).
Proof.
  assert (H : queue_inv (store linear_walker) (_queue linear_walker)).
  { apply (proj1 queue_keeps_books linear_args linear_walker).
    vm_compute. reflexivity. }
  split; [exact H|].
  apply (proj2 queue_keeps_books linear_walker _ (fst (after_next linear_walker))
           H).
  vm_compute. reflexivity.
Defined.

Lemma next_grows (w w' : Walker) (r : option WalkEntry) :
  next w = Ok (r, w') ->
  excluded w ⊆ excluded w' /\
  _done (_queue w) ⊆ _done (_queue w') /\
  _seen (_queue w) ⊆ _seen (_queue w') /\
  forall e, r = Some e ->
    (id (commit e) ∉ _done (_queue w)) /\
    id (commit e) ∈ _done (_queue w') /\
    (id (commit e) ∉ excluded w') /\
    _last (_queue w') = Some (commit e).
Proof.
  unfold next. destruct (_is_finished (_queue w)) eqn:Hfin.
  { intros [= <- <-]. repeat split; try reflexivity; discriminate. }
  intros ([r' [ex q']] & Hloop & [= <- <-])%bind_Ok. simpl.
  apply (next_loop_rule (store w) (get_parents w)
     (fun e1 q1 => excluded w ⊆ e1 /\ _done (_queue w) ⊆ _done q1 /\
                   _seen (_queue w) ⊆ _seen q1)
     (fun r e1 q1 => excluded w ⊆ e1 /\ _done (_queue w) ⊆ _done q1 /\
        _seen (_queue w) ⊆ _seen q1 /\
        forall e, r = Some e ->
          (id (commit e) ∉ _done (_queue w)) /\ id (commit e) ∈ _done q1 /\
          (id (commit e) ∉ e1) /\ _last q1 = Some (commit e))) in Hloop;
    [exact Hloop| |repeat split; reflexivity].
  intros excl q o (I1 & I2 & I3) Ho. apply next_pass_grows in Ho.
  destruct o as [e1 q1|r1 e1 q1].
  - destruct Ho as (G1 & G2 & G3). repeat split; etransitivity; eassumption.
  - destruct Ho as (G1 & G2 & G3 & G4).
    split; [etransitivity; eassumption|].
    split; [etransitivity; eassumption|].
    split; [etransitivity; eassumption|].
    intros e He. destruct (G4 e He) as (F1 & F2 & F3 & F4).
    repeat split; trivial. intros Hin. apply F1. now apply I2.
Qed.

(** X6.  An entry returned by [next] is of a commit that was not done before
    the call, is done after it, is not excluded when it is returned, and is
    recorded as the last one; no call of [next] ever takes anything out
    of the excluded set, the done set or the seen set; and [next] returns
    [None] only with the queue finished. *)
Theorem next_returns_fresh (w w' : Walker) (r : option WalkEntry) :
  next w = Ok (r, w') ->
  excluded w ⊆ excluded w' /\
  _done (_queue w) ⊆ _done (_queue w') /\
  _seen (_queue w) ⊆ _seen (_queue w') /\
  (forall e, r = Some e ->
     (id (commit e) ∉ _done (_queue w)) /\
     id (commit e) ∈ _done (_queue w') /\
     (id (commit e) ∉ excluded w') /\
     _last (_queue w') = Some (commit e)) /\
  (r = None -> _is_finished (_queue w') = true).
Proof.
  intros H. pose proof (next_grows _ _ _ H) as (G1 & G2 & G3 & G4).
  split; [exact G1|]. split; [exact G2|]. split; [exact G3|].
  split; [exact G4|]. intros ->. now apply next_none in H.
Qed.

Lemma next_returns_fresh_witness :
  excluded linear_walker ⊆ excluded (snd (after_next linear_walker)) /\
  _done (_queue linear_walker) ⊆ _done (_queue (snd (after_next linear_walker))) /\
  _seen (_queue linear_walker) ⊆ _seen (_queue (snd (after_next linear_walker))) /\
  (forall e, fst (after_next linear_walker) = Some e ->
     (id (commit e) ∉ _done (_queue linear_walker)) /\
     id (commit e) ∈ _done (_queue (snd (after_next linear_walker))) /\
     (id (commit e) ∉ excluded (snd (after_next linear_walker))) /\
     _last (_queue (snd (after_next linear_walker))) = Some (commit e)) /\
  (fst (after_next linear_walker) = None ->
   _is_finished (_queue (snd (after_next linear_walker))) = true).
Proof.
  apply (next_returns_fresh linear_walker (snd (after_next linear_walker))
           (fst (after_next linear_walker))).
  vm_compute. reflexivity.
Defined.

(** ** _topo_reorder: what it yields *)

Lemma pending_entries_park (pending : gmap CommitId WalkEntry) (i : CommitId)
    (e : WalkEntry) :
  pending_entries (<[i:=e]> pending) ⊆+ e :: pending_entries pending.
Proof.
  destruct (pending !! i) as [old|] eqn:Hi.
  - rewrite <- (insert_delete_eq pending i e).
    rewrite (pending_entries_insert_fresh _ i e (lookup_delete_eq _ i)).
    rewrite (pending_entries_delete _ i old Hi).
    apply submseteq_skip, submseteq_cons. reflexivity.
  - rewrite (pending_entries_insert_fresh _ i e Hi). reflexivity.
Qed.

Lemma release_parents_perm (ps : list CommitId) (todo : list WalkEntry)
    (pending : gmap CommitId WalkEntry) (nc : gmap CommitId Z)
    todo' pending' nc' :
  release_parents ps todo pending nc = (todo', pending', nc') ->
  todo' ++ pending_entries pending' ≡ₚ todo ++ pending_entries pending.
Proof.
  revert todo pending nc. induction ps as [|x ps IH];
    intros todo pending nc; simpl.
  { now intros [= <- <- <-]. }
  destruct (_ =? 0); [|apply IH].
  destruct (pending !! x) as [pe|] eqn:Hpe; [|apply IH].
  intros Hrel. apply IH in Hrel. rewrite Hrel.
  rewrite (pending_entries_delete pending x pe Hpe). simpl.
  apply Permutation_middle.
Qed.

Lemma topo_loop_submseteq gp (fuel : nat) (todo : list WalkEntry)
    (pending : gmap CommitId WalkEntry) (nc : gmap CommitId Z) :
  fst (topo_loop fuel gp todo pending nc) ⊆+ todo ++ pending_entries pending.
Proof.
  revert todo pending nc. induction fuel as [|fuel IH];
    intros todo pending nc; destruct todo as [|e todo]; simpl;
    try apply submseteq_nil_l.
  destruct (negb _).
  - etransitivity; [apply IH|].
    etransitivity; [apply submseteq_skips_l, pending_entries_park|].
    apply Permutation_submseteq. symmetry. apply Permutation_middle.
  - destruct (release_parents _ _ _ _) as [[todo2 pending2] nc2] eqn:Hrel.
    simpl. apply submseteq_skip. etransitivity; [apply IH|].
    apply Permutation_submseteq. now apply release_parents_perm in Hrel.
Qed.

Lemma topo_list_submseteq gp (entries : list WalkEntry) :
  fst (topo_list gp entries) ⊆+ entries.
Proof.
  unfold topo_list. etransitivity; [apply topo_loop_submseteq|].
  rewrite pending_entries_empty, app_nil_r. reflexivity.
Qed.

Lemma topo_reorder_sub (s : Stream) (gp : Commit -> list CommitId) :
  fst (_topo_reorder s gp) ⊆+ fst s.
Proof.
  unfold _topo_reorder. destruct (snd s); simpl; try apply submseteq_nil_l.
  apply topo_list_submseteq.
Qed.

(** X7.  [_topo_reorder] yields entries of its input only, and none more often
    than the input holds it; and it yields nothing at all when the
    iteration it reorders ends in an exception. *)
Theorem topo_reorder_submseteq (s : Stream) (gp : Commit -> list CommitId) :
  fst (_topo_reorder s gp) ⊆+ fst s /\
  forall e, snd s = Raise e -> _topo_reorder s gp = ([], Raise e).
Proof.
  split; [apply topo_reorder_sub|].
  intros e He. unfold _topo_reorder. now rewrite He.
Qed.

Lemma parent_count_zero gp (p : CommitId) (l : list WalkEntry) :
  (forall y, y ∈ l -> p ∉ gp (commit y)) -> parent_count gp p l = 0.
Proof.
  induction l as [|e l IH]; intros H; simpl; [reflexivity|].
  rewrite IH by (intros y Hy; apply H; now right).
  rewrite (proj2 (occ_zero p (gp (commit e)))); [reflexivity|].
  apply H. now left.
Qed.

Lemma release_parents_none (ps : list CommitId) (todo : list WalkEntry)
    (nc : gmap CommitId Z) :
  exists nc', release_parents ps todo ∅ nc = (todo, ∅, nc') /\
    forall p, num_children_get nc' p = num_children_get nc p - occ p ps.
Proof.
  revert nc. induction ps as [|x ps IH]; intros nc; simpl.
  { exists nc. split; [reflexivity | intros p; lia]. }
  rewrite lookup_empty.
  destruct (IH (<[x:=num_children_get nc x - 1]> nc)) as (nc' & Hrel & Hget).
  exists nc'. split; [now destruct (_ =? 0)|].
  intros p. rewrite Hget, num_children_get_insert.
  destruct (String.eqb_spec x p) as [->|Hne]; lia.
Qed.

Lemma topo_loop_child_first_same gp (todo : list WalkEntry) :
  forall (fuel : nat) (nc : gmap CommitId Z),
    (length todo <= fuel)%nat ->
    (forall p, num_children_get nc p = parent_count gp p todo) ->
    child_first gp todo ->
    topo_loop fuel gp todo ∅ nc = (todo, true).
Proof.
  induction todo as [|e todo IH]; intros fuel nc Hfuel Hnc Hcf;
    [now destruct fuel|].
  destruct fuel as [|fuel]; [simpl in Hfuel; lia|]. simpl.
  destruct Hcf as [He Hcf].
  rewrite Hnc, (parent_count_zero gp _ (e :: todo) He). simpl.
  destruct (release_parents_none (gp (commit e)) todo nc) as (nc' & -> & Hget).
  rewrite (IH fuel nc'); [reflexivity | simpl in Hfuel; lia | | exact Hcf].
  intros p. rewrite Hget, Hnc. simpl. lia.
Qed.

Lemma topo_list_child_first_same gp (l : list WalkEntry) :
  child_first gp l -> topo_list gp l = (l, true).
Proof.
  intros Hcf. apply topo_loop_child_first_same; [lia| |exact Hcf].
  intros p. rewrite topo_ingest_get. unfold num_children_get.
  rewrite lookup_empty. simpl. lia.
Qed.

(** X8.  [_topo_reorder] keeps the order of its input wherever it can: input in
    which no entry comes before (or is) one of its own children is
    yielded as it is.  Hence reordering twice is reordering once. *)
Theorem topo_reorder_fixed_point (s : Stream) (gp : Commit -> list CommitId) :
  (forall w, snd s = Ok w -> child_first gp (fst s) -> _topo_reorder s gp = s) /\
  _topo_reorder (_topo_reorder s gp) gp = _topo_reorder s gp.
Proof.
  split.
  - intros w Hs Hcf. unfold _topo_reorder. rewrite Hs.
    rewrite (topo_list_child_first_same gp _ Hcf). simpl.
    destruct s as [l e]. simpl in Hs. now rewrite Hs.
  - unfold _topo_reorder at 2 3. destruct (snd s) as [w| |]; try reflexivity.
    rewrite topo_list_total. unfold _topo_reorder. simpl.
    rewrite (topo_list_child_first_same gp _ (topo_list_child_first gp (fst s))).
    reflexivity.
Qed.

Lemma topo_reorder_fixed_point_witness :
  _topo_reorder (results no_tree_changes no_merge_changes linear_walker) parents
  = results no_tree_changes no_merge_changes linear_walker.
Proof.
  apply (proj1 (topo_reorder_fixed_point
                  (results no_tree_changes no_merge_changes linear_walker)
                  parents) drained_walker).
  - vm_compute. reflexivity.
  - vm_compute. repeat split; intros y Hy Hin;
      repeat (apply elem_of_cons in Hy as [->|Hy]);
      try (inversion Hy); vm_compute in Hin;
      repeat (apply elem_of_cons in Hin as [Hin|Hin]; [discriminate|]);
      inversion Hin.
Defined.

Lemma topo_reorder_submseteq_witness :
  fst (_topo_reorder (results no_tree_changes no_merge_changes linear_walker)
         parents)
    ⊆+ fst (results no_tree_changes no_merge_changes linear_walker) /\
  forall e,
    snd (results no_tree_changes no_merge_changes linear_walker) = Raise e ->
    _topo_reorder (results no_tree_changes no_merge_changes linear_walker)
      parents = ([], Raise e).
Proof.
  apply (topo_reorder_submseteq
           (results no_tree_changes no_merge_changes linear_walker) parents).
Defined.

(** ** Walker: the pass of the loop of [_next] *)

Section NextPass.

Variable tc :
  gmap CommitId Commit -> option TreeId -> TreeId -> option RenameDetector ->
  list TreeChange.
Variable tcm :
  gmap CommitId Commit -> list TreeId -> TreeId -> option RenameDetector ->
  list (list (option TreeChange)).

Lemma _next_loop_pass (fuel : nat) (w : Walker) :
  _next_loop tc tcm (S fuel) w =
  (o <- _next_pass tc tcm w ;;
   match o with
   | NextAgain w' => _next_loop tc tcm fuel w'
   | NextReturn r w' => Ok (r, w')
   end).
Proof.
  unfold _next_pass. simpl. destruct (below_max w); [|reflexivity].
  destruct (next w) as [[entry w1]| |]; simpl; try reflexivity.
  destruct (_ || _); [|reflexivity].
  destruct (_out_queue _) as [|e oq]; [reflexivity|].
  destruct (_should_return tc tcm _ e) as [[[|] w2]| |]; reflexivity.
Qed.

Lemma _next_loop_zero (w : Walker) x :
  _next_loop tc tcm 0 w = Ok x ->
  _next_pass tc tcm w = Ok (NextReturn (fst x) (snd x)).
Proof.
  unfold _next_pass. simpl. destruct (below_max w); [discriminate|].
  now intros [= <-].
Qed.

Lemma _next_loop_rule (I : Walker -> Prop)
    (Q : option WalkEntry -> Walker -> Prop) :
  (forall w o, I w -> _next_pass tc tcm w = Ok o ->
     match o with
     | NextAgain w' => I w'
     | NextReturn r w' => Q r w'
     end) ->
  forall fuel w r w',
    I w -> _next_loop tc tcm fuel w = Ok (r, w') -> Q r w'.
Proof.
  intros Hpass. induction fuel as [|fuel IH]; intros w r w' HI H.
  - apply _next_loop_zero in H. now apply (Hpass _ _ HI) in H.
  - rewrite _next_loop_pass in H. apply bind_Ok in H as (o & Ho & H).
    pose proof (Hpass _ _ HI Ho) as Hq. destruct o as [w1|r1 w1].
    + now apply IH in H.
    + now injection H as <- <-.
Qed.

(** The ways through one pass. *)
Lemma _next_pass_cases (w : Walker) (o : next_outcome) :
  _next_pass tc tcm w = Ok o ->
  (below_max w = false /\ o = NextReturn None w) \/
  (below_max w = true /\
   exists entry ex q,
     next w = Ok (entry, set_queue w ex q) /\
     let w1 := set_queue w ex q in
     let buf := _out_queue w ++ match entry with Some e => [e] | None => [] end in
     (entry <> None /\ (length buf <= 5)%nat /\
      o = NextAgain (set_out_queue w1 buf)) \/
     (entry = None /\ buf = [] /\ o = NextReturn None w1) \/
     (exists e oq b p,
        buf = e :: oq /\ (entry = None \/ (5 < length buf)%nat) /\
        _should_return tc tcm (set_out_queue w1 oq) e
          = Ok (b, set_paths (set_out_queue w1 oq) p) /\
        o = if b
            then NextReturn (Some e)
                   (set_num_entries (set_paths (set_out_queue w1 oq) p)
                      (_num_entries w + 1))
            else NextAgain (set_paths (set_out_queue w1 oq) p))).
Proof.
  unfold _next_pass. destruct (below_max w); [|intros [= <-]; now left].
  intros ([entry w1] & Hnext & H)%bind_Ok. right. split; [reflexivity|].
  pose proof Hnext as (ex & q & ->)%next_shape.
  exists entry, ex, q. split; [exact Hnext|]. cbv zeta. cbn [fst snd] in H.
  destruct entry as [en|]; cbn [orb] in H.
  - cbn [_out_queue set_out_queue set_queue] in H.
    cbn [_out_queue set_queue].
    destruct (Z.ltb_spec _MAX_EXTRA_COMMITS
                (Z.of_nat (length (_out_queue w ++ [en])))) as [Hlt|Hle].
    + right. right.
      destruct (_out_queue w ++ [en]) as [|e oq] eqn:Hbuf;
        [now destruct (_out_queue w)|].
      apply bind_Ok in H as ([b w2] & Hsr & H). cbn [fst snd] in H.
      pose proof Hsr as [p ->]%should_return_shape.
      exists e, oq, b, p. split; [reflexivity|]. split.
      { right. unfold _MAX_EXTRA_COMMITS in Hlt. lia. }
      split; [exact Hsr|]. destruct b; now injection H as <-.
    + left. injection H as <-. split; [discriminate|]. split; [|reflexivity].
      unfold _MAX_EXTRA_COMMITS in Hle. lia.
  - cbn [_out_queue set_queue] in H. cbn [_out_queue set_queue].
    rewrite app_nil_r. right.
    destruct (_out_queue w) as [|e oq] eqn:Hbuf.
    + left. injection H as <-. repeat split.
    + right. apply bind_Ok in H as ([b w2] & Hsr & H). cbn [fst snd] in H.
      pose proof Hsr as [p ->]%should_return_shape.
      exists e, oq, b, p. split; [reflexivity|]. split; [now left|].
      split; [exact Hsr|]. destruct b; now injection H as <-.
Qed.

End NextPass.

Lemma elem_of_entry_ids (x : CommitId) (l : list WalkEntry) :
  x ∈ entry_ids l <-> exists e, e ∈ l /\ id (commit e) = x.
Proof.
  induction l as [|a l IH]; simpl.
  - split; [intros H; inversion H | intros (e & H & _); inversion H].
  - rewrite elem_of_cons, IH. split.
    + intros [->|(e & He & <-)]; [exists a | exists e]; split; trivial;
        [now left | now right].
    + intros (e & [->|He]%elem_of_cons & <-); [now left | right; eauto].
Qed.

Lemma entry_ids_app (l1 l2 : list WalkEntry) :
  entry_ids (l1 ++ l2) = entry_ids l1 ++ entry_ids l2.
Proof. apply map_app. Qed.

Lemma same_options_refl (w : Walker) : same_options w w.
Proof. repeat split. Qed.

Lemma same_options_trans (w1 w2 w3 : Walker) :
  same_options w1 w2 -> same_options w2 w3 -> same_options w1 w3.
Proof. unfold same_options. intuition congruence. Qed.

Lemma admissible_back (w w' : Walker) (e : WalkEntry) :
  same_options w w' -> excluded w ⊆ excluded w' ->
  admissible w' e -> admissible w e.
Proof.
  intros (_ & _ & Hs & Hu & _) Hex (H1 & H2 & H3).
  unfold admissible. rewrite <- Hs, <- Hu. repeat split; trivial. set_solver.
Qed.

Section Emission.

Variable tc :
  gmap CommitId Commit -> option TreeId -> TreeId -> option RenameDetector ->
  list TreeChange.
Variable tcm :
  gmap CommitId Commit -> list TreeId -> TreeId -> option RenameDetector ->
  list (list (option TreeChange)).

Lemma should_return_admits (w w' : Walker) (e : WalkEntry) :
  _should_return tc tcm w e = Ok (true, w') -> admissible w e.
Proof.
  unfold _should_return, admissible.
  destruct (before _ _); [discriminate|].
  destruct (after _ _); [discriminate|].
  destruct (bool_decide _) eqn:Hex; [discriminate|].
  apply bool_decide_eq_false_1 in Hex. intros _. repeat split; trivial.
Qed.

Lemma _next_pass_emits (w : Walker) (o : next_outcome) :
  _next_pass tc tcm w = Ok o ->
  same_options w (outcome_walker o) /\
  excluded w ⊆ excluded (outcome_walker o) /\
  _done (_queue w) ⊆ _done (_queue (outcome_walker o)) /\
  (length (_out_queue w) <= 5 -> length (_out_queue (outcome_walker o)) <= 5)%nat /\
  forall e, outcome_entry o = Some e -> admissible (outcome_walker o) e.
Proof.
  intros H0. apply _next_pass_cases in H0
    as [[_ ->]|(_ & entry & ex & q & Hnext & H)].
  { simpl. split; [apply same_options_refl|].
    repeat split; try reflexivity; trivial; discriminate. }
  apply next_grows in Hnext as (G1 & G2 & _ & _). simpl in G1, G2.
  cbv zeta in H.
  destruct H as [(_ & Hlen & ->)|[(_ & Hbuf & ->)|(e & oq & b & p & Hbuf & Hwhy & Hsr & ->)]];
    simpl.
  - repeat split; trivial; discriminate.
  - repeat split; trivial; discriminate.
  - assert (Hoq : (length (_out_queue w) <= 5 -> length oq <= 5)%nat).
    { intros Hle. apply (f_equal (@length WalkEntry)) in Hbuf.
      rewrite length_app in Hbuf. simpl in Hbuf.
      destruct entry; simpl in Hbuf; lia. }
    destruct b; simpl.
    + split; [repeat split|]. split; [exact G1|]. split; [exact G2|].
      split; [exact Hoq|]. intros e' [= <-].
      exact (should_return_admits _ _ _ Hsr).
    + split; [repeat split|]. split; [exact G1|]. split; [exact G2|].
      split; [exact Hoq | discriminate].
Qed.

Lemma _next_loop_emits (fuel : nat) (w w' : Walker) (r : option WalkEntry) :
  _next_loop tc tcm fuel w = Ok (r, w') ->
  same_options w w' /\ excluded w ⊆ excluded w' /\
  _done (_queue w) ⊆ _done (_queue w') /\
  (length (_out_queue w) <= 5 -> length (_out_queue w') <= 5)%nat /\
  forall e, r = Some e -> admissible w' e.
Proof.
  apply (_next_loop_rule tc tcm
    (fun w1 => same_options w w1 /\ excluded w ⊆ excluded w1 /\
       _done (_queue w) ⊆ _done (_queue w1) /\
       (length (_out_queue w) <= 5 -> length (_out_queue w1) <= 5)%nat)
    (fun r w1 => same_options w w1 /\ excluded w ⊆ excluded w1 /\
       _done (_queue w) ⊆ _done (_queue w1) /\
       (length (_out_queue w) <= 5 -> length (_out_queue w1) <= 5)%nat /\
       forall e, r = Some e -> admissible w1 e)).
  - intros w1 o (I1 & I2 & I3 & I4) Ho.
    apply _next_pass_emits in Ho as (P1 & P2 & P3 & P4 & P5).
    assert (S1 : same_options w (outcome_walker o))
      by (eapply same_options_trans; eauto).
    assert (S2 : excluded w ⊆ excluded (outcome_walker o))
      by (etransitivity; eassumption).
    assert (S3 : _done (_queue w) ⊆ _done (_queue (outcome_walker o)))
      by (etransitivity; eassumption).
    destruct o as [w2|r2 w2]; simpl in *; auto 10.
  - split; [apply same_options_refl|]. repeat split; try reflexivity; trivial.
Qed.

(** X9.  The delay buffer never grows beyond five entries between calls of
    [_next]: a walk in date order holds at most [_MAX_EXTRA_COMMITS]
    entries back. *)
Theorem out_queue_bounded (w w' : Walker) (r : option WalkEntry) :
  (length (_out_queue w) <= 5)%nat ->
  _next tc tcm w = Ok (r, w') ->
  (length (_out_queue w') <= 5)%nat.
Proof.
  intros Hlen H. apply _next_loop_emits in H as (_ & _ & _ & Hb & _). auto.
Qed.

Lemma iter_next_admissible (fuel : nat) (w : Walker) (e : WalkEntry) :
  e ∈ fst (iter_next tc tcm fuel w) -> admissible w e.
Proof.
  revert w. induction fuel as [|fuel IH]; intros w; simpl.
  { intros H; inversion H. }
  destruct (_next tc tcm w) as [[[e0|] w1]| |] eqn:Hn; simpl;
    try (intros H; now inversion H).
  apply _next_loop_emits in Hn as (H1 & H2 & _ & _ & H5).
  intros [->|He]%elem_of_cons; apply (admissible_back w w1); auto.
Qed.

(** X10.  Every entry that a walk yields, in any order and direction, is
    within the time bounds ([since <= commit_time <= until], where set)
    and is not in the excluded set the walk started with; and when [_next]
    returns an entry, the entry is not in the excluded set as it is then. *)
Theorem walk_yields_admissible (w : Walker) :
  (forall e, e ∈ fst (Walker_iter tc tcm w) -> admissible w e) /\
  (forall e w', _next tc tcm w = Ok (Some e, w') -> admissible w' e).
Proof.
  split.
  - intros e He. apply (iter_next_admissible (S (walker_measure w))).
    fold (results tc tcm w). unfold Walker_iter, _reorder in He.
    assert (Htopo : forall x, x ∈ fst (_topo_reorder (results tc tcm w)
                                         (get_parents w)) ->
                    x ∈ fst (results tc tcm w)).
    { intros x Hx. eapply elem_of_submseteq; [exact Hx|].
      apply topo_reorder_sub. }
    assert (Hrev : forall (s : Stream) x, x ∈ fst (reversed_list s) -> x ∈ fst s).
    { intros s x. unfold reversed_list. destruct (snd s); simpl;
        try (intros H; now inversion H).
      rewrite !list_elem_of_In, <- in_rev. trivial. }
    destruct (String.eqb (order w) ORDER_TOPO); destruct (reverse w); auto.
  - intros e w' H. apply _next_loop_emits in H as (_ & _ & _ & _ & H). auto.
Qed.

End Emission.

Lemma out_queue_bounded_witness :
  (length (_out_queue (snd (after_walk_next shallow_walker))) <= 5)%nat.
Proof.
  apply (out_queue_bounded no_tree_changes no_merge_changes shallow_walker
           (snd (after_walk_next shallow_walker))
           (fst (after_walk_next shallow_walker))).
  - vm_compute. lia.
  - vm_compute. reflexivity.
Defined.

Lemma walk_yields_admissible_witness :
  admissible fork_walker {| commit := mk_commit "C5" 50 ["C3"] |}.
Proof.
  apply (proj1 (walk_yields_admissible no_tree_changes no_merge_changes
                  fork_walker)).
  vm_compute. constructor.
Defined.

(** ** Walker: no commit twice *)

Section NoDuplicates.

Variable tc :
  gmap CommitId Commit -> option TreeId -> TreeId -> option RenameDetector ->
  list TreeChange.
Variable tcm :
  gmap CommitId Commit -> list TreeId -> TreeId -> option RenameDetector ->
  list (list (option TreeChange)).

Lemma _next_pass_buffer (w : Walker) (o : next_outcome) :
  buffer_inv w -> _next_pass tc tcm w = Ok o ->
  buffer_inv (outcome_walker o) /\
  _done (_queue w) ⊆ _done (_queue (outcome_walker o)) /\
  (forall e', e' ∈ _out_queue (outcome_walker o) ->
     e' ∈ _out_queue w \/ id (commit e') ∉ _done (_queue w)) /\
  forall e, outcome_entry o = Some e ->
    id (commit e) ∈ _done (_queue (outcome_walker o)) /\
    (id (commit e) ∉ entry_ids (_out_queue (outcome_walker o))) /\
    (e ∈ _out_queue w \/ id (commit e) ∉ _done (_queue w)).
Proof.
  intros [Hnd Hdone] H0. apply _next_pass_cases in H0
    as [[_ ->]|(_ & entry & ex & q & Hnext & H)].
  { simpl. split; [split; trivial|]. split; [reflexivity|].
    split; [auto | discriminate]. }
  apply next_grows in Hnext as (_ & G2 & _ & G4). simpl in G2, G4.
  cbv zeta in H.
  set (buf := _out_queue w ++ match entry with Some e => [e] | None => [] end)
    in *.
  assert (Hbuf_nd : NoDup (entry_ids buf)).
  { subst buf. rewrite entry_ids_app. destruct entry as [en|]; simpl;
      [|now rewrite app_nil_r].
    apply NoDup_app. split; [exact Hnd|]. split; [|apply NoDup_singleton].
    intros x Hx [->|Hx2]%elem_of_cons; [|inversion Hx2].
    apply elem_of_entry_ids in Hx as (e & He & Heq).
    destruct (G4 en eq_refl) as (F1 & _). apply F1. rewrite <- Heq.
    now apply Hdone. }
  assert (Hbuf_done : forall e, e ∈ buf -> id (commit e) ∈ _done q).
  { subst buf. intros e [He|He]%elem_of_app; [apply G2; now apply Hdone|].
    destruct entry as [en|]; [|inversion He].
    apply elem_of_cons in He as [->|He]; [|inversion He].
    now destruct (G4 en eq_refl) as (_ & F2 & _). }
  assert (Hbuf_org : forall e, e ∈ buf ->
            e ∈ _out_queue w \/ id (commit e) ∉ _done (_queue w)).
  { subst buf. intros e [He|He]%elem_of_app; [now left|].
    destruct entry as [en|]; [|inversion He].
    apply elem_of_cons in He as [->|He]; [|inversion He].
    right. now destruct (G4 en eq_refl) as (F1 & _). }
  destruct H as [(_ & _ & ->)|[(_ & Hbuf & ->)|(e & oq & b & p & Hbuf & _ & _ & ->)]];
    simpl.
  - split; [split; assumption|]. split; [exact G2|]. split; [exact Hbuf_org|].
    discriminate.
  - split; [split; [exact Hnd | intros e He; apply G2; now apply Hdone]|].
    split; [exact G2|]. split; [intros e He; now left | discriminate].
  - rewrite Hbuf in Hbuf_nd, Hbuf_done, Hbuf_org. simpl in Hbuf_nd.
    apply NoDup_cons in Hbuf_nd as [Hfresh Hnd'].
    assert (Hinv : buffer_inv (set_paths (set_out_queue (set_queue w ex q) oq) p)).
    { split; [exact Hnd'|]. simpl. intros e' He'. apply Hbuf_done. now right. }
    assert (Horg : forall e', e' ∈ oq ->
              e' ∈ _out_queue w \/ id (commit e') ∉ _done (_queue w)).
    { intros e' He'. apply Hbuf_org. now right. }
    destruct b; simpl.
    + split; [exact Hinv|]. split; [exact G2|]. split; [exact Horg|].
      intros e' [= <-]. split; [apply Hbuf_done; now left|].
      split; [exact Hfresh | apply Hbuf_org; now left].
    + split; [exact Hinv|]. split; [exact G2|]. split; [exact Horg|].
      discriminate.
Qed.

Lemma _next_loop_buffer (fuel : nat) (w w' : Walker) (r : option WalkEntry) :
  buffer_inv w -> _next_loop tc tcm fuel w = Ok (r, w') ->
  buffer_inv w' /\
  _done (_queue w) ⊆ _done (_queue w') /\
  (forall e', e' ∈ _out_queue w' ->
     e' ∈ _out_queue w \/ id (commit e') ∉ _done (_queue w)) /\
  forall e, r = Some e ->
    id (commit e) ∈ _done (_queue w') /\
    (id (commit e) ∉ entry_ids (_out_queue w')) /\
    (e ∈ _out_queue w \/ id (commit e) ∉ _done (_queue w)).
Proof.
  intros Hinv.
  apply (_next_loop_rule tc tcm
    (fun w1 => buffer_inv w1 /\ _done (_queue w) ⊆ _done (_queue w1) /\
       forall e', e' ∈ _out_queue w1 ->
         e' ∈ _out_queue w \/ id (commit e') ∉ _done (_queue w))
    (fun r w1 => buffer_inv w1 /\ _done (_queue w) ⊆ _done (_queue w1) /\
       (forall e', e' ∈ _out_queue w1 ->
          e' ∈ _out_queue w \/ id (commit e') ∉ _done (_queue w)) /\
       forall e, r = Some e ->
         id (commit e) ∈ _done (_queue w1) /\
         (id (commit e) ∉ entry_ids (_out_queue w1)) /\
         (e ∈ _out_queue w \/ id (commit e) ∉ _done (_queue w)))).
  - intros w1 o (I1 & I2 & I3) Ho.
    apply (_next_pass_buffer _ _ I1) in Ho as (P1 & P2 & P3 & P4).
    assert (Hback : forall x : WalkEntry,
      x ∈ _out_queue w1 \/ id (commit x) ∉ _done (_queue w1) ->
      x ∈ _out_queue w \/ id (commit x) ∉ _done (_queue w)).
    { intros x [Hx|Hx]; [now apply I3 | right; set_solver]. }
    assert (S2 : _done (_queue w) ⊆ _done (_queue (outcome_walker o)))
      by (etransitivity; eassumption).
    destruct o as [w2|r2 w2]; simpl in *.
    + split; [exact P1|]. split; [exact S2|]. intros e' He'. auto.
    + split; [exact P1|]. split; [exact S2|]. split; [intros e' He'; auto|].
      intros e He. destruct (P4 e He) as (F1 & F2 & F3). auto.
  - split; [exact Hinv|]. split; [reflexivity|]. intros e' He'. now left.
Qed.

Lemma iter_next_nodup (fuel : nat) (w : Walker) :
  buffer_inv w ->
  NoDup (entry_ids (fst (iter_next tc tcm fuel w))) /\
  forall e, e ∈ fst (iter_next tc tcm fuel w) ->
    e ∈ _out_queue w \/ id (commit e) ∉ _done (_queue w).
Proof.
  revert w. induction fuel as [|fuel IH]; intros w Hinv; simpl.
  { split; [apply NoDup_nil_2 | intros e He; inversion He]. }
  destruct (_next tc tcm w) as [[[e0|] w1]| |] eqn:Hn; simpl;
    try (split; [apply NoDup_nil_2 | intros x Hx; inversion Hx]).
  apply (_next_loop_buffer _ _ _ _ Hinv) in Hn as (B1 & B2 & B3 & B4).
  destruct (B4 e0 eq_refl) as (F1 & F2 & F3).
  destruct (IH w1 B1) as [Hnd Horg]. split.
  - apply NoDup_cons. split; [|exact Hnd].
    intros (e & He & Heq)%elem_of_entry_ids.
    destruct (Horg e He) as [Hin|Hout].
    + apply F2. apply elem_of_entry_ids. eauto.
    + apply Hout. now rewrite Heq.
  - intros e [->|He]%elem_of_cons; [exact F3|].
    destruct (Horg e He) as [Hin|Hout]; [now apply B3 | right; set_solver].
Qed.

(** X11.  A walk never yields the same commit twice, in any order and
    direction: from a walker whose buffered entries are of different done
    commits, as after construction, the ids of the entries yielded are all
    different. *)
Theorem walk_yields_no_duplicates (w : Walker) :
  buffer_inv w -> NoDup (entry_ids (fst (Walker_iter tc tcm w))).
Proof.
  intros Hinv.
  destruct (iter_next_nodup (S (walker_measure w)) w Hinv) as [Hnd _].
  fold (results tc tcm w) in Hnd. unfold Walker_iter, _reorder.
  assert (Hsub : forall l k : list WalkEntry,
    l ⊆+ k -> NoDup (entry_ids k) -> NoDup (entry_ids l)).
  { intros l k [k' Hk]%submseteq_Permutation Hk'.
    assert (Hp : entry_ids k ≡ₚ entry_ids l ++ entry_ids k').
    { rewrite <- entry_ids_app. unfold entry_ids.
      now apply Permutation_map. }
    rewrite Hp in Hk'. now apply NoDup_app in Hk' as [Hl _]. }
  assert (Htopo : NoDup (entry_ids (fst (_topo_reorder (results tc tcm w)
                                           (get_parents w))))).
  { apply (Hsub _ _ (topo_reorder_sub _ _) Hnd). }
  assert (Hrev : forall s : Stream,
    NoDup (entry_ids (fst s)) -> NoDup (entry_ids (fst (reversed_list s)))).
  { intros s Hs. unfold reversed_list. destruct (snd s); simpl;
      try apply NoDup_nil_2.
    apply (Hsub _ (fst s)); [|exact Hs].
    apply Permutation_submseteq. symmetry. apply Permutation_rev. }
  destruct (String.eqb (order w) ORDER_TOPO); destruct (reverse w); auto.
Qed.

End NoDuplicates.

Lemma buffer_inv_init (a : WalkerArgs) (w : Walker) :
  Walker_init a = Ok w -> buffer_inv w.
Proof.
  unfold Walker_init. destruct (negb _); [discriminate|].
  intros (q & _ & [= <-])%bind_Ok. split; simpl.
  - apply NoDup_nil_2.
  - intros e He. inversion He.
Qed.

Lemma walk_yields_no_duplicates_witness :
  NoDup (entry_ids (fst (Walker_iter no_tree_changes no_merge_changes
                           fork_walker))).
Proof.
  apply (walk_yields_no_duplicates no_tree_changes no_merge_changes fork_walker).
  apply (buffer_inv_init fork_args). vm_compute. reflexivity.
Defined.

(** ** Walker.__init__ and WalkEntry.changes: missing commits *)

Lemma push_all_Raise (st : gmap CommitId Commit) (ids : list CommitId)
    (q : Queue) (e : Error) :
  push_all st q ids = Raise e ->
  exists c, e = MissingCommitError c /\ c ∈ ids /\ st !! c = None.
Proof.
  revert q. induction ids as [|c ids IH]; intros q; simpl; [discriminate|].
  unfold _push at 1. destruct (st !! c) as [x|] eqn:Hc.
  - destruct (_ && _); simpl; intros (c' & -> & Hin & Hc')%IH;
      exists c'; repeat split; trivial; now right.
  - simpl. intros [= <-]. exists c. repeat split; trivial. now left.
Qed.

Lemma push_all_missing (st : gmap CommitId Commit) (ids : list CommitId)
    (q : Queue) (c : CommitId) :
  c ∈ ids -> st !! c = None ->
  exists c', c' ∈ ids /\ st !! c' = None /\
    push_all st q ids = Raise (MissingCommitError c').
Proof.
  intros Hin Hc. destruct (push_all st q ids) as [q'|e|] eqn:Hp.
  - exfalso. revert q Hp. induction ids as [|x ids IH]; intros q; simpl;
      [inversion Hin|].
    intros (q1 & Hq1 & Hp)%bind_Ok.
    apply elem_of_cons in Hin as [->|Hin]; [|now apply (IH Hin q1)].
    unfold _push in Hq1. now rewrite Hc in Hq1.
  - apply push_all_Raise in Hp as (c' & -> & Hin' & Hc'). eauto.
  - pose proof (push_all_measure st ids q) as Hm. now rewrite Hp in Hm.
Qed.

Lemma elem_of_seeds (a : WalkerArgs) (c : CommitId) :
  c ∈ match arg_include a with IncludeOne c => [c] | IncludeList l => l end ++
      elements (match arg_exclude a with
                | Some l => list_to_set l | None => ∅ end : gset CommitId)
  <-> c ∈ seed_ids a.
Proof.
  unfold seed_ids. rewrite !elem_of_app, elem_of_elements.
  destruct (arg_exclude a); [rewrite elem_of_list_to_set; tauto|].
  rewrite elem_of_empty. split; intros [H|H]; auto; inversion H.
Qed.

(** X12.  With a known order, construction fails only for a missing commit: it
    raises exactly when some include or exclude id is not in the store,
    and the error is missing-commit for such an id. *)
Theorem walker_init_missing_commit (a : WalkerArgs) :
  arg_order a ∈ ALL_ORDERS ->
  (forall e, Walker_init a = Raise e ->
     exists c, e = MissingCommitError c /\ c ∈ seed_ids a /\
       arg_store a !! c = None) /\
  (forall c, c ∈ seed_ids a -> arg_store a !! c = None ->
     exists c', c' ∈ seed_ids a /\ arg_store a !! c' = None /\
       Walker_init a = Raise (MissingCommitError c')).
Proof.
  intros Ho. apply existsb_eqb_elem_of in Ho. unfold Walker_init. rewrite Ho.
  simpl. unfold _CommitTimeQueue_init. split.
  - intros e. destruct (push_all _ _ _) as [q|e'|] eqn:Hp; try discriminate.
    intros [= <-]. apply push_all_Raise in Hp as (c & -> & Hin & Hc).
    exists c. repeat split; trivial. now apply elem_of_seeds.
  - intros c Hin Hc. apply elem_of_seeds in Hin.
    destruct (push_all_missing (arg_store a) _ (new_queue (arg_since a)) c
                Hin Hc) as (c' & Hin' & Hc' & ->).
    exists c'. repeat split; trivial. now apply elem_of_seeds.
Qed.

Lemma walker_init_missing_commit_witness :
  exists c', c' ∈ seed_ids missing_seed_args /\
    arg_store missing_seed_args !! c' = None /\
    Walker_init missing_seed_args = Raise (MissingCommitError c').
Proof.
  apply (proj2 (walker_init_missing_commit missing_seed_args
                  (proj1 (existsb_eqb_elem_of (arg_order missing_seed_args)
                            ALL_ORDERS) eq_refl)) "C0").
  - vm_compute. constructor.
  - vm_compute. reflexivity.
Defined.

Lemma parent_trees_Ok (st : gmap CommitId Commit) (ps : list CommitId) :
  (forall p, p ∈ ps -> is_Some (st !! p)) ->
  exists ts, parent_trees st ps = Ok ts /\ length ts = length ps.
Proof.
  induction ps as [|p ps IH]; intros H; simpl; [eauto|].
  destruct (H p) as [c ->]; [now left|].
  destruct IH as (ts & -> & Hlen); [intros x Hx; apply H; now right|].
  simpl. eexists. split; [reflexivity|]. simpl. now rewrite Hlen.
Qed.

Lemma parent_trees_missing (st : gmap CommitId Commit) (ps : list CommitId)
    (p : CommitId) :
  p ∈ ps -> st !! p = None -> parent_trees st ps = Raise KeyError.
Proof.
  induction ps as [|x ps IH]; intros Hin Hp; [inversion Hin|]. simpl.
  apply elem_of_cons in Hin as [<-|Hin]; [now rewrite Hp|].
  destruct (st !! x); [|reflexivity]. now rewrite IH.
Qed.

Section Changes.

Variable tc :
  gmap CommitId Commit -> option TreeId -> TreeId -> option RenameDetector ->
  list TreeChange.
Variable tcm :
  gmap CommitId Commit -> list TreeId -> TreeId -> option RenameDetector ->
  list (list (option TreeChange)).

(** X13.  [WalkEntry.changes] looks every parent up in the store: with all of
    them there it returns a flat list for at most one parent and a list
    of lists for a merge; with one of them missing it raises [KeyError]
    (not missing-commit). *)
Theorem changes_by_parents (w : Walker) (e : WalkEntry) :
  ((forall p, p ∈ get_parents w (commit e) -> is_Some (store w !! p)) ->
   exists ch, changes tc tcm w e = Ok ch /\
     match ch with
     | FlatChanges _ => (length (get_parents w (commit e)) <= 1)%nat
     | MergeChanges _ => (1 < length (get_parents w (commit e)))%nat
     end) /\
  (forall p, p ∈ get_parents w (commit e) -> store w !! p = None ->
     changes tc tcm w e = Raise KeyError).
Proof.
  unfold changes. destruct (get_parents w (commit e)) as [|p1 [|p2 ps]].
  - split; [intros _; eexists; split; [reflexivity | simpl; lia]|].
    intros p Hp. inversion Hp.
  - split.
    + intros H. destruct (H p1) as [c ->]; [now left|].
      eexists; split; [reflexivity | simpl; lia].
    + intros p [->|Hp]%elem_of_cons Hnone; [now rewrite Hnone | inversion Hp].
  - split.
    + intros H. destruct (parent_trees_Ok (store w) (p1 :: p2 :: ps) H)
        as (ts & Hts & _).
      rewrite Hts. simpl. eexists; split; [reflexivity | simpl; lia].
    + intros p Hp Hnone.
      now rewrite (parent_trees_missing (store w) (p1 :: p2 :: ps) p Hp Hnone).
Qed.

End Changes.

Lemma changes_by_parents_witness :
  exists ch, changes no_tree_changes merge_tree_changes merge_walker merge_entry
             = Ok ch /\
    match ch with
    | FlatChanges _ =>
        (length (get_parents merge_walker (commit merge_entry)) <= 1)%nat
    | MergeChanges _ =>
        (1 < length (get_parents merge_walker (commit merge_entry)))%nat
    end.
Proof.
  apply (proj1 (changes_by_parents no_tree_changes merge_tree_changes
                  merge_walker merge_entry)).
  intros p Hp. vm_compute in Hp.
  apply elem_of_cons in Hp as [->|Hp]; [vm_compute; eauto|].
  apply elem_of_cons in Hp as [->|Hp]; [vm_compute; eauto | inversion Hp].
Defined.

(** ** The plain walk yields the reachable commits *)

Lemma heappush_perm (pq : list (Z * Commit)) (x : Z * Commit) :
  heappush pq x ≡ₚ x :: pq.
Proof.
  induction pq as [|y pq IH]; simpl; [reflexivity|].
  destruct (heap_lt x y); [reflexivity|].
  rewrite IH. apply perm_swap.
Qed.

Lemma heap_ids_push (pq : list (Z * Commit)) (x : Z * Commit) :
  heap_ids (heappush pq x) ≡ₚ id (snd x) :: heap_ids pq.
Proof.
  unfold heap_ids. change (id (snd x) :: map (fun x => id (snd x)) pq)
    with (map (fun x => id (snd x)) (x :: pq)).
  apply Permutation_map, heappush_perm.
Qed.

Lemma elem_of_heap_ids (k : CommitId) (pq : list (Z * Commit)) :
  k ∈ heap_ids pq <-> exists t c, (t, c) ∈ pq /\ id c = k.
Proof.
  unfold heap_ids. rewrite list_elem_of_In, in_map_iff. split.
  - intros ([t c] & <- & Hin). exists t, c. now rewrite list_elem_of_In.
  - intros (t & c & Hin & <-). exists (t, c). now rewrite <- list_elem_of_In.
Qed.

Lemma plain_push st gp incl (q : Queue) (c : CommitId) :
  wf_store st -> plain_queue st gp incl q -> reachable st gp incl c ->
  is_Some (st !! c) ->
  exists q1, _push st q c = Ok q1 /\ plain_queue st gp incl q1 /\
    _done q1 = _done q /\ _pq_set q ⊆ _pq_set q1 /\
    (c ∈ _pq_set q1 \/ c ∈ _done q1) /\
    _is_finished q1 = _is_finished q.
Proof.
  intros Hwf Hq Hr [x Hx]. pose proof Hq as (Ha & Hb & Hc & Hd & He & Hf).
  unfold _push. rewrite Hx. pose proof (Hwf c x Hx) as Hid. simpl in Hid.
  destruct (bool_decide (c ∉ _pq_set q)) eqn:H1;
    [destruct (bool_decide (c ∉ _done q)) eqn:H2|]; simpl.
  - apply bool_decide_eq_true_1 in H1, H2. eexists.
    split; [reflexivity|]. simpl.
    split; [|split; [reflexivity|split; [set_solver|split; [set_solver|reflexivity]]]].
    split; [exact Ha|]. simpl.
    split; [|split; [|split; [|split]]].
    + rewrite heap_ids_push. simpl. rewrite Hid. apply NoDup_cons.
      split; [|exact Hb]. now rewrite <- Hd.
    + intros t c0. rewrite heappush_perm.
      intros [[= -> ->]|Hin]%elem_of_cons; [now rewrite Hid | eauto].
    + intros k. rewrite heap_ids_push. simpl. rewrite Hid.
      rewrite elem_of_cons, elem_of_union, elem_of_singleton, Hd. tauto.
    + set_solver.
    + intros k [[->%elem_of_singleton|Hk]%elem_of_union|Hk]; auto.
  - apply bool_decide_eq_true_1 in H1. apply bool_decide_eq_false_1 in H2.
    exists q. split; [reflexivity|]. split; [exact Hq|].
    repeat split; auto. right. now apply dec_stable.
  - apply bool_decide_eq_false_1 in H1.
    exists q. split; [reflexivity|]. split; [exact Hq|].
    repeat split; auto. left. now apply dec_stable.
Qed.

Lemma plain_push_all st gp incl (ids : list CommitId) (q : Queue) :
  wf_store st -> plain_queue st gp incl q ->
  (forall c, c ∈ ids -> reachable st gp incl c /\ is_Some (st !! c)) ->
  exists q1, push_all st q ids = Ok q1 /\ plain_queue st gp incl q1 /\
    _done q1 = _done q /\ _pq_set q ⊆ _pq_set q1 /\
    (forall c, c ∈ ids -> c ∈ _pq_set q1 \/ c ∈ _done q1) /\
    _is_finished q1 = _is_finished q.
Proof.
  intros Hwf. revert q. induction ids as [|c ids IH]; intros q Hq Hids; simpl.
  - exists q. split; [reflexivity|]. split; [exact Hq|].
    split; [reflexivity|]. split; [reflexivity|].
    split; [|reflexivity]. intros c Hc. inversion Hc.
  - destruct (Hids c) as [Hr Hs]; [now left|].
    destruct (plain_push st gp incl q c Hwf Hq Hr Hs)
      as (q1 & -> & Hq1 & Hd1 & Hs1 & Hc1 & Hf1). simpl.
    destruct (IH q1 Hq1) as (q2 & -> & Hq2 & Hd2 & Hs2 & Hc2 & Hf2).
    { intros c' Hc'. apply Hids. now right. }
    exists q2. split; [reflexivity|]. split; [exact Hq2|].
    split; [congruence|]. split; [set_solver|]. split; [|congruence].
    intros c' [->|Hc']%elem_of_cons; [|now apply Hc2].
    destruct Hc1 as [Hc1|Hc1]; [left; set_solver | right; congruence].
Qed.

Lemma next_loop_empty (fuel : nat) st gp (excl : gset CommitId) (q : Queue) :
  _pq q = [] ->
  next_loop fuel st gp excl q = Ok (None, (excl, set_finished q)).
Proof. intros H. destruct fuel; simpl; now rewrite H. Qed.

Lemma reachable_in_closed_store st gp (incl : list CommitId) :
  parents_closed st gp -> (forall k, k ∈ incl -> is_Some (st !! k)) ->
  forall k, reachable st gp incl k -> is_Some (st !! k).
Proof.
  intros Hpc Hin k Hr. induction Hr as [k Hk|k c p Hr IH Hc Hp]; [auto|].
  pose proof (Hpc k c Hc) as Hall. simpl in Hall.
  rewrite Forall_forall in Hall. now apply Hall.
Qed.

Section PlainWalk.

Variable tc :
  gmap CommitId Commit -> option TreeId -> TreeId -> option RenameDetector ->
  list TreeChange.
Variable tcm :
  gmap CommitId Commit -> list TreeId -> TreeId -> option RenameDetector ->
  list (list (option TreeChange)).
Variable st : gmap CommitId Commit.
Variable gp : Commit -> list CommitId.
Variable incl : list CommitId.
Hypothesis Hwf : wf_store st.
Hypothesis Hcl : forall k, reachable st gp incl k -> is_Some (st !! k).

(** Without exclusions and bounds a pass of the queue pops the head of
    the heap, pushes its parents and returns it. *)
Lemma plain_pass (q : Queue) :
  plain_queue st gp incl q -> closed_done st gp q ->
  match _pq q with
  | [] => next_pass st gp ∅ q = Ok (PassReturn None ∅ (set_finished q))
  | (t, c) :: _ =>
      exists q', next_pass st gp ∅ q
                 = Ok (PassReturn (Some {| commit := c |}) ∅ q') /\
        plain_queue st gp incl q' /\ closed_done st gp q' /\
        _done q' = {[id c]} ∪ _done q /\
        (forall k, k ∈ _pq_set q -> k ∈ _pq_set q' \/ k = id c) /\
        _is_finished q' = _is_finished q /\
        st !! id c = Some c
  end.
Proof.
  intros Hq Hcd. pose proof Hq as (Ha & Hb & Hc & Hd & He & Hf).
  unfold next_pass. destruct (_pq q) as [|[t c] pq'] eqn:Hpq; [reflexivity|].
  assert (Hin : id c ∈ _pq_set q) by (apply Hd; now left).
  assert (Hst : st !! id c = Some c) by (apply (Hc t); now left).
  assert (Hnd : id c ∉ _done q) by set_solver.
  rewrite (bool_decide_eq_true_2 _ Hin). cbn [_done set_pq].
  rewrite (bool_decide_eq_false_2 _ Hnd).
  set (q2 := set_done (set_pq q pq' (_pq_set q ∖ {[id c]}))
               ({[id c]} ∪ _done q)).
  assert (Hq2 : plain_queue st gp incl q2).
  { simpl in Hb. apply NoDup_cons in Hb as [Hb1 Hb2].
    split; [exact Ha|]. split; [exact Hb2|].
    split; [intros t' c' H'; apply (Hc t'); now right|].
    split.
    { intros k. simpl. rewrite elem_of_difference, elem_of_singleton, Hd.
      simpl. rewrite elem_of_cons.
      split; [intros [[->|H] Hne]; [contradiction | exact H]|].
      intros H. split; [now right | intros ->; contradiction]. }
    split; [simpl; set_solver|].
    intros k. simpl. intros [Hk|Hk]; apply Hf; [left; set_solver|].
    apply elem_of_union in Hk as [->%elem_of_singleton|Hk];
      [now left | now right]. }
  destruct (plain_push_all st gp incl (gp c) q2 Hwf Hq2)
    as (q3 & Hp & Hq3 & Hd3 & Hs3 & Hc3 & Hf3).
  { intros p Hp.
    assert (reachable st gp incl p)
      by (apply (reach_parent _ _ _ (id c) c); auto).
    split; auto. }
  rewrite Hp. simpl.
  assert (Hne : id c ∉ (∅ : gset CommitId)) by set_solver.
  rewrite (bool_decide_eq_false_2 _ Hne). simpl.
  pose proof Hq3 as (Ha3 & _). rewrite Ha3. simpl.
  eexists. split; [reflexivity|]. split; [exact Hq3|]. split.
  { intros k c0 p Hk Hc0 Hp0. change (k ∈ _done q3) in Hk.
    change (p ∈ _pq_set q3 \/ p ∈ _done q3).
    assert (Hk' : k = id c \/ k ∈ _done q)
      by (rewrite Hd3 in Hk; simpl in Hk; set_solver).
    destruct Hk' as [->|Hk'].
    - rewrite Hst in Hc0. injection Hc0 as <-. now apply Hc3.
    - destruct (Hcd k c0 p Hk' Hc0 Hp0) as [H1|H1].
      + destruct (decide (p = id c)) as [->|Hneq];
          [right; rewrite Hd3; simpl; set_solver|].
        left. apply Hs3. simpl. set_solver.
      + right. rewrite Hd3. simpl. set_solver. }
  split; [exact Hd3|]. split; [|split; [exact Hf3 | exact Hst]].
  intros k Hk. simpl. destruct (decide (k = id c)) as [->|Hneq]; [now right|].
  left. apply Hs3. simpl. set_solver.
Qed.

Lemma plain_walker_set_queue (w : Walker) (q1 : Queue) :
  plain_walker st gp incl w ->
  plain_queue st gp incl q1 -> closed_done st gp q1 ->
  (forall k, k ∈ incl -> k ∈ _pq_set q1 \/ k ∈ _done q1) ->
  (_is_finished q1 = true -> _pq q1 = []) ->
  plain_walker st gp incl (set_queue w ∅ q1).
Proof.
  intros (H1 & H2 & H3 & H4 & H5 & H6 & H7 & _ & _ & _ & _ & H12) Hq Hcd Hi Hf.
  unfold plain_walker. simpl. auto 15.
Qed.

Lemma plain_walker_set_out_queue (w : Walker) (oq : list WalkEntry) :
  plain_walker st gp incl w ->
  (forall e, e ∈ oq -> st !! id (commit e) = Some (commit e)) ->
  plain_walker st gp incl (set_out_queue w oq).
Proof.
  intros (H1 & H2 & H3 & H4 & H5 & H6 & H7 & H8 & H9 & H10 & H11 & _) Ho.
  unfold plain_walker. simpl. auto 15.
Qed.

Lemma plain_walker_set_num_entries (w : Walker) (n : Z) :
  plain_walker st gp incl w -> plain_walker st gp incl (set_num_entries w n).
Proof. intros H. exact H. Qed.

Lemma plain_next (w : Walker) :
  plain_walker st gp incl w ->
  exists r q', next w = Ok (r, set_queue w ∅ q') /\
    plain_walker st gp incl (set_queue w ∅ q') /\
    _done q' = opt_ids r ∪ _done (_queue w) /\
    (forall e, r = Some e -> st !! id (commit e) = Some (commit e)).
Proof.
  intros Hw.
  pose proof Hw as (Hs & Hg & Hex & _ & _ & _ & _ & Hq & Hcd & Hin & Hfin & _).
  assert (Hsame : set_queue w ∅ (_queue w) = w)
    by (rewrite <- Hex; apply set_queue_same).
  unfold next. destruct (_is_finished (_queue w)) eqn:Hf.
  - exists None, (_queue w). rewrite Hsame. split; [reflexivity|].
    split; [exact Hw|]. split; [simpl; set_solver | discriminate].
  - pose proof (plain_pass (_queue w) Hq Hcd) as Hp. rewrite Hs, Hg, Hex.
    destruct (_pq (_queue w)) as [|[t c] pq'] eqn:Hpq.
    + rewrite next_loop_empty by exact Hpq. simpl.
      exists None, (set_finished (_queue w)). split; [reflexivity|].
      split; [|split; [simpl; set_solver | discriminate]].
      apply plain_walker_set_queue; trivial.
    + destruct Hp as (q' & Hp & Hq' & Hcd' & Hd' & Hs' & Hf' & Hst).
      unfold queue_measure. rewrite Hpq. cbn [length Nat.add].
      rewrite next_loop_pass, Hp. simpl.
      exists (Some {| commit := c |}), q'. split; [reflexivity|].
      split; [|split; [exact Hd'|now intros e [= <-]]].
      apply plain_walker_set_queue; trivial.
      * intros k Hk. destruct (Hin k Hk) as [H|H].
        -- destruct (Hs' k H) as [H'| ->]; [now left|right]. set_solver.
        -- right. set_solver.
      * congruence.
Qed.

Lemma should_return_plain (w : Walker) (e : WalkEntry) :
  plain_walker st gp incl w -> _should_return tc tcm w e = Ok (true, w).
Proof.
  intros (_ & _ & Hex & Hsi & Hun & Hpa & _). unfold _should_return.
  rewrite Hsi, Hun, Hex, Hpa. simpl.
  rewrite bool_decide_eq_false_2 by set_solver. reflexivity.
Qed.

Lemma below_max_plain (w : Walker) :
  plain_walker st gp incl w -> below_max w = true.
Proof.
  intros (_ & _ & _ & _ & _ & _ & Hma & _). unfold below_max. now rewrite Hma.
Qed.

(** One pass of [_next] on a plain walker: no exception, and the done
    commits stay those yielded and those buffered. *)
Lemma plain_walk_pass (w : Walker) (Y : gset CommitId) :
  plain_walker st gp incl w -> yielded_inv w Y ->
  exists o, _next_pass tc tcm w = Ok o /\
    plain_walker st gp incl (outcome_walker o) /\
    yielded_inv (outcome_walker o) (Y ∪ opt_ids (outcome_entry o)) /\
    (forall e, outcome_entry o = Some e ->
       st !! id (commit e) = Some (commit e)).
Proof.
  intros Hw HY. unfold _next_pass. rewrite (below_max_plain w Hw).
  destruct (plain_next w Hw) as (r & q' & -> & Hw' & Hd' & Hst).
  pose proof Hw as (_ & _ & _ & _ & _ & _ & _ & _ & _ & _ & _ & Hout).
  unfold yielded_inv in HY. cbn [bind fst snd].
  assert (Hpop : forall w1 e oq,
    plain_walker st gp incl w1 -> _out_queue w1 = e :: oq ->
    _done (_queue w1) = Y ∪ list_to_set (entry_ids (e :: oq)) ->
    exists o,
      (sr <- _should_return tc tcm (set_out_queue w1 oq) e ;;
       if fst sr
       then Ok (NextReturn (Some e)
                  (set_num_entries (snd sr) (_num_entries (snd sr) + 1)))
       else Ok (NextAgain (snd sr))) = Ok o /\
      plain_walker st gp incl (outcome_walker o) /\
      yielded_inv (outcome_walker o) (Y ∪ opt_ids (outcome_entry o)) /\
      (forall e, outcome_entry o = Some e ->
         st !! id (commit e) = Some (commit e))).
  { intros w1 e oq Hw1 Hoq Hdone.
    pose proof Hw1 as (_ & _ & _ & _ & _ & _ & _ & _ & _ & _ & _ & Ho1).
    assert (Hw2 : plain_walker st gp incl (set_out_queue w1 oq)).
    { apply plain_walker_set_out_queue; [exact Hw1|].
      intros x Hx. apply Ho1. rewrite Hoq. now right. }
    rewrite (should_return_plain _ e Hw2). cbn [bind fst snd].
    eexists. split; [reflexivity|]. cbn [outcome_walker outcome_entry].
    split; [exact Hw2|]. split.
    - unfold yielded_inv. simpl. simpl in Hdone. rewrite Hdone. set_solver.
    - intros x [= <-]. apply Ho1. rewrite Hoq. now left. }
  destruct r as [en|]; cbn [orb].
  - assert (Hw1 : plain_walker st gp incl
                    (set_out_queue (set_queue w ∅ q') (_out_queue w ++ [en]))).
    { apply plain_walker_set_out_queue; [exact Hw'|].
      intros x [Hx|Hx]%elem_of_app; [auto|].
      apply list_elem_of_singleton in Hx as ->. now apply Hst. }
    assert (Hdone : _done q' = Y ∪ list_to_set (entry_ids (_out_queue w ++ [en]))).
    { rewrite Hd', HY, entry_ids_app. simpl. set_solver. }
    cbn [_out_queue set_out_queue set_queue].
    destruct (_MAX_EXTRA_COMMITS <? _).
    + destruct (_out_queue w ++ [en]) as [|e oq] eqn:Hbuf;
        [now destruct (_out_queue w)|].
      apply (Hpop _ e oq Hw1); [reflexivity | exact Hdone].
    + eexists. split; [reflexivity|]. cbn [outcome_walker outcome_entry].
      split; [exact Hw1|]. split; [|discriminate].
      unfold yielded_inv. simpl. rewrite Hdone. set_solver.
  - cbn [_out_queue set_queue].
    assert (Hdone : _done q' = Y ∪ list_to_set (entry_ids (_out_queue w))).
    { rewrite Hd', HY. simpl. set_solver. }
    destruct (_out_queue w) as [|e oq] eqn:Hbuf.
    + eexists. split; [reflexivity|]. cbn [outcome_walker outcome_entry].
      split; [exact Hw'|]. split; [|discriminate].
      unfold yielded_inv. simpl. rewrite Hbuf, Hdone. set_solver.
    + apply (Hpop _ e oq Hw'); [exact Hbuf | exact Hdone].
Qed.

Lemma _next_loop_no_raise (I : Walker -> Prop) :
  (forall w, I w ->
     exists o, _next_pass tc tcm w = Ok o /\
       match o with NextAgain w' => I w' | NextReturn _ _ => True end) ->
  forall fuel w e, I w -> _next_loop tc tcm fuel w <> Raise e.
Proof.
  intros Hpass. induction fuel as [|fuel IH]; intros w e HI.
  - simpl. now destruct (below_max w).
  - rewrite _next_loop_pass. destruct (Hpass w HI) as (o & -> & Ho). simpl.
    destruct o as [w'|r w']; [now apply IH | discriminate].
Qed.

Lemma plain_next_loop (w : Walker) (Y : gset CommitId) :
  plain_walker st gp incl w -> yielded_inv w Y ->
  exists r w', _next tc tcm w = Ok (r, w') /\
    plain_walker st gp incl w' /\ yielded_inv w' (Y ∪ opt_ids r) /\
    (forall e, r = Some e -> st !! id (commit e) = Some (commit e)).
Proof.
  intros Hw HY. pose proof (_next_total tc tcm w) as Ht.
  pose proof (_next_loop_no_raise
                (fun w => plain_walker st gp incl w /\ yielded_inv w Y)) as Hnr.
  unfold _next in *.
  destruct (_next_loop tc tcm (S (walker_measure w)) w) as [[r w']|e|] eqn:Hn;
    [|exfalso|contradiction].
  - exists r, w'. split; [reflexivity|].
    apply (_next_loop_rule tc tcm
             (fun w => plain_walker st gp incl w /\ yielded_inv w Y)
             (fun r w' => plain_walker st gp incl w' /\
                yielded_inv w' (Y ∪ opt_ids r) /\
                (forall e, r = Some e -> st !! id (commit e) = Some (commit e))))
      in Hn; [exact Hn | | split; assumption].
    intros w1 o [Hw1 HY1] Ho.
    destruct (plain_walk_pass w1 Y Hw1 HY1) as (o' & Ho' & P1 & P2 & P3).
    rewrite Ho in Ho'. injection Ho' as <-. destruct o as [w2|r2 w2].
    + simpl in P2. rewrite union_empty_r_L in P2. now split.
    + auto.
  - apply (Hnr) with (w := w) (fuel := S (walker_measure w)) (e := e);
      [|split; assumption|exact Hn].
    intros w1 [Hw1 HY1].
    destruct (plain_walk_pass w1 Y Hw1 HY1) as (o' & Ho' & P1 & P2 & P3).
    exists o'. split; [exact Ho'|]. destruct o'; [|exact I].
    simpl in P2. rewrite union_empty_r_L in P2. now split.
Qed.

Lemma plain_iter (fuel : nat) (w : Walker) (Y : gset CommitId) :
  plain_walker st gp incl w -> yielded_inv w Y ->
  (walker_measure w < fuel)%nat ->
  exists l wf, iter_next tc tcm fuel w = (l, Ok wf) /\
    plain_walker st gp incl wf /\
    _done (_queue wf) = Y ∪ list_to_set (entry_ids l) /\
    _is_finished (_queue wf) = true /\
    (forall e, e ∈ l -> st !! id (commit e) = Some (commit e)).
Proof.
  revert w Y. induction fuel as [|fuel IH]; intros w Y Hw HY Hfuel; [lia|].
  simpl. pose proof (_next_total tc tcm w) as Ht.
  destruct (plain_next_loop w Y Hw HY) as (r & w' & Hn & Hw' & HY' & Hst).
  rewrite Hn in *. destruct r as [e|].
  - destruct (IH w' (Y ∪ opt_ids (Some e)) Hw' HY') as (l & wf & -> & P1 & P2 & P3 & P4);
      [lia|].
    exists (e :: l), wf. split; [reflexivity|]. split; [exact P1|].
    split; [rewrite P2; simpl; set_solver|]. split; [exact P3|].
    intros x [->|Hx]%elem_of_cons; auto.
  - exists [], w'. split; [reflexivity|]. split; [exact Hw'|].
    unfold _next in Hn. apply _next_loop_none in Hn as [Hb|[Hfin Hoq]].
    { now rewrite (below_max_plain w' Hw') in Hb. }
    split; [|split; [exact Hfin | intros x Hx; inversion Hx]].
    unfold yielded_inv in HY'. rewrite HY', Hoq. simpl. set_solver.
Qed.

(** At the end of a plain walk the done commits are the reachable ones. *)
Lemma plain_done_reachable (w : Walker) :
  plain_walker st gp incl w -> _is_finished (_queue w) = true ->
  forall k, k ∈ _done (_queue w) <-> reachable st gp incl k.
Proof.
  intros (_ & _ & _ & _ & _ & _ & _ & Hq & Hcd & Hin & Hfin & _) Hf k.
  destruct Hq as (_ & _ & _ & Hd & _ & Hr).
  assert (Hempty : forall k, k ∉ _pq_set (_queue w)).
  { intros k' Hk'. apply Hd in Hk'. rewrite (Hfin Hf) in Hk'. inversion Hk'. }
  split; [intros Hk; apply Hr; now right|].
  induction 1 as [k Hk|k c p Hk IH Hc Hp].
  - destruct (Hin k Hk) as [H|H]; [now apply Hempty in H | exact H].
  - destruct (Hcd k c p IH Hc Hp) as [H|H]; [now apply Hempty in H | exact H].
Qed.

End PlainWalk.

Lemma plain_queue_new st gp (incl : list CommitId) :
  plain_queue st gp incl (new_queue None).
Proof.
  split; [reflexivity|]. split; [apply NoDup_nil_2|].
  split; [intros t c H; inversion H|].
  split; [intros k; simpl; split; intros H; [set_solver | inversion H]|].
  split; [simpl; set_solver|]. intros k [H|H]; simpl in H; set_solver.
Qed.

Lemma wf_store_by_eval (st : gmap CommitId Commit) :
  bool_decide (wf_store st) = true -> wf_store st.
Proof. apply bool_decide_eq_true_1. Qed.

Lemma parents_closed_by_eval (st : gmap CommitId Commit)
    (gp : Commit -> list CommitId) :
  bool_decide (parents_closed st gp) = true -> parents_closed st gp.
Proof. apply bool_decide_eq_true_1. Qed.

Section PlainWalkTheorem.

Variable tc :
  gmap CommitId Commit -> option TreeId -> TreeId -> option RenameDetector ->
  list TreeChange.
Variable tcm :
  gmap CommitId Commit -> list TreeId -> TreeId -> option RenameDetector ->
  list (list (option TreeChange)).

(** X14.  A walk in date order without exclusions, time bounds, paths and cap,
    over a store that gives for each id a commit of that id and that holds
    every commit reachable from the include ids: the walker is
    constructed, the walk ends without an exception, and it yields exactly
    the commits reachable from the include ids along [get_parents], each
    once, as the store has them. *)
Theorem plain_walk_yields_reachable (a : WalkerArgs) :
  arg_order a = ORDER_DATE -> arg_exclude a = None ->
  arg_since a = None -> arg_until a = None -> arg_paths a = None ->
  arg_max_entries a = None ->
  wf_store (arg_store a) ->
  (forall k, reachable (arg_store a) (arg_get_parents a) (include_ids a) k ->
     is_Some (arg_store a !! k)) ->
  exists w0 wf l,
    Walker_init a = Ok w0 /\ Walker_iter tc tcm w0 = (l, Ok wf) /\
    NoDup (entry_ids l) /\
    (forall k, k ∈ entry_ids l <->
       reachable (arg_store a) (arg_get_parents a) (include_ids a) k) /\
    (forall e, e ∈ l -> arg_store a !! id (commit e) = Some (commit e)).
Proof.
  intros Ho Hex Hsi Hun Hpa Hma Hwf Hcl.
  set (st := arg_store a) in *. set (gp := arg_get_parents a) in *.
  set (incl := include_ids a) in *.
  destruct (plain_push_all st gp incl (incl ++ elements (∅ : gset CommitId))
              (new_queue None) Hwf (plain_queue_new st gp incl))
    as (q & Hq & Pq & Pd & Ps & Pc & Pf).
  { rewrite elements_empty, app_nil_r. intros c Hc.
    assert (reachable st gp incl c) by now apply reach_include. auto. }
  pose (w0 := {| store := st; include := incl; excluded := ∅;
                 order := ORDER_DATE; reverse := arg_reverse a;
                 max_entries := None; paths := None;
                 rename_detector :=
                   match arg_follow a, arg_rename_detector a with
                   | true, None => Some (RenameDetector_new st)
                   | _, d => d
                   end;
                 get_parents := gp; follow := arg_follow a; since := None;
                 until := None; _num_entries := 0; _queue := q;
                 _out_queue := [] |}).
  assert (Hinit : Walker_init a = Ok w0).
  { unfold Walker_init, _CommitTimeQueue_init.
    rewrite Ho, Hex, Hsi, Hun, Hpa, Hma.
    change (negb (existsb (String.eqb ORDER_DATE) ALL_ORDERS)) with false.
    cbv iota.
    change (match arg_include a with
            | IncludeOne c => [c]
            | IncludeList l => l
            end) with incl.
    change (arg_store a) with st. rewrite Hq. reflexivity. }
  assert (Hw0 : plain_walker st gp incl w0).
  { unfold plain_walker. simpl. do 7 (split; [reflexivity|]).
    split; [exact Pq|]. split.
    { intros k c p Hk. rewrite Pd in Hk. simpl in Hk. set_solver. }
    split.
    { intros k Hk. apply Pc. apply elem_of_app. now left. }
    split; [rewrite Pf; discriminate|]. intros e He. inversion He. }
  assert (HY : yielded_inv w0 ∅).
  { unfold yielded_inv. simpl. rewrite Pd. simpl. set_solver. }
  destruct (plain_iter tc tcm st gp incl Hwf Hcl (S (walker_measure w0)) w0 ∅
              Hw0 HY) as (l & wf & Hres & Pw & Pdone & Pfin & Pst); [lia|].
  fold (results tc tcm w0) in Hres.
  pose proof (plain_done_reachable st gp incl wf Pw Pfin) as Hreach.
  assert (Hids : forall k, k ∈ entry_ids l <-> reachable st gp incl k).
  { intros k. rewrite <- Hreach, Pdone. set_solver. }
  assert (Hnd : NoDup (entry_ids l)).
  { pose proof (iter_next_nodup tc tcm (S (walker_measure w0)) w0
                  (buffer_inv_init a w0 Hinit)) as [Hnd _].
    fold (results tc tcm w0) in Hnd. now rewrite Hres in Hnd. }
  exists w0, wf. unfold Walker_iter, _reorder. rewrite Hres.
  change (order w0) with ORDER_DATE. change (reverse w0) with (arg_reverse a).
  change (String.eqb ORDER_DATE ORDER_TOPO) with false. cbv iota.
  destruct (arg_reverse a).
  - exists (rev l). unfold reversed_list. simpl. split; [exact Hinit|].
    split; [reflexivity|]. unfold entry_ids in *. rewrite map_rev.
    split; [now rewrite <- Permutation_rev|]. split.
    + intros k. rewrite <- Permutation_rev. apply Hids.
    + intros e He. apply Pst. now rewrite <- Permutation_rev in He.
  - exists l. auto.
Qed.

End PlainWalkTheorem.

Lemma plain_walk_yields_reachable_witness :
  exists w0 wf l,
    Walker_init two_heads_args = Ok w0 /\
    Walker_iter no_tree_changes no_merge_changes w0 = (l, Ok wf) /\
    NoDup (entry_ids l) /\
    (forall k, k ∈ entry_ids l <->
       reachable (arg_store two_heads_args) (arg_get_parents two_heads_args)
         (include_ids two_heads_args) k) /\
    (forall e, e ∈ l ->
       arg_store two_heads_args !! id (commit e) = Some (commit e)).
Proof.
  apply (plain_walk_yields_reachable no_tree_changes no_merge_changes
           two_heads_args); try reflexivity.
  - apply wf_store_by_eval. vm_compute. reflexivity.
  - apply reachable_in_closed_store.
    + apply parents_closed_by_eval. vm_compute. reflexivity.
    + intros k Hk. vm_compute in Hk.
      apply elem_of_cons in Hk as [->|Hk]; [vm_compute; eauto|].
      apply elem_of_cons in Hk as [->|Hk]; [vm_compute; eauto | inversion Hk].
Defined.

(** ** The path set without [follow], and pushing twice *)

Section NoFollowWalk.

Variable tc :
  gmap CommitId Commit -> option TreeId -> TreeId -> option RenameDetector ->
  list TreeChange.
Variable tcm :
  gmap CommitId Commit -> list TreeId -> TreeId -> option RenameDetector ->
  list (list (option TreeChange)).

(** X15.  Without [follow] the walk never changes its path set: after a call
    of [_next], whatever it returns, the walker has the paths it had. *)
Theorem next_keeps_paths_without_follow (w w' : Walker)
    (r : option WalkEntry) :
  follow w = false -> _next tc tcm w = Ok (r, w') ->
  paths w' = paths w /\ follow w' = false.
Proof.
  intros Hf Hn. unfold _next in Hn.
  apply (_next_loop_rule tc tcm
           (fun w1 => paths w1 = paths w /\ follow w1 = false)
           (fun _ w1 => paths w1 = paths w /\ follow w1 = false)) in Hn;
    [exact Hn| |auto].
  intros w1 o [Hp1 Hf1] Ho.
  apply _next_pass_cases in Ho as [[_ ->]|(_ & entry & ex & q & Hnext & Hcase)];
    [auto|].
  cbv zeta in Hcase.
  destruct Hcase as [(_ & _ & ->)|[(_ & _ & ->)|
                     (e & oq & b & p & _ & _ & Hsr & ->)]]; simpl; auto.
  apply should_return_no_follow in Hsr; [|exact Hf1].
  apply (f_equal paths) in Hsr. simpl in Hsr.
  destruct b; simpl; rewrite Hsr; auto.
Qed.

End NoFollowWalk.

Lemma next_keeps_paths_without_follow_witness :
  paths (snd (after_walk_next merge_walker)) = paths merge_walker /\
  follow (snd (after_walk_next merge_walker)) = false.
Proof.
  apply (next_keeps_paths_without_follow no_tree_changes no_merge_changes
           merge_walker (snd (after_walk_next merge_walker))
           (fst (after_walk_next merge_walker))).
  - vm_compute. reflexivity.
  - vm_compute. reflexivity.
Defined.

Lemma push_idempotent_witness :
  _push linear_store pushed_queue "C3" = Ok pushed_queue /\
  ("C3" ∈ _pq_set pushed_queue \/ "C3" ∈ _done pushed_queue) /\
  _done pushed_queue = _done (new_queue None) /\
  ("C3" ∉ _pq_set (new_queue None) -> "C3" ∉ _done (new_queue None) ->
   "C3" ∈ _seen pushed_queue /\
   length (_pq pushed_queue) = S (length (_pq (new_queue None)))).
Proof.
  apply (push_idempotent linear_store (new_queue None) pushed_queue "C3").
  vm_compute. reflexivity.
Defined.

(** ** Date order: newest first *)

Lemma parents_older_le st gp (k p : CommitId) (c pc : Commit) :
  parents_older st gp -> st !! k = Some c -> p ∈ gp c -> st !! p = Some pc ->
  commit_time pc <= commit_time c.
Proof.
  intros H Hk Hp Hpc. specialize (H k c Hk). simpl in H.
  rewrite forallb_forall in H. specialize (H p). rewrite Hpc in H.
  apply Z.leb_le, H. now apply list_elem_of_In.
Qed.

Lemma heap_lt_le (x y : Z * Commit) : heap_lt x y = true -> heap_key_le x y.
Proof.
  unfold heap_lt, heap_key_le.
  intros [H|[H _]%andb_true_iff]%orb_true_iff; lia.
Qed.

Lemma heap_lt_ge (x y : Z * Commit) : heap_lt x y = false -> heap_key_le y x.
Proof.
  unfold heap_lt, heap_key_le. intros [H _]%orb_false_iff. lia.
Qed.

Lemma heappush_sorted (pq : list (Z * Commit)) (x : Z * Commit) :
  StronglySorted heap_key_le pq -> StronglySorted heap_key_le (heappush pq x).
Proof.
  induction 1 as [|y pq Hs IH Hall]; simpl; [repeat constructor|].
  destruct (heap_lt x y) eqn:Hlt.
  - apply heap_lt_le in Hlt.
    apply SSorted_cons; [now apply SSorted_cons|]. constructor; [exact Hlt|].
    eapply Forall_impl; [exact Hall|].
    intros z Hz. unfold heap_key_le in *. lia.
  - apply heap_lt_ge in Hlt. apply SSorted_cons; [exact IH|].
    rewrite heappush_perm. now constructor.
Qed.

Lemma sorted_snoc {A} (R : A -> A -> Prop) (l : list A) (y : A) :
  StronglySorted R l -> (forall x, x ∈ l -> R x y) ->
  StronglySorted R (l ++ [y]).
Proof.
  induction 1 as [|a l Hs IH Hall]; intros Hy; simpl.
  - repeat constructor.
  - apply SSorted_cons.
    + apply IH. intros x Hx. apply Hy. now right.
    + apply Forall_app. split; [exact Hall|].
      constructor; [|constructor]. apply Hy. now left.
Qed.

Lemma push_date st (q q1 : Queue) (c : CommitId) :
  _push st q c = Ok q1 -> date_heap st (_pq q) ->
  date_heap st (_pq q1) /\
  forall t x, (t, x) ∈ _pq q1 -> (t, x) ∈ _pq q \/ st !! c = Some x.
Proof.
  intros [[_ ->]|(_ & _ & x & Hx & ->)]%push_cases Hq; [split; auto|].
  destruct Hq as [Hs Hk]. simpl. split; [split|].
  - now apply heappush_sorted.
  - intros t c0. rewrite heappush_perm.
    intros [[= -> ->]|Hin]%elem_of_cons; [split; [reflexivity | eauto] | auto].
  - intros t c0. rewrite heappush_perm.
    intros [[= -> ->]|Hin]%elem_of_cons; auto.
Qed.

Lemma push_all_date st (ids : list CommitId) (q q1 : Queue) :
  push_all st q ids = Ok q1 -> date_heap st (_pq q) ->
  date_heap st (_pq q1) /\
  forall t x, (t, x) ∈ _pq q1 ->
    (t, x) ∈ _pq q \/ exists k, k ∈ ids /\ st !! k = Some x.
Proof.
  revert q. induction ids as [|c ids IH]; simpl; intros q.
  - intros [= <-] Hq. split; auto.
  - intros (q0 & Hp & Hrest)%bind_Ok Hq.
    destruct (push_date _ _ _ _ Hp Hq) as [Hq0 Hh0].
    destruct (IH _ Hrest Hq0) as [Hq1 Hh1]. split; [exact Hq1|].
    intros t x Hin. destruct (Hh1 t x Hin) as [H|(k & Hk & Hx)].
    + destruct (Hh0 t x H) as [H'|H']; [now left|].
      right. exists c. split; [now left | exact H'].
    + right. exists k. split; [now right | exact Hx].
Qed.

(** What a pass of the queue does to the heap: it takes the head, and
    unless the commit was done already it pushes the parents; an entry
    returned is the head. *)
Lemma next_pass_heap st gp (excl : gset CommitId) (q : Queue)
    (o : pass_outcome) :
  next_pass st gp excl q = Ok o ->
  match _pq q with
  | [] => _pq (pass_queue o) = [] /\ pass_entry o = None
  | (t, c) :: pq' =>
      (exists q3,
         push_all st (set_done (set_pq q pq' (_pq_set q ∖ {[id c]}))
                        ({[id c]} ∪ _done q)) (gp c) = Ok q3 /\
         _pq (pass_queue o) = _pq q3 /\
         forall e, pass_entry o = Some e -> e = {| commit := c |}) \/
      (_pq (pass_queue o) = pq' /\ pass_entry o = None)
  end.
Proof.
  unfold next_pass. destruct (_pq q) as [|[t c] pq'] eqn:Hpq.
  { intros [= <-]. simpl. now rewrite Hpq. }
  destruct (bool_decide (id c ∈ _pq_set q)); [|discriminate].
  cbn [_done set_pq].
  destruct (bool_decide (id c ∈ _done q)).
  { intros [= <-]. right. split; reflexivity. }
  intros (q3 & Hq3 & H)%bind_Ok. left. exists q3. split; [exact Hq3|].
  apply bind_Ok in H as ([ex rs] & Hr & H). cbn [fst snd] in H.
  destruct (rs && negb _).
  - destruct (bool_decide (id c ∈ excl)); injection H as <-; simpl;
      (split; [reflexivity|]); [discriminate | now intros e [= <-]].
  - cbn [_extra_commits_left set_extra] in H.
    destruct (_ =? 0).
    + injection H as <-. simpl. split; [reflexivity | discriminate].
    + destruct (bool_decide (id c ∈ excl)); injection H as <-; simpl;
        (split; [reflexivity|]); [discriminate | now intros e [= <-]].
Qed.

Lemma next_pass_date st gp (excl : gset CommitId) (q : Queue)
    (o : pass_outcome) :
  parents_older st gp -> date_heap st (_pq q) ->
  next_pass st gp excl q = Ok o ->
  date_heap st (_pq (pass_queue o)) /\
  (forall B, heap_below B (_pq q) ->
     heap_below B (_pq (pass_queue o)) /\
     forall e, pass_entry o = Some e -> commit_time (commit e) <= B) /\
  (forall e, pass_entry o = Some e ->
     heap_below (commit_time (commit e)) (_pq (pass_queue o))).
Proof.
  intros Hpo [Hs Hk] Ho. apply next_pass_heap in Ho.
  destruct (_pq q) as [|[t c] pq'] eqn:Hpq.
  { destruct Ho as [-> ->]. split.
    { split; [constructor | intros ? ? H; inversion H]. }
    split; [|discriminate].
    intros B _. split; [intros ? ? H; inversion H | discriminate]. }
  apply StronglySorted_inv in Hs as [Hs' Hhead].
  destruct (Hk t c) as [Ht [k Hc]]; [now left|].
  assert (Htail : date_heap st pq').
  { split; [exact Hs'|]. intros t' c' H'. apply Hk. now right. }
  assert (Hle : heap_below (commit_time c) pq').
  { intros t' c' H'. destruct (Hk t' c') as [Ht' _]; [now right|].
    rewrite Forall_forall in Hhead. specialize (Hhead _ H').
    unfold heap_key_le in Hhead. simpl in Hhead. lia. }
  destruct Ho as [(q3 & Hq3 & -> & He)|[-> ->]].
  - apply push_all_date in Hq3 as [Hd3 Hh3]; [|exact Htail].
    assert (Hle3 : heap_below (commit_time c) (_pq q3)).
    { intros t' c' H'. destruct (Hh3 t' c' H') as [H|(p & Hp & Hpc)].
      - now apply (Hle t').
      - now apply (parents_older_le st gp k p c c'). }
    split; [exact Hd3|]. split.
    + intros B HB. assert (commit_time c <= B) by (apply (HB t); now left).
      split.
      * intros t' c' H'. specialize (Hle3 t' c' H'). lia.
      * intros e ->%He. exact H.
    + intros e ->%He. exact Hle3.
  - split; [exact Htail|]. split; [|discriminate].
    intros B HB. split; [|discriminate].
    intros t' c' H'. apply (HB t'). now right.
Qed.

Lemma next_date st gp (w w' : Walker) (r : option WalkEntry) :
  parents_older st gp -> store w = st -> get_parents w = gp ->
  date_heap st (_pq (_queue w)) -> next w = Ok (r, w') ->
  date_heap st (_pq (_queue w')) /\
  (forall B, heap_below B (_pq (_queue w)) ->
     heap_below B (_pq (_queue w')) /\
     forall e, r = Some e -> commit_time (commit e) <= B) /\
  (forall e, r = Some e ->
     heap_below (commit_time (commit e)) (_pq (_queue w'))).
Proof.
  intros Hpo Hst Hgp Hd. unfold next.
  destruct (_is_finished (_queue w)).
  { intros [= <- <-]. split; [exact Hd|]. split; [|discriminate].
    intros B HB. split; [exact HB | discriminate]. }
  intros ([r' [ex q']] & Hloop & [= <- <-])%bind_Ok. simpl.
  rewrite Hst, Hgp in Hloop.
  apply (next_loop_rule st gp
     (fun _ q1 => date_heap st (_pq q1) /\
        forall B, heap_below B (_pq (_queue w)) -> heap_below B (_pq q1))
     (fun r _ q1 => date_heap st (_pq q1) /\
        (forall B, heap_below B (_pq (_queue w)) ->
           heap_below B (_pq q1) /\
           forall e, r = Some e -> commit_time (commit e) <= B) /\
        (forall e, r = Some e -> heap_below (commit_time (commit e)) (_pq q1))))
    in Hloop; [exact Hloop| |split; auto].
  intros excl q o [I1 I2] Ho.
  apply (next_pass_date st gp excl q o Hpo I1) in Ho as (P1 & P2 & P3).
  destruct o as [e1 q1|r1 e1 q1]; simpl in *.
  - split; [exact P1|]. intros B HB. now apply P2, I2.
  - split; [exact P1|]. split; [|exact P3]. intros B HB. now apply P2, I2.
Qed.

Section DateOrder.

Variable tc :
  gmap CommitId Commit -> option TreeId -> TreeId -> option RenameDetector ->
  list TreeChange.
Variable tcm :
  gmap CommitId Commit -> list TreeId -> TreeId -> option RenameDetector ->
  list (list (option TreeChange)).
Variable st : gmap CommitId Commit.
Variable gp : Commit -> list CommitId.
Hypothesis Hpo : parents_older st gp.

Lemma _next_pass_date (w : Walker) (o : next_outcome) :
  date_walker st gp w -> _next_pass tc tcm w = Ok o ->
  date_walker st gp (outcome_walker o) /\
  (forall B, all_below B w ->
     all_below B (outcome_walker o) /\
     forall e, outcome_entry o = Some e -> commit_time (commit e) <= B) /\
  (forall e, outcome_entry o = Some e ->
     all_below (commit_time (commit e)) (outcome_walker o)).
Proof.
  intros Hw Ho. pose proof Hw as (Hst & Hgp & Hd & Hso & Hob).
  apply _next_pass_cases in Ho as [[_ ->]|(_ & entry & ex & q & Hnext & Hcase)].
  { simpl. split; [exact Hw|]. split; [|discriminate].
    intros B HB. split; [exact HB | discriminate]. }
  apply (next_date st gp w _ entry Hpo Hst Hgp Hd) in Hnext as (N1 & N2 & N3).
  simpl in N1, N2, N3. cbv zeta in Hcase.
  set (buf := _out_queue w ++ match entry with Some e => [e] | None => [] end)
    in *.
  assert (F1 : StronglySorted newer_first buf).
  { unfold buf. destruct entry as [en|]; [|now rewrite app_nil_r].
    apply sorted_snoc; [exact Hso|]. intros x Hx.
    destruct (N2 _ (Hob x Hx)) as [_ Hle]. now apply Hle. }
  assert (F2 : forall x, x ∈ buf -> heap_below (commit_time (commit x)) (_pq q)).
  { unfold buf. intros x [Hx|Hx]%elem_of_app.
    - now apply N2, Hob.
    - destruct entry as [en|]; [|inversion Hx].
      apply list_elem_of_singleton in Hx as ->. now apply N3. }
  assert (F3 : forall B, all_below B w ->
    (forall x, x ∈ buf -> commit_time (commit x) <= B) /\ heap_below B (_pq q)).
  { intros B [B1 B2]. destruct (N2 B B2) as [B3 B4]. split; [|exact B3].
    unfold buf. intros x [Hx|Hx]%elem_of_app; [now apply B1|].
    destruct entry as [en|]; [|inversion Hx].
    apply list_elem_of_singleton in Hx as ->. now apply B4. }
  destruct Hcase as [(_ & _ & ->)|[(_ & Hnil & ->)|
                     (e & oq & b & p & Hbuf & _ & _ & ->)]].
  - cbn [outcome_walker outcome_entry]. split.
    { unfold date_walker. simpl. auto. }
    split; [|discriminate]. intros B HB. split; [|discriminate].
    unfold all_below. simpl. now apply F3.
  - cbn [outcome_walker outcome_entry].
    assert (Hout : _out_queue w = []).
    { unfold buf in Hnil. now destruct (_out_queue w). }
    split.
    { unfold date_walker. simpl. rewrite Hout.
      do 3 (split; [trivial|]). split; [constructor|].
      intros x Hx. inversion Hx. }
    split; [|discriminate]. intros B HB. split; [|discriminate].
    unfold all_below. simpl. rewrite Hout. split; [|now apply F3].
    intros x Hx. inversion Hx.
  - rewrite Hbuf in F1, F2. apply StronglySorted_inv in F1 as [F1 F1h].
    rewrite Forall_forall in F1h.
    assert (Hdw : forall n,
      date_walker st gp
        (set_num_entries
           (set_paths (set_out_queue (set_queue w ex q) oq) p) n)).
    { intros n. unfold date_walker. simpl. do 3 (split; [trivial|]).
      split; [exact F1|]. intros x Hx. apply F2. now right. }
    assert (Hbelow : forall B n, all_below B w ->
      all_below B
        (set_num_entries
           (set_paths (set_out_queue (set_queue w ex q) oq) p) n) /\
      commit_time (commit e) <= B).
    { intros B n HB. destruct (F3 B HB) as [B1 B2]. rewrite Hbuf in B1.
      split; [|apply B1; now left]. unfold all_below. simpl.
      split; [|exact B2]. intros x Hx. apply B1. now right. }
    destruct b; cbn [outcome_walker outcome_entry].
    + split; [apply Hdw|]. split.
      * intros B HB. destruct (Hbelow B (_num_entries w + 1) HB) as [B1 B2].
        split; [exact B1|]. now intros x [= <-].
      * intros x [= <-]. unfold all_below. simpl. split.
        -- intros x Hx. now apply F1h.
        -- apply F2. now left.
    + split; [apply (Hdw (_num_entries w))|]. split; [|discriminate].
      intros B HB. split; [|discriminate].
      apply (Hbelow B (_num_entries w) HB).
Qed.

Lemma _next_date (w w' : Walker) (r : option WalkEntry) :
  date_walker st gp w -> _next tc tcm w = Ok (r, w') ->
  date_walker st gp w' /\
  (forall B, all_below B w ->
     all_below B w' /\ forall e, r = Some e -> commit_time (commit e) <= B) /\
  (forall e, r = Some e -> all_below (commit_time (commit e)) w').
Proof.
  intros Hw Hn. unfold _next in Hn.
  apply (_next_loop_rule tc tcm
     (fun w1 => date_walker st gp w1 /\
        forall B, all_below B w -> all_below B w1)
     (fun r w1 => date_walker st gp w1 /\
        (forall B, all_below B w ->
           all_below B w1 /\
           forall e, r = Some e -> commit_time (commit e) <= B) /\
        (forall e, r = Some e -> all_below (commit_time (commit e)) w1)))
    in Hn; [exact Hn| |split; auto].
  intros w1 o [I1 I2] Ho.
  apply (_next_pass_date w1 o I1) in Ho as (P1 & P2 & P3).
  destruct o as [w2|r2 w2]; cbn [outcome_walker outcome_entry] in *.
  - split; [exact P1|]. intros B HB. now apply P2, I2.
  - split; [exact P1|]. split; [|exact P3]. intros B HB. now apply P2, I2.
Qed.

Lemma iter_next_date (fuel : nat) (w : Walker) :
  date_walker st gp w ->
  StronglySorted newer_first (fst (iter_next tc tcm fuel w)) /\
  forall B, all_below B w ->
    Forall (fun e => commit_time (commit e) <= B)
      (fst (iter_next tc tcm fuel w)).
Proof.
  revert w. induction fuel as [|fuel IH]; intros w Hw; simpl.
  { split; [apply SSorted_nil | intros; apply Forall_nil_2]. }
  destruct (_next tc tcm w) as [[[e|] w']| |] eqn:Hn; simpl;
    try (split; [apply SSorted_nil | intros; apply Forall_nil_2]).
  apply (_next_date w w' _ Hw) in Hn as (P1 & P2 & P3).
  destruct (IH w' P1) as [IH1 IH2]. split.
  - apply SSorted_cons; [exact IH1|]. now apply IH2, P3.
  - intros B HB. destruct (P2 B HB) as [B1 B2].
    constructor; [now apply B2 | now apply IH2].
Qed.

End DateOrder.

Lemma parents_older_by_eval (st : gmap CommitId Commit)
    (gp : Commit -> list CommitId) :
  bool_decide (parents_older st gp) = true -> parents_older st gp.
Proof. apply bool_decide_eq_true_1. Qed.

Section DateOrderTheorem.

Variable tc :
  gmap CommitId Commit -> option TreeId -> TreeId -> option RenameDetector ->
  list TreeChange.
Variable tcm :
  gmap CommitId Commit -> list TreeId -> TreeId -> option RenameDetector ->
  list (list (option TreeChange)).

(** X16.  In date order the walk yields the newest commit first: when no commit
    of the store is older than a parent of its, the entries come with
    commit times that never increase (never decrease, when reversed),
    whatever the exclusions, bounds and paths. *)
Theorem date_order_newest_first (a : WalkerArgs) (w0 : Walker) :
  parents_older (arg_store a) (arg_get_parents a) ->
  arg_order a = ORDER_DATE -> Walker_init a = Ok w0 ->
  StronglySorted newer_first
    (if arg_reverse a then rev (fst (Walker_iter tc tcm w0))
     else fst (Walker_iter tc tcm w0)).
Proof.
  intros Hpo Ho Hinit. unfold Walker_init in Hinit. rewrite Ho in Hinit.
  change (negb (existsb (String.eqb ORDER_DATE) ALL_ORDERS)) with false in Hinit.
  cbv iota in Hinit. apply bind_Ok in Hinit as (q & Hq & [= <-]).
  unfold _CommitTimeQueue_init in Hq.
  apply push_all_date in Hq as [Hd _].
  2:{ split; [constructor | intros ? ? H; inversion H]. }
  match goal with |- context [Walker_iter tc tcm ?w] => set (w0 := w) end.
  assert (Hw0 : date_walker (arg_store a) (arg_get_parents a) w0).
  { unfold date_walker. simpl. split; [auto|]. split; [auto|].
    split; [exact Hd|]. split; [constructor|]. intros e He. inversion He. }
  destruct (iter_next_date tc tcm _ _ Hpo (S (walker_measure w0)) w0 Hw0)
    as [Hsorted _].
  fold (results tc tcm w0) in Hsorted.
  unfold Walker_iter, _reorder. change (order w0) with ORDER_DATE.
  change (reverse w0) with (arg_reverse a).
  change (String.eqb ORDER_DATE ORDER_TOPO) with false. cbv iota.
  destruct (arg_reverse a); [|exact Hsorted].
  unfold reversed_list. destruct (snd (results tc tcm w0)); simpl;
    try constructor.
  now rewrite rev_involutive.
Qed.

End DateOrderTheorem.

Lemma date_order_newest_first_witness :
  StronglySorted newer_first
    (if arg_reverse two_heads_args
     then rev (fst (Walker_iter no_tree_changes no_merge_changes
                      two_heads_walker))
     else fst (Walker_iter no_tree_changes no_merge_changes two_heads_walker)).
Proof.
  apply (date_order_newest_first no_tree_changes no_merge_changes
           two_heads_args two_heads_walker).
  - apply parents_older_by_eval. vm_compute. reflexivity.
  - reflexivity.
  - vm_compute. reflexivity.
Defined.
